(** * mach: a structured, leveled JSON logger

    A shallow embedding of the encoder ([level.go]), the field constructors
    ([field.go]) and the logger protocol ([logger.go]), with the properties
    of the specification stated and proved over it.

    Conventions.  A Go [string] and a Go [[]byte] are both [list byte]; an
    [int64] is a [Z] in the range of [int64_range] with wrap-around written
    out; a [float64] is a [spec_float] at precision 53 and exponent bound
    1024 (IEEE binary64).  A pointer is an address into a store of the
    [State]; a method that dereferences a pointer the store does not hold
    returns [None], as the Go code panics.  What a program does to the
    outside is the [trace] of its state. *)

From Stdlib Require Import ZArith Lia Bool.
From Stdlib Require Import Strings.Byte Strings.String Strings.Ascii.
From Stdlib Require Import Numbers.DecimalString Numbers.DecimalZ Numbers.DecimalPos
  Numbers.DecimalFacts.
From Stdlib Require Import Floats.SpecFloat.
From stdpp Require Import base list option gmap.

Open Scope Z_scope.

(** ** Bytes and strings *)

Definition byte_of_Z (z : Z) : byte :=
  match Byte.of_N (Z.to_N (z mod 256)) with
  | Some b => b
  | None => x00
  end.

Definition Z_of_byte (b : byte) : Z := Z.of_N (Byte.to_N b).

(** A string literal as the bytes of its UTF-8 text. *)
Definition bytes (s : string) : list byte := list_byte_of_string s.

(** The same, with every apostrophe of the literal standing for a double
    quote: JSON text is full of them. *)
Definition json (s : string) : list byte :=
  (λ b, match b with x27 => x22 | _ => b end) <$> bytes s.

(** ** 64-bit integers *)

Definition int64_min : Z := -9223372036854775808.
Definition int64_max : Z := 9223372036854775807.
Definition int64_range (v : Z) : Prop := int64_min <= v <= int64_max.

(** Reduction of an integer to the [int64] it wraps to. *)
Definition wrap64 (z : Z) : Z := (z + 2 ^ 63) mod 2 ^ 64 - 2 ^ 63.

(** The decimal representation of an integer, as the standard library
    prints it: a ['-'] for a negative number, no leading zero, ["0"] for
    zero. *)
Definition decimal (v : Z) : list byte :=
  bytes (NilZero.string_of_int (Z.to_int v)).

(** ** Package unicode/utf8

    The decoder of the Go standard library, which [appendEscapedString]
    calls; transcribed from its documented algorithm (the [first] table is
    given by ranges instead of 256 entries). *)

Module utf8.

Definition RuneError : Z := 65533.
Definition RuneSelf : Z := 128.

(** Information about the first byte of an encoding: [0xF0] for ASCII,
    [0xF1] for a byte that starts no encoding, else the accept-range index
    in the high nibble and the size in the low one. *)
Definition first (b : byte) : Z :=
  let c := Z_of_byte b in
  if c <? 128 then 240
  else if c <? 194 then 241
  else if c <? 224 then 2
  else if c =? 224 then 19
  else if c <? 237 then 3
  else if c =? 237 then 35
  else if c <? 240 then 3
  else if c =? 240 then 52
  else if c <? 244 then 4
  else if c =? 244 then 68
  else 241.

(** The range of the second byte, by accept-range index. *)
Definition acceptRanges (i : Z) : Z * Z :=
  if i =? 0 then (128, 191)
  else if i =? 1 then (160, 191)
  else if i =? 2 then (128, 159)
  else if i =? 3 then (144, 191)
  else if i =? 4 then (128, 143)
  else (0, 0).

Definition at_ (s : list byte) (i : nat) : Z := Z_of_byte (nth i s x00).

Definition DecodeRuneInString (s : list byte) : Z * nat :=
  let n := length s in
  if (n <? 1)%nat then (RuneError, 0%nat)
  else
    let s0 := at_ s 0 in
    let x := first (nth 0 s x00) in
    if 240 <=? x then
      (* mask is all ones exactly when the low bit of x is set (x = 0xF1) *)
      ((if Z.testbit x 0 then RuneError else s0), 1%nat)
    else
      let sz := Z.to_nat (Z.land x 7) in
      let '(lo, hi) := acceptRanges (Z.shiftr x 4) in
      if (n <? sz)%nat then (RuneError, 1%nat)
      else
        let s1 := at_ s 1 in
        if (s1 <? lo) || (hi <? s1) then (RuneError, 1%nat)
        else if (sz <=? 2)%nat then
          (Z.lor (Z.shiftl (Z.land s0 31) 6) (Z.land s1 63), 2%nat)
        else
          let s2 := at_ s 2 in
          if (s2 <? 128) || (191 <? s2) then (RuneError, 1%nat)
          else if (sz <=? 3)%nat then
            (Z.lor (Z.lor (Z.shiftl (Z.land s0 15) 12) (Z.shiftl (Z.land s1 63) 6))
                   (Z.land s2 63), 3%nat)
          else
            let s3 := at_ s 3 in
            if (s3 <? 128) || (191 <? s3) then (RuneError, 1%nat)
            else
              (Z.lor (Z.lor (Z.lor (Z.shiftl (Z.land s0 7) 18) (Z.shiftl (Z.land s1 63) 12))
                            (Z.shiftl (Z.land s2 63) 6))
                     (Z.land s3 63), 4%nat).

End utf8.

(** ** The type float64

    IEEE binary64 after the specification of the standard library's
    [SpecFloat]: every operation is the correctly rounded one (to nearest,
    ties to even).  A [spec_float] is a [float64] when it is [valid]. *)

Module f64.

Definition float64 : Type := spec_float.
Definition prec : Z := 53.
Definition emax : Z := 1024.

Definition valid (v : float64) : bool := valid_binary prec emax v.

Definition zero : float64 := S754_zero false.
Definition eqb (x y : float64) : bool := SFeqb x y.
Definition ltb (x y : float64) : bool := SFltb x y.
Definition neg (x : float64) : float64 := SFopp x.
Definition add (x y : float64) : float64 := SFadd prec emax x y.
Definition sub (x y : float64) : float64 := SFsub prec emax x y.
Definition mul (x y : float64) : float64 := SFmul prec emax x y.
Definition div (x y : float64) : float64 := SFdiv prec emax x y.

(** The conversion [float64(z)] of an integer. *)
Definition of_int (z : Z) : float64 := binary_normalize prec emax z 0 false.

(** The integer a finite float truncates to (towards zero). *)
Definition truncZ (v : float64) : Z :=
  match v with
  | S754_finite s m e =>
      cond_Zopp s (if 0 <=? e then Z.pos m * 2 ^ e else Z.shiftr (Z.pos m) (- e))
  | _ => 0
  end.

(** The conversion [int64(v)].  It truncates towards zero; when the result
    does not fit, Go leaves it to the implementation: this is the amd64
    one, which yields the minimum [int64]. *)
Definition to_int64 (v : float64) : Z :=
  match v with
  | S754_zero _ => 0
  | S754_finite _ _ _ =>
      let z := truncZ v in
      if (int64_min <=? z) && (z <=? int64_max) then z else int64_min
  | _ => int64_min
  end.

(** The float a decimal literal [n / 10^k] denotes. *)
Definition of_decimal (n : Z) (k : Z) : float64 := div (of_int n) (of_int (10 ^ k)).

End f64.

(** ** Package math (Go standard library, from its documentation) *)

Module math.
Import f64.

Definition IsNaN (v : float64) : bool :=
  match v with S754_nan => true | _ => false end.

(** [IsInf(v, sign)]: [v] is an infinity of the sign of [sign]; either one
    when [sign] is 0. *)
Definition IsInf (v : float64) (sign : Z) : bool :=
  match v with
  | S754_infinity s => ((0 <=? sign) && negb s) || ((sign <=? 0) && s)
  | _ => false
  end.

(** [Trunc(v)]: the integer value of [v]; zeros, infinities and NaN are
    returned as they are, and the sign is kept. *)
Definition Trunc (v : float64) : float64 :=
  match v with
  | S754_finite s m e =>
      if 0 <=? e then v
      else binary_normalize prec emax (cond_Zopp s (Z.shiftr (Z.pos m) (- e))) 0 s
  | _ => v
  end.

(** [Round(v)]: the nearest integer, halves away from zero. *)
Definition Round (v : float64) : float64 :=
  match v with
  | S754_finite s m e =>
      if 0 <=? e then v
      else
        let q := Z.shiftr (Z.pos m) (- e) in
        let r := Z.pos m - Z.shiftl q (- e) in
        let q' := if 2 ^ (- e) <=? 2 * r then q + 1 else q in
        binary_normalize prec emax (cond_Zopp s q') 0 s
  | _ => v
  end.

Definition sign_bit (s : bool) : Z := if s then 2 ^ 63 else 0.

(** [Float64bits]: the IEEE 754 bit pattern, as a [uint64].  NaN payloads
    are not represented; every NaN has the bits of [math.NaN()]. *)
Definition Float64bits (v : float64) : Z :=
  match v with
  | S754_zero s => sign_bit s
  | S754_infinity s => sign_bit s + 2047 * 2 ^ 52
  | S754_nan => 9221120237041090561
  | S754_finite s m e =>
      if Z.pos m <? 2 ^ 52 then sign_bit s + Z.pos m
      else sign_bit s + (e + 1075) * 2 ^ 52 + (Z.pos m - 2 ^ 52)
  end.

Definition Float64frombits (b : Z) : float64 :=
  let s := Z.testbit b 63 in
  let e := Z.land (Z.shiftr b 52) 2047 in
  let m := Z.land b (2 ^ 52 - 1) in
  if e =? 0 then
    if m =? 0 then S754_zero s else S754_finite s (Z.to_pos m) (-1074)
  else if e =? 2047 then
    if m =? 0 then S754_infinity s else S754_nan
  else S754_finite s (Z.to_pos (m + 2 ^ 52)) (e - 1075).

End math.

(** ** Package time (Go standard library, from its documentation) *)

Module time.
Import f64.

(** A location gives the offset east of UTC, in seconds, in force at an
    instant (in seconds since the Unix epoch). *)
Definition Location : Type := Z -> Z.

Definition UTC : Location := λ _, 0.

(** A [Time]: seconds since the Unix epoch, nanoseconds within the second
    (in [0, 1e9)), and the location it is presented in. *)
Record Time : Type := mkTime { sec : Z; nsec : Z; loc : Location }.

(** [time.Unix(sec, nsec)]: the local time of that instant. *)
Definition Unix (Local : Location) (sec nsec : Z) : Time :=
  if (nsec <? 0) || (1000000000 <=? nsec) then
    let n := Z.quot nsec 1000000000 in
    let sec := sec + n in
    let nsec := nsec - n * 1000000000 in
    if nsec <? 0 then mkTime (sec - 1) (nsec + 1000000000) Local
    else mkTime sec nsec Local
  else mkTime sec nsec Local.

(** [time.Now()], for a reading [(sec, nsec)] of the wall clock. *)
Definition Now (Local : Location) (clock : Z * Z) : Time :=
  mkTime (fst clock) (snd clock) Local.

Definition In (t : Time) (l : Location) : Time := mkTime (sec t) (nsec t) l.

Definition UnixNano (t : Time) : Z := wrap64 (sec t * 1000000000 + nsec t).

(** [Duration.Seconds()], a duration being a count of nanoseconds. *)
Definition Seconds (d : Z) : float64 :=
  let s := Z.quot d 1000000000 in
  let ns := Z.rem d 1000000000 in
  add (of_int s) (div (of_int ns) (of_int 1000000000)).

(** [appendInt(b, x, width)]: [x] in decimal, padded with zeros to
    [width] digits, after a ['-'] when negative. *)
Definition appendInt (b : list byte) (x : Z) (width : nat) : list byte :=
  let ds := decimal (Z.abs x) in
  (if x <? 0 then b ++ [x2d] else b) ++ replicate (width - length ds) x30 ++ ds.

Fixpoint trimZeros (rev_digits : list byte) : list byte :=
  match rev_digits with
  | x30 :: r => trimZeros r
  | _ => rev_digits
  end.

(** [appendNano] for the layout [.999999999]: nothing for a zero
    fraction, else a dot and the nine digits without their trailing
    zeros. *)
Definition appendNano (b : list byte) (nanosec : Z) : list byte :=
  if nanosec =? 0 then b
  else b ++ [x2e] ++ rev (trimZeros (rev (appendInt [] nanosec 9))).

(** The date of a day counted from 1970-01-01, in the proleptic Gregorian
    calendar. *)
Definition civil (days : Z) : Z * Z * Z :=
  let z := days + 719468 in
  let era := z / 146097 in
  let doe := z - era * 146097 in
  let yoe := (doe - doe / 1460 + doe / 36524 - doe / 146096) / 365 in
  let y := yoe + era * 400 in
  let doy := doe - (365 * yoe + yoe / 4 - yoe / 100) in
  let mp := (5 * doy + 2) / 153 in
  let d := doy - (153 * mp + 2) / 5 + 1 in
  let m := if mp <? 10 then mp + 3 else mp - 9 in
  (if m <=? 2 then y + 1 else y, m, d).

(** [t.AppendFormat(b, time.RFC3339Nano)]. *)
Definition AppendFormat_RFC3339Nano (t : Time) (b : list byte) : list byte :=
  let offset := loc t (sec t) in
  let abs := sec t + offset in
  let '(year, month, day) := civil (abs / 86400) in
  let clock := abs mod 86400 in
  let b := appendInt b year 4 in
  let b := b ++ [x2d] in
  let b := appendInt b month 2 in
  let b := b ++ [x2d] in
  let b := appendInt b day 2 in
  let b := b ++ [x54] in
  let b := appendInt b (clock / 3600) 2 in
  let b := b ++ [x3a] in
  let b := appendInt b (clock mod 3600 / 60) 2 in
  let b := b ++ [x3a] in
  let b := appendInt b (clock mod 60) 2 in
  let b := appendNano b (nsec t) in
  if offset =? 0 then b ++ [x5a]
  else
    let zone := Z.quot offset 60 in
    let b := if zone <? 0 then b ++ [x2d] else b ++ [x2b] in
    let zone := Z.abs zone in
    let b := appendInt b (Z.quot zone 60) 2 in
    let b := b ++ [x3a] in
    appendInt b (Z.rem zone 60) 2.

End time.

(** ** Package mach

    The code of the repository.  Methods are named after their receiver
    ([Logger_With] for [(l *Logger) With]). *)

Module mach.

(** *** appendInt64 (level.go) *)

(** The digit loop
    [for v > 0 { i--; buf[i] = byte(v%10) + '0'; v /= 10 }]
    over [var buf [20]byte], started at [i = len(buf)].  The index [i]
    decreases at every turn; a turn at [i = 0] would index out of the array
    and is not taken. *)
Fixpoint digitLoop (i : nat) (v : Z) (buf : list byte) : nat * list byte :=
  if 0 <? v then
    match i with
    | O => (i, buf)
    | S i' => digitLoop i' (Z.quot v 10) (<[i' := byte_of_Z (Z.rem v 10 + 48)]> buf)
    end
  else (i, buf).

Definition appendInt64 (dst : list byte) (v : Z) : list byte :=
  if v =? 0 then dst ++ [x30]
  else
    (* what follows the [if v < 0] block *)
    let digits (dst : list byte) (v : Z) : list byte :=
      let '(i, buf) := digitLoop 20 v (replicate 20 x00) in
      dst ++ drop i buf in
    if v <? 0 then
      let dst := dst ++ [x2d] in
      if v =? int64_min then dst ++ bytes "9223372036854775808"
      else digits dst (wrap64 (- v))
    else digits dst v.

(** *** String escaping (level.go) *)

(** [safeSet]: filled by [init] for 0x20..0x7E, then cleared at the quote
    and the backslash. *)
Definition safeSet (b : byte) : bool :=
  let c := Z_of_byte b in
  (32 <=? c) && (c <=? 126) && negb (c =? 34) && negb (c =? 92).

Definition hexDigit (b : Z) : byte :=
  if b <? 10 then byte_of_Z (48 + b) else byte_of_Z (97 + b - 10).

(** The inner loop [for i < len(s) && safeSet[s[i]] { i++ }]: from the
    unread suffix [s[start:]] to the run [s[start:i]] and the suffix
    [s[i:]]. *)
Fixpoint scanSafe (s : list byte) : list byte * list byte :=
  match s with
  | b :: s' =>
      if safeSet b then let '(run, rest) := scanSafe s' in (b :: run, rest)
      else ([], s)
  | [] => ([], [])
  end.

(** The [switch b] of the slow path, for a byte below [utf8.RuneSelf]. *)
Definition escapeByte (b : byte) : list byte :=
  let c := Z_of_byte b in
  if c =? 34 then [x5c; x22]
  else if c =? 92 then [x5c; x5c]
  else if c =? 10 then [x5c; x6e]
  else if c =? 13 then [x5c; x72]
  else if c =? 9 then [x5c; x74]
  else [x5c; x75; x30; x30; hexDigit (Z.shiftr c 4); hexDigit (Z.land c 15)].

(** The outer loop, on the unread suffix [s[i:]].  Every turn that does not
    leave the loop reads at least one byte, so [length s] turns are enough;
    [fuel] counts them. *)
Fixpoint escapeLoop (fuel : nat) (dst s : list byte) : list byte :=
  match fuel with
  | O => dst
  | S fuel' =>
      match s with
      | [] => dst
      | _ :: _ =>
          let '(run, rest) := scanSafe s in
          let dst := if (0 <? length run)%nat then dst ++ run else dst in
          match rest with
          | [] => dst
          | b :: rest' =>
              if utf8.RuneSelf <=? Z_of_byte b then
                let '(r, size) := utf8.DecodeRuneInString rest in
                let dst :=
                  if (r =? utf8.RuneError) && (size =? 1)%nat
                  then dst ++ [x5c; x75; x66; x66; x66; x64]
                  else dst ++ take size rest in
                escapeLoop fuel' dst (drop size rest)
              else escapeLoop fuel' (dst ++ escapeByte b) rest'
          end
      end
  end.

Definition appendEscapedString (dst s : list byte) : list byte :=
  escapeLoop (length s) dst s.

Definition appendJSONString (dst s : list byte) : list byte :=
  let dst := dst ++ [x22] in
  let dst := appendEscapedString dst s in
  dst ++ [x22].

Definition appendKey (dst key : list byte) : list byte :=
  let dst := dst ++ [x22] in
  let dst := appendEscapedString dst key in
  dst ++ [x22; x3a].

Definition appendBool (dst : list byte) (v : bool) : list byte :=
  if v then dst ++ bytes "true" else dst ++ bytes "false".

(** *** appendFloat64 (level.go) *)

(** [for i := 5; i >= 0; i-- { fbuf[i] = byte(fracPart%10) + '0'; fracPart /= 10 }],
    with [n = i + 1]. *)
Fixpoint fracLoop (n : nat) (fracPart : Z) (fbuf : list byte) : list byte :=
  match n with
  | O => fbuf
  | S i => fracLoop i (Z.quot fracPart 10) (<[i := byte_of_Z (Z.rem fracPart 10 + 48)]> fbuf)
  end.

(** [for end > 1 && fbuf[end-1] == '0' { end-- }]. *)
Fixpoint trimLoop (end_ : nat) (fbuf : list byte) : nat :=
  match end_ with
  | O => O
  | S e =>
      if (1 <? end_)%nat && Byte.eqb (nth e fbuf x00) x30 then trimLoop e fbuf
      else end_
  end.

Definition f1e15 : f64.float64 := f64.of_int 1000000000000000.
Definition f1e6 : f64.float64 := f64.of_int 1000000.

Definition appendFloat64 (dst : list byte) (v : f64.float64) : list byte :=
  if math.IsNaN v then dst ++ json "'NaN'"
  else if math.IsInf v 1 then dst ++ json "'+Inf'"
  else if math.IsInf v (-1) then dst ++ json "'-Inf'"
  else if f64.eqb v f64.zero then dst ++ [x30]
  else
    let neg := f64.ltb v f64.zero in
    let v := if neg then f64.neg v else v in
    if f64.eqb v (math.Trunc v) && f64.ltb v f1e15 then
      let dst := if neg then dst ++ [x2d] else dst in
      appendInt64 dst (f64.to_int64 v)
    else
      let dst := if neg then dst ++ [x2d] else dst in
      let intPart := f64.to_int64 v in
      let fracPart :=
        f64.to_int64 (math.Round (f64.mul (f64.sub v (f64.of_int intPart)) f1e6)) in
      let fracPart := if fracPart <? 0 then wrap64 (- fracPart) else fracPart in
      let dst := appendInt64 dst intPart in
      let dst := dst ++ [x2e] in
      let fbuf := fracLoop 6 fracPart (replicate 6 x00) in
      let end_ := trimLoop 6 fbuf in
      dst ++ take end_ fbuf.

Definition appendTime (dst : list byte) (t : time.Time) : list byte :=
  let dst := dst ++ [x22] in
  let dst := time.AppendFormat_RFC3339Nano t dst in
  dst ++ [x22].

Definition appendDuration (dst : list byte) (d : Z) : list byte :=
  appendFloat64 dst (time.Seconds d).

(** *** Fields (field.go) *)

Inductive FieldType : Type :=
  | StringType | IntType | Int64Type | Float64Type | BoolType
  | DurationType | ErrorType | TimeType | BytesType.

Record Field : Type := mkField {
  Key : list byte;
  Type_ : FieldType;
  Ival : Z;
  Str : list byte;
  Bval : list byte
}.

(** A value of the interface [error]: what its method [Error()] returns.
    The nil interface is [None]. *)
Record error : Type := mkError { error_Error : list byte }.

Definition String (key val : list byte) : Field :=
  mkField key StringType 0 val [].

Definition Int (key : list byte) (val : Z) : Field :=
  mkField key IntType val [] [].

Definition Int64 (key : list byte) (val : Z) : Field :=
  mkField key Int64Type val [] [].

Definition Float64 (key : list byte) (val : f64.float64) : Field :=
  mkField key Float64Type (wrap64 (math.Float64bits val)) [] [].

Definition Bool (key : list byte) (val : bool) : Field :=
  let v := if val then 1 else 0 in
  mkField key BoolType v [] [].

Definition Duration (key : list byte) (val : Z) : Field :=
  mkField key DurationType val [] [].

Definition Err (val : option error) : Field :=
  match val with
  | None => mkField (bytes "error") StringType 0 [] []
  | Some e => mkField (bytes "error") ErrorType 0 (error_Error e) []
  end.

Definition Time (key : list byte) (val : time.Time) : Field :=
  mkField key TimeType (time.UnixNano val) [] [].

Definition Bytes (key : list byte) (val : list byte) : Field :=
  mkField key BytesType 0 [] val.

(** *** appendField (level.go) *)

Section WithLocal.

(** The location [time.Local] of the process. *)
Variable Local : time.Location.

Definition appendField (dst : list byte) (f : Field) : list byte :=
  let dst := appendKey dst (Key f) in
  match Type_ f with
  | StringType => appendJSONString dst (Str f)
  | IntType | Int64Type => appendInt64 dst (Ival f)
  | Float64Type => appendFloat64 dst (math.Float64frombits (Ival f mod 2 ^ 64))
  | BoolType => appendBool dst (Ival f =? 1)
  | DurationType => appendDuration dst (Ival f)
  | ErrorType => appendJSONString dst (Str f)
  | TimeType => appendTime dst (time.Unix Local 0 (Ival f))
  | BytesType => appendJSONString dst (Bval f)
  end.

(** *** Levels (level.go) *)

Definition DebugLevel : Z := -1.
Definition InfoLevel : Z := 0.
Definition WarnLevel : Z := 1.
Definition ErrorLevel : Z := 2.
Definition FatalLevel : Z := 3.

Definition wrap32 (z : Z) : Z := (z + 2 ^ 31) mod 2 ^ 32 - 2 ^ 31.

Definition levelNames : list (list byte) :=
  [bytes "DEBUG"; bytes "INFO"; bytes "WARN"; bytes "ERROR"; bytes "FATAL"].

Definition Level_String (l : Z) : list byte :=
  let idx := wrap32 (l + 1) in
  if (0 <=? idx) && (idx <? Z.of_nat (length levelNames))
  then nth (Z.to_nat idx) levelNames []
  else bytes "UNKNOWN".

(** *** The world of a logger

    Pointers are addresses into the stores of a [State]: the loggers, the
    [AtomicLevel] cells and the buffer pools.  What the program does to the
    outside (buffers taken from and returned to a pool, calls of [Write] on
    a sink, the exit of the process) is recorded in [trace], oldest
    first. *)

Inductive Writer : Type :=
  | Discard
  | Stderr
  | Sink (id : nat).

Inductive Event : Type :=
  | EvGet (pool : nat)
  | EvPut (pool : nat)
  | EvWrite (w : Writer) (p : list byte)
  | EvExit (code : Z).

Record PoolConfig : Type := mkPoolConfig {
  PoolSize : Z;
  ShardCount : Z;
  DefaultBufferSize : Z;
  EnableRingBuffer : bool;
  TrackStats : bool
}.

(** Modelled from the spec: the buffer provider [gohotpool.Pool], an
    external collaborator of which only the contract is given ([acquire]
    returns a buffer whose storage may come from a prior release; the
    caller clears a buffer before releasing it).  A pool keeps the buffers
    released to it, with the content they were released with. *)
Record Pool : Type := mkPool {
  poolConfig : PoolConfig;
  idle : list (list byte)
}.

Record Logger : Type := mkLogger {
  output : Writer;
  level : nat;
  pool : nat;
  context : list byte
}.

Record Config : Type := mkConfig {
  Output : option Writer;
  Level : Z;
  PoolConfig_ : option PoolConfig
}.

Record State : Type := mkState {
  loggers : gmap nat Logger;
  levels : gmap nat Z;
  pools : gmap nat Pool;
  trace : list Event
}.

Definition emit (st : State) (e : Event) : State :=
  mkState (loggers st) (levels st) (pools st) (trace st ++ [e]).

(** [pool.Get()]: an idle buffer if there is one, else a new, empty one. *)
Definition Pool_Get (st : State) (p : nat) : option (list byte * State) :=
  pl ← pools st !! p;
  let '(buf, rest) :=
    match idle pl with
    | b :: rest => (b, rest)
    | [] => ([], [])
    end in
  Some (buf, emit (mkState (loggers st) (levels st)
                     (<[p := mkPool (poolConfig pl) rest]> (pools st)) (trace st))
                  (EvGet p)).

(** [pool.Put(buf)]. *)
Definition Pool_Put (st : State) (p : nat) (buf : list byte) : option State :=
  pl ← pools st !! p;
  Some (emit (mkState (loggers st) (levels st)
                (<[p := mkPool (poolConfig pl) (buf :: idle pl)]> (pools st)) (trace st))
             (EvPut p)).

Definition NewPool (st : State) (cfg : PoolConfig) : State * nat :=
  let p := fresh (dom (pools st)) in
  (mkState (loggers st) (levels st) (<[p := mkPool cfg []]> (pools st)) (trace st), p).

(** [buf.Reset()]. *)
Definition Buffer_Reset (buf : list byte) : list byte := [].

(** *** AtomicLevel (level.go) *)

Definition NewAtomicLevel (st : State) (l : Z) : State * nat :=
  let a := fresh (dom (levels st)) in
  (mkState (loggers st) (<[a := l]> (levels st)) (pools st) (trace st), a).

Definition AtomicLevel_Level (st : State) (al : nat) : option Z :=
  levels st !! al.

Definition AtomicLevel_SetLevel (st : State) (al : nat) (l : Z) : option State :=
  _ ← levels st !! al;
  Some (mkState (loggers st) (<[al := l]> (levels st)) (pools st) (trace st)).

Definition AtomicLevel_Enabled (st : State) (al : nat) (l : Z) : option bool :=
  v ← levels st !! al;
  Some (v <=? l).

(** *** Logger (logger.go) *)

Definition SyncWriter (w : Writer) : Writer := w.

Definition defaultPoolConfig : PoolConfig := mkPoolConfig 512 16 1024 false false.

Definition New (st : State) (cfg : Config) : State * nat :=
  let out := match Output cfg with None => SyncWriter Stderr | Some w => w end in
  let '(st, p) :=
    match PoolConfig_ cfg with
    | Some c => NewPool st c
    | None => NewPool st defaultPoolConfig
    end in
  let '(st, al) := NewAtomicLevel st (Level cfg) in
  let l := fresh (dom (loggers st)) in
  (mkState (<[l := mkLogger out al p []]> (loggers st)) (levels st) (pools st) (trace st), l).

Definition Logger_With (st : State) (l : nat) (fields : list Field) : option (State * nat) :=
  if (length fields =? 0)%nat then Some (st, l)
  else
    lg ← loggers st !! l;
    '(buf, st) ← Pool_Get st (pool lg);
    let b := buf in
    let b := foldl (λ b f, appendField (b ++ [x2c]) f) b fields in
    let encoded := b in
    let buf := Buffer_Reset b in
    st ← Pool_Put st (pool lg) buf;
    let ctx :=
      if (0 <? length (context lg))%nat then context lg ++ encoded else encoded in
    let child := mkLogger (output lg) (level lg) (pool lg) ctx in
    let c := fresh (dom (loggers st)) in
    Some (mkState (<[c := child]> (loggers st)) (levels st) (pools st) (trace st), c).

Definition Logger_SetLevel (st : State) (l : nat) (lvl : Z) : option State :=
  lg ← loggers st !! l;
  AtomicLevel_SetLevel st (level lg) lvl.

(** [clock] is the reading of the wall clock that [time.Now()] takes. *)
Definition Logger_log (clock : Z * Z) (st : State) (l : nat) (lvl : Z)
    (msg : list byte) (fields : list Field) : option State :=
  lg ← loggers st !! l;
  '(buf, st) ← Pool_Get st (pool lg);
  let b := buf in
  let b := b ++ json "{'level':'" in
  let b := b ++ Level_String lvl in
  let b := b ++ json "','ts':" in
  let b := appendTime b (time.Now Local clock) in
  let b := b ++ json ",'msg':" in
  let b := appendJSONString b msg in
  let b := if (0 <? length (context lg))%nat then b ++ context lg else b in
  let b := foldl (λ b f, appendField (b ++ [x2c]) f) b fields in
  let b := b ++ [x7d; x0a] in
  let st := emit st (EvWrite (output lg) b) in
  let buf := Buffer_Reset b in
  Pool_Put st (pool lg) buf.

Definition Logger_Debug (clock : Z * Z) (st : State) (l : nat)
    (msg : list byte) (fields : list Field) : option State :=
  lg ← loggers st !! l;
  en ← AtomicLevel_Enabled st (level lg) DebugLevel;
  if negb en then Some st else Logger_log clock st l DebugLevel msg fields.

Definition Logger_Info (clock : Z * Z) (st : State) (l : nat)
    (msg : list byte) (fields : list Field) : option State :=
  lg ← loggers st !! l;
  en ← AtomicLevel_Enabled st (level lg) InfoLevel;
  if negb en then Some st else Logger_log clock st l InfoLevel msg fields.

Definition Logger_Warn (clock : Z * Z) (st : State) (l : nat)
    (msg : list byte) (fields : list Field) : option State :=
  lg ← loggers st !! l;
  en ← AtomicLevel_Enabled st (level lg) WarnLevel;
  if negb en then Some st else Logger_log clock st l WarnLevel msg fields.

Definition Logger_Error (clock : Z * Z) (st : State) (l : nat)
    (msg : list byte) (fields : list Field) : option State :=
  lg ← loggers st !! l;
  en ← AtomicLevel_Enabled st (level lg) ErrorLevel;
  if negb en then Some st else Logger_log clock st l ErrorLevel msg fields.

(** [os.Exit(code)]. *)
Definition os_Exit (st : State) (code : Z) : State := emit st (EvExit code).

Definition Logger_Fatal (clock : Z * Z) (st : State) (l : nat)
    (msg : list byte) (fields : list Field) : option State :=
  st ← Logger_log clock st l FatalLevel msg fields;
  Some (os_Exit st 1).

Definition Nop (st : State) : State * nat :=
  New st (mkConfig (Some Discard) DebugLevel None).

End WithLocal.

End mach.

(** ** Reference notions the properties are stated with *)

Module Spec.
Import mach.

(** *** Well-formed UTF-8 (RFC 3629, section 4) *)

Definition tail_byte (b : byte) : bool :=
  (128 <=? Z_of_byte b) && (Z_of_byte b <=? 191).

Definition between (lo hi : Z) (b : byte) : bool :=
  (lo <=? Z_of_byte b) && (Z_of_byte b <=? hi).

Fixpoint utf8_valid (s : list byte) : bool :=
  match s with
  | [] => true
  | b0 :: s1 =>
      if Z_of_byte b0 <=? 127 then utf8_valid s1
      else
        match s1 with
        | [] => false
        | b1 :: s2 =>
            if between 194 223 b0 then tail_byte b1 && utf8_valid s2
            else
              match s2 with
              | [] => false
              | b2 :: s3 =>
                  if between 224 224 b0 then between 160 191 b1 && tail_byte b2 && utf8_valid s3
                  else if between 225 236 b0 then tail_byte b1 && tail_byte b2 && utf8_valid s3
                  else if between 237 237 b0 then between 128 159 b1 && tail_byte b2 && utf8_valid s3
                  else if between 238 239 b0 then tail_byte b1 && tail_byte b2 && utf8_valid s3
                  else
                    match s3 with
                    | [] => false
                    | b3 :: s4 =>
                        if between 240 240 b0
                        then between 144 191 b1 && tail_byte b2 && tail_byte b3 && utf8_valid s4
                        else if between 241 243 b0
                        then tail_byte b1 && tail_byte b2 && tail_byte b3 && utf8_valid s4
                        else if between 244 244 b0
                        then between 128 143 b1 && tail_byte b2 && tail_byte b3 && utf8_valid s4
                        else false
                    end
              end
        end
  end.

(** One well-formed sequence of two to four bytes (RFC 3629). *)
Definition multibyte (u : list byte) : bool :=
  match u with
  | [b0; b1] => between 194 223 b0 && tail_byte b1
  | [b0; b1; b2] =>
      (between 224 224 b0 && between 160 191 b1 && tail_byte b2)
      || (between 225 236 b0 && tail_byte b1 && tail_byte b2)
      || (between 237 237 b0 && between 128 159 b1 && tail_byte b2)
      || (between 238 239 b0 && tail_byte b1 && tail_byte b2)
  | [b0; b1; b2; b3] =>
      (between 240 240 b0 && between 144 191 b1 && tail_byte b2 && tail_byte b3)
      || (between 241 243 b0 && tail_byte b1 && tail_byte b2 && tail_byte b3)
      || (between 244 244 b0 && between 128 143 b1 && tail_byte b2 && tail_byte b3)
  | _ => false
  end.

(** The UTF-8 encoding of a code point. *)
Definition utf8_encode (cp : Z) : list byte :=
  if cp <? 128 then [byte_of_Z cp]
  else if cp <? 2048 then
    [byte_of_Z (192 + Z.shiftr cp 6); byte_of_Z (128 + Z.land cp 63)]
  else if cp <? 65536 then
    [byte_of_Z (224 + Z.shiftr cp 12); byte_of_Z (128 + Z.land (Z.shiftr cp 6) 63);
     byte_of_Z (128 + Z.land cp 63)]
  else
    [byte_of_Z (240 + Z.shiftr cp 18); byte_of_Z (128 + Z.land (Z.shiftr cp 12) 63);
     byte_of_Z (128 + Z.land (Z.shiftr cp 6) 63); byte_of_Z (128 + Z.land cp 63)].

(** *** A parser of JSON strings (RFC 8259, section 7) *)

Definition hex_value (b : byte) : option Z :=
  let c := Z_of_byte b in
  if (48 <=? c) && (c <=? 57) then Some (c - 48)
  else if (97 <=? c) && (c <=? 102) then Some (c - 87)
  else if (65 <=? c) && (c <=? 70) then Some (c - 55)
  else None.

Definition hex4 (h1 h2 h3 h4 : byte) : option Z :=
  a ← hex_value h1; b ← hex_value h2; c ← hex_value h3; d ← hex_value h4;
  Some (((a * 16 + b) * 16 + c) * 16 + d).

(** The character a two-character escape stands for. *)
Definition simple_escape (e : byte) : option byte :=
  let c := Z_of_byte e in
  if c =? 34 then Some x22
  else if c =? 92 then Some x5c
  else if c =? 47 then Some x2f
  else if c =? 98 then Some x08
  else if c =? 102 then Some x0c
  else if c =? 110 then Some x0a
  else if c =? 114 then Some x0d
  else if c =? 116 then Some x09
  else None.

Definition is_high_surrogate (u : Z) : bool := (55296 <=? u) && (u <=? 56319).
Definition is_low_surrogate (u : Z) : bool := (56320 <=? u) && (u <=? 57343).

(** The characters of a string up to its closing quote, which has to end
    the input.  An escaped surrogate pair is one code point; a surrogate
    without its partner reads as U+FFFD. *)
Fixpoint json_chars (s : list byte) : option (list byte) :=
  match s with
  | [] => None
  | b :: rest =>
      let c := Z_of_byte b in
      if c =? 34 then match rest with [] => Some [] | _ :: _ => None end
      else if c <? 32 then None
      else if negb (c =? 92) then (b ::.) <$> json_chars rest
      else
        match rest with
        | [] => None
        | e :: rest1 =>
            match simple_escape e with
            | Some ch => (ch ::.) <$> json_chars rest1
            | None =>
                if negb (Z_of_byte e =? 117) then None
                else
                  match rest1 with
                  | h1 :: h2 :: h3 :: h4 :: rest2 =>
                      u ← hex4 h1 h2 h3 h4;
                      let single :=
                        let cp := if is_high_surrogate u || is_low_surrogate u
                                  then 65533 else u in
                        (utf8_encode cp ++.) <$> json_chars rest2 in
                      if is_high_surrogate u then
                        match rest2 with
                        | x5c :: x75 :: l1 :: l2 :: l3 :: l4 :: rest3 =>
                            match hex4 l1 l2 l3 l4 with
                            | Some lo =>
                                if is_low_surrogate lo then
                                  (utf8_encode (65536 + (u - 55296) * 1024 + (lo - 56320)) ++.)
                                    <$> json_chars rest3
                                else single
                            | None => None
                            end
                        | _ => single
                        end
                      else single
                  | _ => None
                  end
            end
        end
  end.

Definition json_parse_string (s : list byte) : option (list byte) :=
  match s with
  | x22 :: rest => json_chars rest
  | _ => None
  end.

(** The digits of lowercase hexadecimal. *)
Definition lowerHex (n : Z) : byte := nth (Z.to_nat n) (bytes "0123456789abcdef") x00.

(** *** The record of a log call *)

Section WithLocal.
Variable Local : time.Location.

(** Fields as a log call and [With] encode them: each after a comma. *)
Definition encodeFields (fields : list Field) : list byte :=
  concat ((λ f, x2c :: appendField Local [] f) <$> fields).

(** The record with timestamp [t], context [ctx] (already encoded) and
    per-call fields [fields]. *)
Definition record (lvl : Z) (t : time.Time) (msg ctx : list byte)
    (fields : list Field) : list byte :=
  json "{'level':'" ++ Level_String lvl
  ++ json "','ts':'" ++ time.AppendFormat_RFC3339Nano t []
  ++ json "','msg':'" ++ appendEscapedString [] msg ++ json "'"
  ++ ctx ++ encodeFields fields ++ json "}" ++ [x0a].

(** The four gated methods of a logger. *)
Inductive Method : Type := MDebug | MInfo | MWarn | MError.

Definition levelOf (m : Method) : Z :=
  match m with
  | MDebug => DebugLevel
  | MInfo => InfoLevel
  | MWarn => WarnLevel
  | MError => ErrorLevel
  end.

Definition call (m : Method) :
    Z * Z -> State -> nat -> list byte -> list Field -> option State :=
  match m with
  | MDebug => Logger_Debug Local
  | MInfo => Logger_Info Local
  | MWarn => Logger_Warn Local
  | MError => Logger_Error Local
  end.

End WithLocal.

(** *** Six digits after the point *)

(** A number below a million in exactly six digits. *)
Definition pad6 (n : Z) : list byte :=
  replicate (6 - length (decimal n)) x30 ++ decimal n.

(** Digits without their trailing zeros, the first digit kept in any
    case. *)
Definition trimFrac (ds : list byte) : list byte :=
  match rev (time.trimZeros (rev ds)) with
  | [] => take 1 ds
  | t => t
  end.

(** *** States a program can reach *)

(** Every pool hands out a cleared buffer. *)
Definition ready (st : State) : Prop :=
  forall p pl, pools st !! p = Some pl -> hd [] (idle pl) = [].

(** The pool and the level gate of every logger exist. *)
Definition linked (st : State) : Prop :=
  forall l lg, loggers st !! l = Some lg ->
    is_Some (pools st !! pool lg) /\ is_Some (levels st !! level lg).

Definition sound (st : State) : Prop := ready st /\ linked st.

(** The record as the specification words it: the timestamp is that of the
    same instant, presented in UTC. *)
Definition record_utc (Local : time.Location) (lvl : Z) (t : time.Time)
    (msg ctx : list byte) (fields : list Field) : list byte :=
  record Local lvl (time.In t time.UTC) msg ctx fields.

End Spec.

(** ** Inputs of the examples *)

Module Examples.
Import mach Spec.

(** A process that has created nothing yet. *)
Definition st0 : State := mkState ∅ ∅ ∅ [].

(** A location one hour east of UTC. *)
Definition CET : time.Location := λ _, 3600.

(** 2026-02-17T22:30:00.123456789Z. *)
Definition clock0 : Z * Z := (1771367400, 123456789).

(** A root logger at the Info threshold, writing to sink 0. *)
Definition st1 : State := (New st0 (mkConfig (Some (Sink 0)) InfoLevel None)).1.
Definition root : nat := (New st0 (mkConfig (Some (Sink 0)) InfoLevel None)).2.

Definition started : list Field :=
  [String (bytes "addr") (bytes ":8080"); Int (bytes "workers") 4].

Definition service : list Field := [String (bytes "service") (bytes "api")].

Definition failed : list Field :=
  [Err (Some (mkError (bytes "file does not exist")));
   String (bytes "table") (bytes "users")].

(** After [root.With(service...)], under the location [Local]. *)
Definition st2 (Local : time.Location) : State :=
  match Logger_With Local st1 root service with
  | Some (st, _) => st
  | None => st1
  end.
Definition child (Local : time.Location) : nat :=
  match Logger_With Local st1 root service with
  | Some (_, c) => c
  | None => root
  end.

(** A root logger at the Error threshold. *)
Definition st1e : State := (New st0 (mkConfig (Some (Sink 0)) ErrorLevel None)).1.

(** The float nearest to 1.9999996. *)
Definition f1_9999996 : f64.float64 := f64.of_decimal 19999996 7.

End Examples.

(** ** Auxiliary definitions of the proofs *)

Import mach.

(** A decimal digit in front of a number given by its digits. *)
Definition digit_of (r : N) (d : Decimal.uint) : Decimal.uint :=
  match r with
  | 0 => Decimal.D0 d
  | 1 => Decimal.D1 d
  | 2 => Decimal.D2 d
  | 3 => Decimal.D3 d
  | 4 => Decimal.D4 d
  | 5 => Decimal.D5 d
  | 6 => Decimal.D6 d
  | 7 => Decimal.D7 d
  | 8 => Decimal.D8 d
  | _ => Decimal.D9 d
  end%N.

(** Bytes of a number given by its digits, most significant first. *)
Definition uint_bytes (d : Decimal.uint) : list byte := bytes (NilEmpty.string_of_uint d).

(** The digits of a positive number; nothing for zero. *)
Definition digits_or_nil (v : Z) : list byte := if 0 <? v then decimal v else [].

(** One turn of the slow path of [escapeLoop], at the unread suffix [rest]:
    the buffer and the suffix after it. *)
Definition slowPath (dst rest : list byte) : list byte * list byte :=
  match rest with
  | [] => (dst, [])
  | b :: rest' =>
      if utf8.RuneSelf <=? Z_of_byte b then
        let '(r, size) := utf8.DecodeRuneInString rest in
        ((if (r =? utf8.RuneError) && (size =? 1)%nat
          then dst ++ [x5c; x75; x66; x66; x66; x64]
          else dst ++ take size rest),
         drop size rest)
      else (dst ++ escapeByte b, rest')
  end.

(** The digit of [n] at the power of ten [k]. *)
Definition dg (n k : Z) : byte := byte_of_Z (n / k mod 10 + 48).

(** The [k] low digits of [n]. *)
Fixpoint digs (k : nat) (n : Z) : list byte :=
  match k with
  | O => []
  | S k => digs k (n / 10) ++ [byte_of_Z (n mod 10 + 48)]
  end.

Import Spec.

(** ** Further reference notions *)

(** The encoding of U+FFFD in UTF-8. *)
Definition replacement : list byte := [xef; xbf; xbd].

(** A string with every byte that does not belong to a well-formed
    sequence replaced by U+FFFD, byte by byte. *)
Fixpoint sanitize (s : list byte) : list byte :=
  match s with
  | [] => []
  | b0 :: s1 =>
      if Z_of_byte b0 <=? 127 then b0 :: sanitize s1
      else
        match s1 with
        | [] => replacement
        | b1 :: s2 =>
            if multibyte [b0; b1] then b0 :: b1 :: sanitize s2
            else
              match s2 with
              | [] => replacement ++ sanitize s1
              | b2 :: s3 =>
                  if multibyte [b0; b1; b2] then b0 :: b1 :: b2 :: sanitize s3
                  else
                    match s3 with
                    | [] => replacement ++ sanitize s1
                    | b3 :: s4 =>
                        if multibyte [b0; b1; b2; b3]
                        then b0 :: b1 :: b2 :: b3 :: sanitize s4
                        else replacement ++ sanitize s1
                    end
              end
        end
  end.

(** What the escaper does with the head of its input: the bytes [u] it
    reads, the bytes [e] it writes for them, and the bytes [p] a parser of
    JSON strings reads [e] back as. *)
Inductive piece : list byte -> list byte -> list byte -> Prop :=
  | piece_safe b : safeSet b = true -> piece [b] [b] [b]
  | piece_low b :
      Z_of_byte b < 128 -> safeSet b = false -> piece [b] (escapeByte b) [b]
  | piece_multi u : multibyte u = true -> piece u u u
  | piece_invalid b :
      128 <= Z_of_byte b -> piece [b] [x5c; x75; x66; x66; x66; x64] replacement.

(** A byte that is neither a control character nor DEL. *)
Definition printable (b : byte) : bool :=
  (32 <=? Z_of_byte b) && negb (Z_of_byte b =? 127).

(** *** A parser of JSON integers (RFC 8259, section 6)

    [int = zero / ( digit1-9 *DIGIT )], after an optional minus. *)

Definition digit_value (b : byte) : option Z :=
  let c := Z_of_byte b in
  if (48 <=? c) && (c <=? 57) then Some (c - 48) else None.

Fixpoint parse_digits (acc : Z) (s : list byte) : option Z :=
  match s with
  | [] => Some acc
  | b :: s' => d ← digit_value b; parse_digits (acc * 10 + d) s'
  end.

Definition parse_nat (s : list byte) : option Z :=
  match s with
  | [] => None
  | b :: s' =>
      if Byte.eqb b x30 then match s' with [] => Some 0 | _ :: _ => None end
      else parse_digits 0 s
  end.

Definition json_parse_int (s : list byte) : option Z :=
  match s with
  | [] => None
  | b :: s' => if Byte.eqb b x2d then Z.opp <$> parse_nat s' else parse_nat s
  end.

(** *** Lines of text *)

(** A printable character of ASCII. *)
Definition plain (b : byte) : bool :=
  (32 <=? Z_of_byte b) && (Z_of_byte b <=? 126).

(** Well-formed UTF-8 without control characters: text that fits on one
    line. *)
Definition tidy (s : list byte) : Prop :=
  utf8_valid s = true /\ Forall (λ b, printable b = true) s.

(** A field whose [Ival] is an [int64], as the type of the field has
    it. *)
Definition typed (f : Field) : Prop := int64_range (Ival f).

(** Text of printable ASCII. *)
Definition plain_text (l : list byte) : Prop := Forall (λ b, plain b = true) l.

(** *** Programs

    A program is a sequence of calls of the package.  A logger is named by
    its rank among the loggers the program has made so far ([New], [Nop]
    and [With] each make one); [hs] lists their addresses.  The process
    ends at a call of [Fatal]. *)

Inductive Op : Type :=
  | ONew (cfg : Config)
  | ONop
  | OWith (h : nat) (fields : list Field)
  | OSetLevel (h : nat) (lvl : Z)
  | OCall (m : Method) (h : nat) (clock : Z * Z) (msg : list byte)
      (fields : list Field)
  | OFatal (h : nat) (clock : Z * Z) (msg : list byte) (fields : list Field).

Definition exits (op : Op) : bool :=
  match op with OFatal _ _ _ _ => true | _ => false end.

Definition creates (op : Op) : bool :=
  match op with ONew _ | ONop | OWith _ _ => true | _ => false end.

Definition handle (op : Op) : option nat :=
  match op with
  | OWith h _ | OSetLevel h _ | OCall _ h _ _ _ | OFatal h _ _ _ => Some h
  | ONew _ | ONop => None
  end.

Definition fields_of (op : Op) : list Field :=
  match op with
  | OWith _ fs | OCall _ _ _ _ fs | OFatal _ _ _ fs => fs
  | _ => []
  end.

(** Every logger a program names has been made before. *)
Fixpoint scoped (n : nat) (ops : list Op) : bool :=
  match ops with
  | [] => true
  | op :: ops =>
      match handle op with Some h => (h <? n)%nat | None => true end
      && scoped (if creates op then S n else n) ops
  end.

Definition well_typed (ops : list Op) : Prop :=
  Forall (λ op, Forall typed (fields_of op)) ops.

Section Programs.
Variable Local : time.Location.

Definition step (st : State) (hs : list nat) (op : Op) : option (State * list nat) :=
  match op with
  | ONew cfg => let '(st, l) := New st cfg in Some (st, hs ++ [l])
  | ONop => let '(st, l) := Nop st in Some (st, hs ++ [l])
  | OWith h fields =>
      l ← hs !! h;
      '(st, c) ← Logger_With Local st l fields;
      Some (st, hs ++ [c])
  | OSetLevel h lvl =>
      l ← hs !! h; st ← Logger_SetLevel st l lvl; Some (st, hs)
  | OCall m h clock msg fields =>
      l ← hs !! h; st ← call Local m clock st l msg fields; Some (st, hs)
  | OFatal h clock msg fields =>
      l ← hs !! h; st ← Logger_Fatal Local clock st l msg fields; Some (st, hs)
  end.

Fixpoint run (st : State) (hs : list nat) (ops : list Op) : option (State * list nat) :=
  match ops with
  | [] => Some (st, hs)
  | op :: ops =>
      '(st, hs) ← step st hs op;
      if exits op then Some (st, hs) else run st hs ops
  end.

End Programs.

(** What is passed to a writer is one line. *)
Definition line_event (ev : Event) : Prop :=
  match ev with
  | EvWrite _ p => exists line, p = line ++ [x0a] /\ tidy line
  | _ => True
  end.

(** The states of a program: sound, every context tidy, every logger of
    the program there, and only lines written. *)
Definition program_state (st : State) (hs : list nat) : Prop :=
  sound st
  /\ (forall l lg, loggers st !! l = Some lg -> tidy (context lg))
  /\ Forall (λ l, is_Some (loggers st !! l)) hs
  /\ Forall line_event (trace st).

(** A program: a root logger, a child with a field, calls on both, a
    change of level through the child, and [Fatal]. *)
Definition example_program : list Op :=
  [ONew (mkConfig None InfoLevel None);
   OWith 0 [String (bytes "service") (bytes "api")];
   OCall MInfo 1 (1771367400, 123456789) (bytes "started")
     [Int (bytes "workers") 4; Bool (bytes "tls") true];
   OSetLevel 1 ErrorLevel;
   OCall MWarn 0 (1771367401, 0) [x61; x0a; xff] [];
   OFatal 1 (1771367402, 5000) (bytes "stop") [Err None];
   OCall MError 0 (1771367403, 0) (bytes "never") []].

(** *** Encoder (level.go)

    The buffers of [gohotpool] are at the addresses of a store; an
    [Encoder] holds the address of its buffer, and a method fails (the
    dereference of a nil pointer) where there is no buffer. *)

Record Encoder : Type := mkEncoder { buf : nat }.

Definition NewEncoder (b : nat) : Encoder := mkEncoder b.

Section EncoderMethods.
Variable Local : time.Location.

(** [e.buf.B = f(e.buf.B)]. *)
Definition Encoder_set (f : list byte -> list byte) (bs : gmap nat (list byte))
    (e : Encoder) : option (gmap nat (list byte)) :=
  B ← bs !! buf e; Some (<[buf e := f B]> bs).

Definition Encoder_AppendByte bs e (c : byte) := Encoder_set (λ B, B ++ [c]) bs e.
Definition Encoder_AppendString bs e (s : list byte) := Encoder_set (λ B, B ++ s) bs e.
Definition Encoder_AppendJSONString bs e s := Encoder_set (λ B, appendJSONString B s) bs e.
Definition Encoder_AppendKey bs e key := Encoder_set (λ B, appendKey B key) bs e.
Definition Encoder_AppendInt64 bs e v := Encoder_set (λ B, appendInt64 B v) bs e.
Definition Encoder_AppendFloat64 bs e v := Encoder_set (λ B, appendFloat64 B v) bs e.
Definition Encoder_AppendBool bs e v := Encoder_set (λ B, appendBool B v) bs e.
Definition Encoder_AppendTime bs e t := Encoder_set (λ B, appendTime B t) bs e.
Definition Encoder_AppendDuration bs e d := Encoder_set (λ B, appendDuration B d) bs e.
Definition Encoder_AppendField bs e f := Encoder_set (λ B, appendField Local B f) bs e.

(** A call of a method of an encoder, with its arguments. *)
Inductive EncoderCall : Type :=
  | CByte (c : byte)
  | CString (s : list byte)
  | CJSONString (s : list byte)
  | CKey (key : list byte)
  | CInt64 (v : Z)
  | CFloat64 (v : f64.float64)
  | CBool (v : bool)
  | CTime (t : time.Time)
  | CDuration (d : Z)
  | CField (f : Field).

Definition Encoder_call (bs : gmap nat (list byte)) (e : Encoder) (c : EncoderCall) :
    option (gmap nat (list byte)) :=
  match c with
  | CByte c => Encoder_AppendByte bs e c
  | CString s => Encoder_AppendString bs e s
  | CJSONString s => Encoder_AppendJSONString bs e s
  | CKey key => Encoder_AppendKey bs e key
  | CInt64 v => Encoder_AppendInt64 bs e v
  | CFloat64 v => Encoder_AppendFloat64 bs e v
  | CBool v => Encoder_AppendBool bs e v
  | CTime t => Encoder_AppendTime bs e t
  | CDuration d => Encoder_AppendDuration bs e d
  | CField f => Encoder_AppendField bs e f
  end.

(** Calls in sequence, each through an encoder. *)
Fixpoint Encoder_calls (bs : gmap nat (list byte)) (cs : list (Encoder * EncoderCall)) :
    option (gmap nat (list byte)) :=
  match cs with
  | [] => Some bs
  | (e, c) :: cs => bs ← Encoder_call bs e c; Encoder_calls bs cs
  end.

(** What a call writes: its output on an empty buffer. *)
Definition written (c : EncoderCall) : list byte :=
  match c with
  | CByte c => [c]
  | CString s => s
  | CJSONString s => appendJSONString [] s
  | CKey key => appendKey [] key
  | CInt64 v => appendInt64 [] v
  | CFloat64 v => appendFloat64 [] v
  | CBool v => appendBool [] v
  | CTime t => appendTime [] t
  | CDuration d => appendDuration [] d
  | CField f => appendField Local [] f
  end.

End EncoderMethods.

(** * Properties *)

Import Spec Examples.

(** ** Bytes *)

Lemma Z_of_byte_range b : 0 <= Z_of_byte b < 256.
Proof.
  unfold Z_of_byte. pose proof (Byte.to_N_bounded b) as H.
  lia.
Qed.

Lemma byte_of_Z_of_byte b : byte_of_Z (Z_of_byte b) = b.
Proof.
  unfold byte_of_Z, Z_of_byte.
  pose proof (Byte.to_N_bounded b) as H.
  rewrite Z.mod_small by lia.
  rewrite N2Z.id, Byte.of_to_N. reflexivity.
Qed.

Lemma Z_of_byte_of_Z z : 0 <= z < 256 -> Z_of_byte (byte_of_Z z) = z.
Proof.
  intros Hz. unfold byte_of_Z, Z_of_byte.
  rewrite Z.mod_small by lia.
  destruct (Byte.of_N (Z.to_N z)) as [b|] eqn:E.
  - apply Byte.to_of_N in E. rewrite E. lia.
  - apply Byte.of_N_None_iff in E. lia.
Qed.

Lemma bytes_app s1 s2 : bytes (s1 ++ s2)%string = bytes s1 ++ bytes s2.
Proof.
  unfold bytes. induction s1 as [|a s1 IH]; simpl; [reflexivity|].
  unfold list_byte_of_string in *. simpl. now rewrite IH.
Qed.

(** ** Decimal digits *)

Lemma digit_cases (r : N) :
  (r < 10)%N ->
  (r = 0 \/ r = 1 \/ r = 2 \/ r = 3 \/ r = 4 \/ r = 5 \/ r = 6 \/ r = 7 \/ r = 8 \/ r = 9)%N.
Proof. lia. Qed.

Ltac each_digit r H :=
  apply digit_cases in H;
  destruct H as [-> | [-> | [-> | [-> | [-> | [-> | [-> | [-> | [-> | ->]]]]]]]]].

Lemma of_lu_digit_of r d :
  (r < 10)%N -> Unsigned.of_lu (digit_of r d) = (r + 10 * Unsigned.of_lu d)%N.
Proof. intros Hr. each_digit r Hr; reflexivity. Qed.

Lemma of_lu_to_lu n : Unsigned.of_lu (Unsigned.to_lu n) = n.
Proof.
  destruct n as [|p]; [reflexivity|].
  simpl. rewrite <- Unsigned.of_lu_rev. apply Unsigned.of_to.
Qed.

Lemma lnorm_to_lu n : DecimalFacts.lnorm (Unsigned.to_lu n) = Unsigned.to_lu n.
Proof.
  rewrite <- (of_lu_to_lu n) at 2. now rewrite Unsigned.to_of_lu.
Qed.

Lemma nztail_to_lu_pos n :
  (0 < n)%N -> DecimalFacts.nztail (Unsigned.to_lu n) = Unsigned.to_lu n.
Proof.
  intros Hn. pose proof (lnorm_to_lu n) as H. unfold DecimalFacts.lnorm in H.
  destruct (DecimalFacts.nztail (Unsigned.to_lu n)) eqn:E; try exact H.
  apply Unsigned.of_lu_0 in E. rewrite of_lu_to_lu in E. lia.
Qed.

(** The little-endian digits of [r + 10 q]: the digit [r], then those of
    [q]. *)
Lemma to_lu_step q r :
  (0 < q)%N -> (r < 10)%N ->
  Unsigned.to_lu (r + 10 * q) = digit_of r (Unsigned.to_lu q).
Proof.
  intros Hq Hr.
  rewrite <- (of_lu_to_lu q) at 1.
  rewrite <- of_lu_digit_of by assumption.
  rewrite Unsigned.to_of_lu. unfold DecimalFacts.lnorm.
  pose proof (nztail_to_lu_pos q Hq) as Hn.
  assert (Hne : Unsigned.to_lu q <> Decimal.Nil).
  { intros E. pose proof (of_lu_to_lu q) as H. rewrite E in H. simpl in H. lia. }
  each_digit r Hr; simpl; rewrite Hn; destruct (Unsigned.to_lu q); congruence.
Qed.

Lemma to_lu_small r : (r < 10)%N -> Unsigned.to_lu r = digit_of r Decimal.Nil.
Proof. intros Hr. each_digit r Hr; reflexivity. Qed.

Lemma uint_bytes_revapp d d' :
  uint_bytes (Decimal.revapp d d') = uint_bytes (Decimal.rev d) ++ uint_bytes d'.
Proof.
  unfold Decimal.rev. revert d'.
  induction d; intros d'; simpl; [reflexivity|..];
    rewrite IHd; symmetry; rewrite IHd; rewrite <- app_assoc; reflexivity.
Qed.

Lemma uint_bytes_digit_of r d :
  (r < 10)%N ->
  uint_bytes (Decimal.rev (digit_of r d)) = uint_bytes (Decimal.rev d) ++ [byte_of_Z (Z.of_N r + 48)].
Proof.
  intros Hr.
  each_digit r Hr; unfold Decimal.rev; simpl; rewrite uint_bytes_revapp; reflexivity.
Qed.

Lemma NilZero_string_of_uint d :
  d <> Decimal.Nil -> NilZero.string_of_uint d = NilEmpty.string_of_uint d.
Proof. intros H. destruct d; [congruence | reflexivity..]. Qed.

Lemma decimal_pos v :
  0 < v -> decimal v = uint_bytes (Decimal.rev (Unsigned.to_lu (Z.to_N v))).
Proof.
  intros Hv. destruct v as [|p|p]; try lia.
  unfold decimal, uint_bytes. simpl.
  unfold NilZero.string_of_int. simpl. unfold Pos.to_uint.
  rewrite NilZero_string_of_uint; [reflexivity|].
  apply (Unsigned.to_uint_nonnil p).
Qed.

(** The decimal representation, digit by digit from the right. *)
Lemma decimal_step v :
  0 < v ->
  decimal v = (if v <? 10 then [] else decimal (v / 10)) ++ [byte_of_Z (v mod 10 + 48)].
Proof.
  intros Hv. rewrite decimal_pos by assumption.
  destruct (Z.ltb_spec v 10) as [Hlt|Hge].
  - rewrite to_lu_small by lia. rewrite uint_bytes_digit_of by lia.
    rewrite Z2N.id by lia. rewrite Z.mod_small by lia. reflexivity.
  - assert (Hq : 0 < v / 10) by (apply Z.div_str_pos; lia).
    rewrite (decimal_pos (v / 10)) by assumption.
    pose proof (Z.mod_pos_bound v 10 ltac:(lia)) as Hm.
    replace (Z.to_N v) with (Z.to_N (v mod 10) + 10 * Z.to_N (v / 10))%N
      by (rewrite (Z.div_mod v 10) at 3 by lia; lia).
    rewrite to_lu_step by lia. rewrite uint_bytes_digit_of by lia.
    rewrite Z2N.id by lia. reflexivity.
Qed.

Lemma decimal_neg v : v < 0 -> decimal v = x2d :: decimal (- v).
Proof.
  intros Hv. destruct v as [|p|p]; try lia.
  unfold decimal. simpl. unfold NilZero.string_of_int. simpl.
  rewrite !NilZero_string_of_uint by apply (Unsigned.to_uint_nonnil p).
  reflexivity.
Qed.

(** ** appendInt64 *)

Lemma digitLoop_spec i : forall v buf i' buf',
  0 <= v < 10 ^ Z.of_nat i -> (i <= length buf)%nat ->
  digitLoop i v buf = (i', buf') ->
  drop i' buf' = digits_or_nil v ++ drop i buf.
Proof.
  induction i as [|i IH]; intros v buf i' buf' Hv Hlen Hloop.
  - simpl in Hloop. assert (v = 0) by (simpl in Hv; lia). subst v.
    simpl in Hloop. injection Hloop as <- <-. reflexivity.
  - simpl in Hloop. unfold digits_or_nil.
    destruct (Z.ltb_spec 0 v) as [Hpos|Hz].
    + rewrite Z.quot_div_nonneg, Z.rem_mod_nonneg in Hloop by lia.
      apply IH in Hloop.
      * rewrite Hloop. rewrite (decimal_step v) by assumption.
        unfold digits_or_nil.
        rewrite (drop_S (<[i:=_]> buf) (byte_of_Z (v mod 10 + 48)) i)
          by (apply list_lookup_insert_eq; lia).
        rewrite drop_insert_lt by lia.
        destruct (Z.ltb_spec v 10); destruct (Z.ltb_spec 0 (v / 10)).
        -- rewrite Z.div_small in * by lia. lia.
        -- reflexivity.
        -- rewrite <- app_assoc. reflexivity.
        -- assert (0 < v / 10) by (apply Z.div_str_pos; lia). lia.
      * split; [apply Z.div_pos; lia|].
        apply Z.div_lt_upper_bound; [lia|].
        rewrite Nat2Z.inj_succ, Z.pow_succ_r in Hv by lia. lia.
      * rewrite length_insert. lia.
    + injection Hloop as <- <-. reflexivity.
Qed.

Lemma appendInt64_decimal dst v :
  int64_range v -> appendInt64 dst v = dst ++ decimal v.
Proof.
  unfold int64_range, int64_min, int64_max. intros Hv.
  unfold appendInt64.
  destruct (Z.eqb_spec v 0) as [->|Hnz]; [reflexivity|].
  assert (H20 : 10 ^ Z.of_nat 20 = 100000000000000000000) by reflexivity.
  assert (Hrep : (20 <= length (replicate 20 x00))%nat) by (rewrite length_replicate; lia).
  assert (Hdrop : drop 20 (replicate 20 x00) = []) by reflexivity.
  cbv zeta.
  destruct (Z.ltb_spec v 0) as [Hneg|Hpos].
  - destruct (Z.eqb_spec v int64_min) as [->|Hmin].
    + rewrite <- app_assoc. reflexivity.
    + unfold int64_min in Hmin.
      assert (Hw : wrap64 (- v) = - v).
      { unfold wrap64. rewrite Z.mod_small; lia. }
      rewrite Hw.
      destruct (digitLoop 20 (- v) (replicate 20 x00)) as [i buf] eqn:E.
      apply digitLoop_spec in E; [|lia|exact Hrep].
      rewrite E, Hdrop. unfold digits_or_nil.
      destruct (Z.ltb_spec 0 (- v)); [|lia].
      rewrite (decimal_neg v) by lia.
      rewrite app_nil_r, <- app_assoc. reflexivity.
  - destruct (digitLoop 20 v (replicate 20 x00)) as [i buf] eqn:E.
    apply digitLoop_spec in E; [|lia|exact Hrep].
    rewrite E, Hdrop. unfold digits_or_nil.
    destruct (Z.ltb_spec 0 v); [|lia].
    rewrite app_nil_r. reflexivity.
Qed.

(** ** String escaping *)

(** Decides the comparisons on integers that occur in the goal. *)
Ltac zcases :=
  repeat match goal with
  | |- context [?a <? ?b] => destruct (Z.ltb_spec a b)
  | |- context [?a <=? ?b] => destruct (Z.leb_spec a b)
  | |- context [?a =? ?b] => destruct (Z.eqb_spec a b)
  end.

Lemma first_cases b :
  utf8.first b = 240 \/ utf8.first b = 241 \/ utf8.first b = 2 \/ utf8.first b = 19
  \/ utf8.first b = 3 \/ utf8.first b = 35 \/ utf8.first b = 52 \/ utf8.first b = 4
  \/ utf8.first b = 68.
Proof. unfold utf8.first. zcases; tauto. Qed.

Lemma decode_size s : s <> [] -> (1 <= (utf8.DecodeRuneInString s).2 <= 4)%nat.
Proof.
  intros Hs. unfold utf8.DecodeRuneInString.
  destruct s as [|b s]; [congruence|]. cbn [length].
  replace (S (length s) <? 1)%nat with false by (symmetry; apply Nat.ltb_ge; lia).
  cbn [nth].
  destruct (first_cases b) as [H|[H|[H|[H|[H|[H|[H|[H|H]]]]]]]]; rewrite H;
    destruct (utf8.acceptRanges _) as [lo hi];
    repeat match goal with
    | |- context [if ?c then _ else _] => destruct c
    end; cbn; lia.
Qed.

Lemma scanSafe_app s : forall run rest, scanSafe s = (run, rest) -> s = run ++ rest.
Proof.
  induction s as [|b s IH]; intros run rest H; simpl in H.
  - injection H as <- <-. reflexivity.
  - destruct (safeSet b).
    + destruct (scanSafe s) as [run' rest']. injection H as <- <-.
      simpl. f_equal. now apply IH.
    + injection H as <- <-. reflexivity.
Qed.

Lemma scanSafe_run s : forall run rest,
  scanSafe s = (run, rest) -> Forall (λ b, safeSet b = true) run.
Proof.
  induction s as [|b s IH]; intros run rest H; simpl in H.
  - injection H as <- <-. constructor.
  - destruct (safeSet b) eqn:Hb.
    + destruct (scanSafe s) as [run' rest']. injection H as <- <-.
      constructor; [assumption|]. eapply IH; reflexivity.
    + injection H as <- <-. constructor.
Qed.

Lemma scanSafe_rest s : forall run rest b rest',
  scanSafe s = (run, rest) -> rest = b :: rest' -> safeSet b = false.
Proof.
  induction s as [|b0 s IH]; intros run rest b rest' H Hr; simpl in H.
  - injection H as <- <-. discriminate.
  - destruct (safeSet b0) eqn:Hb.
    + destruct (scanSafe s) as [run' rest'']. injection H as <- <-.
      eapply IH; [reflexivity|eassumption].
    + injection H as <- <-. injection Hr as <- <-. assumption.
Qed.

Lemma scanSafe_length s run rest :
  scanSafe s = (run, rest) -> (length rest <= length s)%nat.
Proof.
  intros H. apply scanSafe_app in H. subst s. rewrite length_app. lia.
Qed.

Lemma slowPath_length dst b rest :
  (length (slowPath dst (b :: rest)).2 <= length rest)%nat.
Proof.
  unfold slowPath.
  destruct (utf8.RuneSelf <=? Z_of_byte b); [|simpl; lia].
  pose proof (decode_size (b :: rest) ltac:(discriminate)) as Hd.
  destruct (utf8.DecodeRuneInString (b :: rest)) as [r size].
  cbn [snd] in *. rewrite length_drop. cbn [length]. lia.
Qed.

Lemma slowPath_dst dst rest :
  slowPath dst rest = (dst ++ (slowPath [] rest).1, (slowPath [] rest).2).
Proof.
  unfold slowPath. destruct rest as [|b rest]; [now rewrite app_nil_r|].
  destruct (utf8.RuneSelf <=? Z_of_byte b); [|reflexivity].
  destruct (utf8.DecodeRuneInString (b :: rest)) as [r size].
  destruct ((r =? utf8.RuneError) && (size =? 1)%nat); reflexivity.
Qed.

Lemma escapeLoop_S n dst b0 s :
  escapeLoop (S n) dst (b0 :: s) =
  let '(run, rest) := scanSafe (b0 :: s) in
  match rest with
  | [] => dst ++ run
  | _ :: _ => let '(d, r) := slowPath (dst ++ run) rest in escapeLoop n d r
  end.
Proof.
  cbn [escapeLoop]. destruct (scanSafe (b0 :: s)) as [run rest].
  assert (Hd : (if (0 <? length run)%nat then dst ++ run else dst) = dst ++ run).
  { destruct run; simpl; [now rewrite app_nil_r|reflexivity]. }
  rewrite Hd. destruct rest as [|b rest]; [reflexivity|].
  unfold slowPath.
  destruct (utf8.RuneSelf <=? Z_of_byte b); [|reflexivity].
  destruct (utf8.DecodeRuneInString (b :: rest)) as [r size].
  destruct ((r =? utf8.RuneError) && (size =? 1)%nat); reflexivity.
Qed.

(** The loop does not depend on the fuel, once there is a unit of it for
    every byte. *)
Lemma escapeLoop_fuel n : forall m dst s,
  (length s <= n)%nat -> (length s <= m)%nat ->
  escapeLoop n dst s = escapeLoop m dst s.
Proof.
  induction n as [|n IH]; intros m dst s Hn Hm.
  - destruct s; [|simpl in Hn; lia]. destruct m; reflexivity.
  - destruct s as [|b0 s]; [destruct m; reflexivity|].
    destruct m as [|m]; [simpl in Hm; lia|].
    rewrite !escapeLoop_S.
    destruct (scanSafe (b0 :: s)) as [run rest] eqn:E.
    apply scanSafe_length in E.
    destruct rest as [|b rest]; [reflexivity|].
    pose proof (slowPath_length (dst ++ run) b rest) as Hl.
    destruct (slowPath (dst ++ run) (b :: rest)) as [d r].
    cbn [snd length] in *. apply IH; lia.
Qed.

Lemma appendEscapedString_nil dst : appendEscapedString dst [] = dst.
Proof. reflexivity. Qed.

(** The two phases of [appendEscapedString]: the run of safe bytes at the
    head of the input is copied, then one turn of the slow path is taken,
    and so on with what is left. *)
Lemma appendEscapedString_step dst s :
  s <> [] ->
  appendEscapedString dst s =
  let '(run, rest) := scanSafe s in
  match rest with
  | [] => dst ++ run
  | _ :: _ => let '(d, r) := slowPath (dst ++ run) rest in appendEscapedString d r
  end.
Proof.
  intros Hs. destruct s as [|b0 s]; [congruence|].
  unfold appendEscapedString. cbn [length]. rewrite escapeLoop_S.
  destruct (scanSafe (b0 :: s)) as [run rest] eqn:E.
  apply scanSafe_length in E.
  destruct rest as [|b rest]; [reflexivity|].
  pose proof (slowPath_length (dst ++ run) b rest) as Hl.
  destruct (slowPath (dst ++ run) (b :: rest)) as [d r].
  cbn [snd length] in *. apply escapeLoop_fuel; lia.
Qed.

Lemma appendEscapedString_slow dst b t :
  safeSet b = false ->
  appendEscapedString dst (b :: t) =
  let '(d, r) := slowPath dst (b :: t) in appendEscapedString d r.
Proof.
  intros Hb. rewrite appendEscapedString_step by discriminate.
  cbn [scanSafe]. rewrite Hb. rewrite app_nil_r. reflexivity.
Qed.

Lemma appendEscapedString_safe dst b t :
  safeSet b = true ->
  appendEscapedString dst (b :: t) = appendEscapedString (dst ++ [b]) t.
Proof.
  intros Hb. rewrite appendEscapedString_step by discriminate.
  cbn [scanSafe]. rewrite Hb.
  destruct t as [|b1 t].
  - reflexivity.
  - rewrite (appendEscapedString_step (dst ++ [b])) by discriminate.
    destruct (scanSafe (b1 :: t)) as [run rest].
    rewrite <- !app_assoc. reflexivity.
Qed.

(** The escaper only appends. *)
Lemma appendEscapedString_dst s : forall dst,
  appendEscapedString dst s = dst ++ appendEscapedString [] s.
Proof.
  induction s as [s IH] using (induction_ltof1 _ (@length byte)).
  unfold ltof in IH. intros dst.
  destruct s as [|b0 s]; [now rewrite !appendEscapedString_nil, app_nil_r|].
  rewrite !(appendEscapedString_step _ (b0 :: s)) by discriminate.
  destruct (scanSafe (b0 :: s)) as [run rest] eqn:E.
  apply scanSafe_length in E.
  destruct rest as [|b rest]; [reflexivity|].
  rewrite (slowPath_dst (dst ++ run)), (slowPath_dst ([] ++ run)).
  pose proof (slowPath_length [] b rest) as Hl.
  destruct (slowPath [] (b :: rest)) as [d r]. cbn [fst snd length] in *.
  rewrite (IH r) by lia. symmetry. rewrite (IH r) by lia.
  rewrite <- !app_assoc. reflexivity.
Qed.

(** ** Decoding well-formed sequences *)

(** Turns the boolean tests on bytes of the context into inequalities. *)
Ltac zhyps :=
  unfold between, tail_byte in *;
  repeat match goal with
  | H : _ && _ = true |- _ => apply andb_prop in H; destruct H
  | H : _ || _ = true |- _ => apply orb_prop in H; destruct H
  | H : (_ <=? _) = true |- _ => apply Z.leb_le in H
  | H : (_ <? _) = true |- _ => apply Z.ltb_lt in H
  | H : (_ =? _) = true |- _ => apply Z.eqb_eq in H
  | H : (_ <=? _) = false |- _ => apply Z.leb_gt in H
  | H : (_ <? _) = false |- _ => apply Z.ltb_ge in H
  | H : (_ =? _) = false |- _ => apply Z.eqb_neq in H
  end.

Lemma first_of b :
  let c := Z_of_byte b in
  utf8.first b =
    if c <? 128 then 240 else if c <? 194 then 241 else if c <? 224 then 2
    else if c =? 224 then 19 else if c <? 237 then 3 else if c =? 237 then 35
    else if c <? 240 then 3 else if c =? 240 then 52 else if c <? 244 then 4
    else if c =? 244 then 68 else 241.
Proof. reflexivity. Qed.

Ltac first_is b v :=
  assert (utf8.first b = v)
    by (rewrite first_of; cbv zeta; zcases; lia).

Lemma or_ltb_false a lo hi : lo <= a <= hi -> (a <? lo) || (hi <? a) = false.
Proof. intros H. apply orb_false_intro; apply Z.ltb_ge; lia. Qed.

Section DecodeSizes.
Variables (b0 b1 : byte) (x lo hi : Z).
Hypothesis Hx : utf8.first b0 = x.
Hypothesis Hlt : x < 240.
Hypothesis Hacc : utf8.acceptRanges (Z.shiftr x 4) = (lo, hi).
Hypothesis H1 : lo <= Z_of_byte b1 <= hi.

Lemma decode2 t :
  Z.land x 7 = 2 -> (utf8.DecodeRuneInString (b0 :: b1 :: t)).2 = 2%nat.
Proof.
  intros Hsz. unfold utf8.DecodeRuneInString, utf8.at_. cbn [length nth].
  rewrite Hx, Hacc, Hsz. cbv zeta.
  replace (240 <=? x) with false by (symmetry; apply Z.leb_gt; lia).
  rewrite or_ltb_false by assumption. reflexivity.
Qed.

Lemma decode3 b2 t :
  Z.land x 7 = 3 -> 128 <= Z_of_byte b2 <= 191 ->
  (utf8.DecodeRuneInString (b0 :: b1 :: b2 :: t)).2 = 3%nat.
Proof.
  intros Hsz H2. unfold utf8.DecodeRuneInString, utf8.at_. cbn [length nth].
  rewrite Hx, Hacc, Hsz. cbv zeta.
  replace (240 <=? x) with false by (symmetry; apply Z.leb_gt; lia).
  rewrite !or_ltb_false by assumption. reflexivity.
Qed.

Lemma decode4 b2 b3 t :
  Z.land x 7 = 4 -> 128 <= Z_of_byte b2 <= 191 -> 128 <= Z_of_byte b3 <= 191 ->
  (utf8.DecodeRuneInString (b0 :: b1 :: b2 :: b3 :: t)).2 = 4%nat.
Proof.
  intros Hsz H2 H3. unfold utf8.DecodeRuneInString, utf8.at_. cbn [length nth].
  rewrite Hx, Hacc, Hsz. cbv zeta.
  replace (240 <=? x) with false by (symmetry; apply Z.leb_gt; lia).
  rewrite !or_ltb_false by assumption. reflexivity.
Qed.

End DecodeSizes.

(** A well-formed sequence decodes to its own length. *)
Lemma decode_multibyte u t :
  multibyte u = true ->
  (utf8.DecodeRuneInString (u ++ t)).2 = length u.
Proof.
  intros Hu.
  destruct u as [|b0 [|b1 [|b2 [|b3 [|b4 u]]]]]; try discriminate;
    cbn [multibyte] in Hu; zhyps; cbn [app length].
  - first_is b0 2. eapply decode2; eauto; try reflexivity; lia.
  - first_is b0 19. eapply decode3; eauto; try reflexivity; lia.
  - first_is b0 3. eapply decode3; eauto; try reflexivity; lia.
  - first_is b0 35. eapply decode3; eauto; try reflexivity; lia.
  - first_is b0 3. eapply decode3; eauto; try reflexivity; lia.
  - first_is b0 52. eapply decode4; eauto; try reflexivity; lia.
  - first_is b0 4. eapply decode4; eauto; try reflexivity; lia.
  - first_is b0 68. eapply decode4; eauto; try reflexivity; lia.
Qed.

(** Evaluates what the decoder computes from the class of the first byte. *)
Ltac decode_consts :=
  repeat match goal with
  | |- context [utf8.acceptRanges ?i] =>
      let v := eval vm_compute in (utf8.acceptRanges i) in
      change (utf8.acceptRanges i) with v
  | |- context [Z.to_nat ?i] =>
      let v := eval vm_compute in (Z.to_nat i) in
      change (Z.to_nat i) with v
  | |- context [Z.leb 240 ?i] =>
      let v := eval vm_compute in (Z.leb 240 i) in
      change (Z.leb 240 i) with v
  | |- context [Z.testbit ?i 0] =>
      let v := eval vm_compute in (Z.testbit i 0) in
      change (Z.testbit i 0) with v
  end; cbv iota beta.

Lemma decode_size_le s : s <> [] -> ((utf8.DecodeRuneInString s).2 <= length s)%nat.
Proof.
  intros Hs. unfold utf8.DecodeRuneInString.
  destruct s as [|b s]; [congruence|]. cbn [length nth].
  replace (S (length s) <? 1)%nat with false by (symmetry; apply Nat.ltb_ge; lia).
  destruct (first_cases b) as [H|[H|[H|[H|[H|[H|[H|[H|H]]]]]]]]; rewrite H;
    cbv zeta; decode_consts; cbn [Nat.leb];
    repeat match goal with
    | |- context [if (?a <? ?b)%nat then _ else _] => destruct (Nat.ltb_spec a b)
    | |- context [if ?c then _ else _] => destruct c
    end; cbn in *; lia.
Qed.

(** The decoder does not look past a byte of ASCII. *)
Lemma decode_ascii_boundary s b t :
  s <> [] -> Z_of_byte b < 128 ->
  utf8.DecodeRuneInString (s ++ b :: t) = utf8.DecodeRuneInString s.
Proof.
  intros Hs Hb.
  destruct s as [|c0 s]; [congruence|].
  unfold utf8.DecodeRuneInString, utf8.at_.
  destruct (first_cases c0) as [H|[H|[H|[H|[H|[H|[H|[H|H]]]]]]]];
    cbn [app nth]; rewrite H; cbv zeta; decode_consts;
    cbv iota beta;
    destruct s as [|c1 [|c2 [|c3 s]]]; cbn [app length nth Nat.ltb Nat.leb];
    try reflexivity;
    repeat match goal with
    | |- context [Z.ltb ?a ?b] => destruct (Z.ltb_spec a b); try lia
    end; cbn; try reflexivity;
    repeat match goal with
    | |- context [if ?c then _ else _] => destruct c
    end; reflexivity.
Qed.

Lemma slowPath_ascii_boundary dst s b t :
  s <> [] -> Z_of_byte b < 128 ->
  slowPath dst (s ++ b :: t) =
  ((slowPath dst s).1, (slowPath dst s).2 ++ b :: t).
Proof.
  intros Hs Hb. destruct s as [|c s]; [congruence|].
  unfold slowPath. cbn [app].
  destruct (utf8.RuneSelf <=? Z_of_byte c); [|reflexivity].
  change (c :: s ++ b :: t) with ((c :: s) ++ b :: t).
  rewrite decode_ascii_boundary by assumption.
  pose proof (decode_size_le (c :: s) Hs) as Hle.
  destruct (utf8.DecodeRuneInString (c :: s)) as [r size]. cbn [fst snd] in *.
  rewrite take_app_le, drop_app_le by assumption.
  destruct ((r =? utf8.RuneError) && (size =? 1)%nat); reflexivity.
Qed.

(** Escaping a string up to a byte of ASCII does not depend on what
    follows. *)
Lemma appendEscapedString_ascii_boundary s : forall dst b t,
  Z_of_byte b < 128 ->
  appendEscapedString dst (s ++ b :: t) =
  appendEscapedString (appendEscapedString dst s) (b :: t).
Proof.
  induction s as [s IH] using (induction_ltof1 _ (@length byte)).
  unfold ltof in IH. intros dst b t Hb.
  destruct s as [|c s]; [reflexivity|].
  destruct (safeSet c) eqn:Hc.
  - cbn [app].
    rewrite (appendEscapedString_safe dst c (s ++ b :: t)) by assumption.
    rewrite (appendEscapedString_safe dst c s) by assumption.
    apply IH; [simpl; lia|assumption].
  - change ((c :: s) ++ b :: t) with (c :: (s ++ b :: t)).
    rewrite (appendEscapedString_slow dst c (s ++ b :: t)) by assumption.
    rewrite (appendEscapedString_slow dst c s) by assumption.
    change (c :: (s ++ b :: t)) with ((c :: s) ++ b :: t).
    rewrite slowPath_ascii_boundary by (assumption || discriminate).
    pose proof (slowPath_length dst c s) as Hl.
    destruct (slowPath dst (c :: s)) as [d r]. cbn [fst snd] in *.
    apply IH; [simpl; lia|assumption].
Qed.

Lemma scanSafe_of_run run rest :
  Forall (λ b, safeSet b = true) run ->
  match rest with [] => True | b :: _ => safeSet b = false end ->
  scanSafe (run ++ rest) = (run, rest).
Proof.
  intros Hrun Hrest. induction Hrun as [|b run Hb _ IH]; cbn [app].
  - destruct rest as [|b rest]; [reflexivity|]. cbn [scanSafe]. now rewrite Hrest.
  - cbn [scanSafe]. rewrite Hb, IH. reflexivity.
Qed.

Lemma appendEscapedString_run dst run rest :
  Forall (λ b, safeSet b = true) run ->
  match rest with [] => True | b :: _ => safeSet b = false end ->
  appendEscapedString dst (run ++ rest) = appendEscapedString (dst ++ run) rest.
Proof.
  intros Hrun Hrest.
  destruct (run ++ rest) as [|b0 s] eqn:E.
  - apply app_eq_nil in E as [-> ->]. now rewrite app_nil_r.
  - rewrite appendEscapedString_step by discriminate. rewrite <- E.
    rewrite scanSafe_of_run by assumption.
    destruct rest as [|b rest]; [reflexivity|].
    now rewrite (appendEscapedString_slow (dst ++ run)).
Qed.

Lemma safeSet_spec b :
  safeSet b = true <-> 32 <= Z_of_byte b <= 126 /\ b <> x22 /\ b <> x5c.
Proof.
  unfold safeSet. split.
  - intros H. zhyps.
    apply negb_true_iff in H1, H0. zhyps.
    repeat split; try lia; intros ->; compute in *; congruence.
  - intros (Hr & Hq & Hb).
    assert (Z_of_byte b <> 34).
    { intros E. apply Hq. rewrite <- (byte_of_Z_of_byte b), E. reflexivity. }
    assert (Z_of_byte b <> 92).
    { intros E. apply Hb. rewrite <- (byte_of_Z_of_byte b), E. reflexivity. }
    zcases; simpl; try reflexivity; lia.
Qed.

Lemma appendEscapedString_low dst b t :
  Z_of_byte b < 128 -> safeSet b = false ->
  appendEscapedString dst (b :: t) = appendEscapedString (dst ++ escapeByte b) t.
Proof.
  intros Hb Hs. rewrite appendEscapedString_slow by assumption.
  unfold slowPath, utf8.RuneSelf.
  destruct (Z.leb_spec 128 (Z_of_byte b)); [lia|reflexivity].
Qed.

Lemma hexDigit_lower n : 0 <= n < 16 -> hexDigit n = lowerHex n.
Proof.
  intros Hn. rewrite <- (Z2Nat.id n) by lia.
  assert (Hk : (Z.to_nat n < 16)%nat) by lia.
  revert Hk. generalize (Z.to_nat n) as k. intros k Hk.
  do 16 (destruct k as [|k]; [reflexivity|]). lia.
Qed.

Lemma escapeByte_control b :
  Z_of_byte b < 32 -> b <> x0a -> b <> x0d -> b <> x09 ->
  escapeByte b =
  [x5c; x75; x30; x30; lowerHex (Z_of_byte b / 16); lowerHex (Z_of_byte b mod 16)].
Proof.
  intros Hb Hn Hr Ht. unfold escapeByte.
  pose proof (Z_of_byte_range b) as Hrange.
  assert (forall c, b <> byte_of_Z c -> Z_of_byte b <> c) as Hne.
  { intros c Hc E. apply Hc. rewrite <- E. symmetry. apply byte_of_Z_of_byte. }
  pose proof (Hne 10 Hn). pose proof (Hne 13 Hr). pose proof (Hne 9 Ht).
  zcases; try lia.
  rewrite Z.shiftr_div_pow2 by lia.
  change (2 ^ 4) with 16.
  replace (Z.land (Z_of_byte b) 15) with (Z_of_byte b mod 16)
    by (symmetry; apply (Z.land_ones _ 4); lia).
  rewrite !hexDigit_lower; [reflexivity| |].
  - apply Z.mod_pos_bound; lia.
  - split; [apply Z.div_pos; lia|apply Z.div_lt_upper_bound; lia].
Qed.

Lemma appendEscapedString_multibyte dst u t :
  multibyte u = true ->
  appendEscapedString dst (u ++ t) = appendEscapedString (dst ++ u) t.
Proof.
  intros Hu.
  pose proof (decode_multibyte u t Hu) as Hd.
  assert (exists b0 u', u = b0 :: u' /\ 194 <= Z_of_byte b0 /\ (2 <= length u)%nat)
    as (b0 & u' & -> & Hb0 & Hlen).
  { destruct u as [|b0 [|b1 [|b2 [|b3 [|b4 u]]]]]; try discriminate;
      cbn [multibyte] in Hu; zhyps; eexists _, _; (split; [reflexivity|]);
      cbn [length]; lia. }
  assert (Hs : safeSet b0 = false).
  { unfold safeSet. zcases; simpl; try reflexivity; lia. }
  cbn [app]. rewrite appendEscapedString_slow by assumption.
  unfold slowPath, utf8.RuneSelf.
  destruct (Z.leb_spec 128 (Z_of_byte b0)); [|lia].
  change (b0 :: u' ++ t) with ((b0 :: u') ++ t) in *.
  destruct (utf8.DecodeRuneInString ((b0 :: u') ++ t)) as [r size].
  cbn [snd] in Hd. subst size.
  replace (length (b0 :: u') =? 1)%nat with false
    by (symmetry; apply Nat.eqb_neq; lia).
  rewrite andb_false_r.
  rewrite take_app_length, drop_app_length. reflexivity.
Qed.

Lemma appendEscapedString_invalid dst b t :
  128 <= Z_of_byte b ->
  utf8.DecodeRuneInString (b :: t) = (utf8.RuneError, 1%nat) ->
  appendEscapedString dst (b :: t) =
  appendEscapedString (dst ++ [x5c; x75; x66; x66; x66; x64]) t.
Proof.
  intros Hb Hd.
  assert (Hs : safeSet b = false).
  { unfold safeSet. zcases; simpl; try reflexivity; lia. }
  rewrite appendEscapedString_slow by assumption.
  unfold slowPath, utf8.RuneSelf.
  destruct (Z.leb_spec 128 (Z_of_byte b)); [|lia].
  rewrite Hd. reflexivity.
Qed.

(** A decoding that is not the replacement character of length 1 is that
    of a well-formed sequence. *)
Lemma decode_dichotomy b t :
  128 <= Z_of_byte b ->
  utf8.DecodeRuneInString (b :: t) = (utf8.RuneError, 1%nat)
  \/ multibyte (take (utf8.DecodeRuneInString (b :: t)).2 (b :: t)) = true.
Proof.
  intros Hb.
  unfold utf8.DecodeRuneInString, utf8.at_. cbn [nth].
  rewrite first_of. cbv zeta.
  pose proof (Z_of_byte_range b) as Hr.
  destruct (Z.ltb_spec (Z_of_byte b) 128); [lia|].
  repeat match goal with
  | |- context [Z.ltb (Z_of_byte b) ?k] => destruct (Z.ltb_spec (Z_of_byte b) k)
  | |- context [Z.eqb (Z_of_byte b) ?k] => destruct (Z.eqb_spec (Z_of_byte b) k)
  end;
  decode_consts; try (left; reflexivity);
  destruct t as [|b1 [|b2 [|b3 t]]]; cbn [length nth Nat.ltb Nat.leb];
  try (left; reflexivity);
  repeat match goal with
  | |- context [Z.ltb ?x ?y] => destruct (Z.ltb_spec x y)
  end; cbn [orb]; try (left; reflexivity);
  right; cbn [snd firstn multibyte]; rewrite ?take_0; unfold between, tail_byte;
  rewrite ?orb_true_iff, ?andb_true_iff, ?Z.leb_le; lia.
Qed.

(** ** Round trip through a JSON parser *)

Lemma json_chars_literal b X :
  32 <= Z_of_byte b -> Z_of_byte b <> 34 -> Z_of_byte b <> 92 ->
  json_chars (b :: X) = (b ::.) <$> json_chars X.
Proof.
  intros H1 H2 H3. cbn [json_chars]. cbv zeta.
  zcases; try lia. reflexivity.
Qed.

Lemma json_chars_safe b X :
  safeSet b = true -> json_chars (b :: X) = (b ::.) <$> json_chars X.
Proof.
  intros H. unfold safeSet in H. zhyps. apply negb_true_iff in H0, H1. zhyps.
  apply json_chars_literal; lia.
Qed.

Lemma json_chars_high b X :
  128 <= Z_of_byte b -> json_chars (b :: X) = (b ::.) <$> json_chars X.
Proof. intros H. apply json_chars_literal; lia. Qed.

(** The parser reads an escape of the slow path back as the byte. *)
Lemma json_chars_escapeByte b X :
  Z_of_byte b < 128 -> safeSet b = false ->
  json_chars (escapeByte b ++ X) = (b ::.) <$> json_chars X.
Proof.
  intros Hb Hs.
  destruct b; try (exfalso; vm_compute in Hb; discriminate Hb);
    try discriminate Hs; reflexivity.
Qed.

Lemma multibyte_high u : multibyte u = true -> Forall (λ b, 128 <= Z_of_byte b) u.
Proof.
  intros Hu.
  destruct u as [|b0 [|b1 [|b2 [|b3 [|b4 u]]]]]; try discriminate;
    cbn [multibyte] in Hu; zhyps; repeat constructor; lia.
Qed.

Lemma json_chars_high_run u X :
  Forall (λ b, 128 <= Z_of_byte b) u ->
  json_chars (u ++ X) = (u ++.) <$> json_chars X.
Proof.
  induction 1 as [|b u Hb _ IH]; cbn [app].
  - now destruct (json_chars X).
  - rewrite json_chars_high by assumption. rewrite IH.
    now destruct (json_chars X).
Qed.

(** A well-formed string that does not start with a byte of ASCII starts
    with a well-formed sequence of several bytes. *)
Lemma utf8_valid_multibyte b0 s :
  128 <= Z_of_byte b0 -> utf8_valid (b0 :: s) = true ->
  exists u t, b0 :: s = u ++ t /\ multibyte u = true /\ utf8_valid t = true.
Proof.
  intros Hb Hv. cbn [utf8_valid] in Hv.
  destruct (Z.leb_spec (Z_of_byte b0) 127); [lia|].
  destruct s as [|b1 s]; [discriminate|].
  destruct (between 194 223 b0) eqn:E2.
  { apply andb_prop in Hv as [H1 Hv].
    exists [b0; b1], s. cbn [multibyte]. rewrite E2, H1. auto. }
  destruct s as [|b2 s]; [discriminate|].
  destruct (between 224 224 b0) eqn:E3a.
  { apply andb_prop in Hv as [H1 Hv]. apply andb_prop in H1 as [H1 H2].
    exists [b0; b1; b2], s. cbn [multibyte]. rewrite E3a, H1, H2. auto. }
  destruct (between 225 236 b0) eqn:E3b.
  { apply andb_prop in Hv as [H1 Hv]. apply andb_prop in H1 as [H1 H2].
    exists [b0; b1; b2], s. cbn [multibyte]. rewrite E3b, H1, H2.
    rewrite !orb_true_r. auto. }
  destruct (between 237 237 b0) eqn:E3c.
  { apply andb_prop in Hv as [H1 Hv]. apply andb_prop in H1 as [H1 H2].
    exists [b0; b1; b2], s. cbn [multibyte]. rewrite E3c, H1, H2.
    rewrite !orb_true_r. auto. }
  destruct (between 238 239 b0) eqn:E3d.
  { apply andb_prop in Hv as [H1 Hv]. apply andb_prop in H1 as [H1 H2].
    exists [b0; b1; b2], s. cbn [multibyte]. rewrite E3d, H1, H2.
    rewrite !orb_true_r. auto. }
  destruct s as [|b3 s]; [discriminate|].
  destruct (between 240 240 b0) eqn:E4a.
  { apply andb_prop in Hv as [H1 Hv]. apply andb_prop in H1 as [H1 H3].
    apply andb_prop in H1 as [H1 H2].
    exists [b0; b1; b2; b3], s. cbn [multibyte]. rewrite E4a, H1, H2, H3. auto. }
  destruct (between 241 243 b0) eqn:E4b.
  { apply andb_prop in Hv as [H1 Hv]. apply andb_prop in H1 as [H1 H3].
    apply andb_prop in H1 as [H1 H2].
    exists [b0; b1; b2; b3], s. cbn [multibyte]. rewrite E4b, H1, H2, H3.
    rewrite !orb_true_r. auto. }
  destruct (between 244 244 b0) eqn:E4c; [|discriminate].
  apply andb_prop in Hv as [H1 Hv]. apply andb_prop in H1 as [H1 H3].
  apply andb_prop in H1 as [H1 H2].
  exists [b0; b1; b2; b3], s. cbn [multibyte]. rewrite E4c, H1, H2, H3.
  rewrite !orb_true_r. auto.
Qed.

Lemma json_chars_escaped s :
  utf8_valid s = true ->
  json_chars (appendEscapedString [] s ++ [x22]) = Some s.
Proof.
  induction s as [s IH] using (induction_ltof1 _ (@length byte)).
  unfold ltof in IH. intros Hv.
  destruct s as [|b0 s]; [reflexivity|].
  destruct (Z.leb_spec (Z_of_byte b0) 127) as [Hlow|Hhigh].
  - assert (Hv' : utf8_valid s = true).
    { cbn [utf8_valid] in Hv. destruct (Z.leb_spec (Z_of_byte b0) 127); [assumption|lia]. }
    destruct (safeSet b0) eqn:Hs.
    + rewrite appendEscapedString_safe, appendEscapedString_dst by assumption.
      cbn [app]. rewrite json_chars_safe by assumption.
      rewrite IH by (assumption || simpl; lia). reflexivity.
    + rewrite appendEscapedString_low, appendEscapedString_dst by (assumption || lia).
      cbn [app]. rewrite <- app_assoc.
      rewrite json_chars_escapeByte by (assumption || lia).
      rewrite IH by (assumption || simpl; lia). reflexivity.
  - destruct (utf8_valid_multibyte b0 s) as (u & t & E & Hu & Ht); [lia|assumption|].
    rewrite E. rewrite appendEscapedString_multibyte, appendEscapedString_dst by assumption.
    cbn [app]. rewrite <- app_assoc.
    rewrite json_chars_high_run by (apply multibyte_high; assumption).
    rewrite IH; [reflexivity| |assumption].
    rewrite E, length_app.
    destruct u as [|? u]; [discriminate|]. simpl. lia.
Qed.

Lemma appendJSONString_eq dst s :
  appendJSONString dst s = dst ++ x22 :: appendEscapedString [] s ++ [x22].
Proof.
  unfold appendJSONString. rewrite appendEscapedString_dst.
  rewrite <- !app_assoc. reflexivity.
Qed.

Lemma roundtrip s :
  utf8_valid s = true -> json_parse_string (appendJSONString [] s) = Some s.
Proof.
  intros Hv. rewrite appendJSONString_eq. cbn [app json_parse_string].
  now apply json_chars_escaped.
Qed.

(** ** The encoders only append *)

Lemma appendInt64_dst dst v : appendInt64 dst v = dst ++ appendInt64 [] v.
Proof.
  unfold appendInt64.
  destruct (v =? 0); [reflexivity|]. cbv zeta.
  destruct (v <? 0).
  - destruct (v =? int64_min).
    + now rewrite <- !app_assoc.
    + destruct (digitLoop 20 (wrap64 (- v)) (replicate 20 x00)) as [i buf].
      now rewrite <- !app_assoc.
  - destruct (digitLoop 20 v (replicate 20 x00)) as [i buf]. reflexivity.
Qed.

Lemma appendFloat64_dst dst v : appendFloat64 dst v = dst ++ appendFloat64 [] v.
Proof.
  unfold appendFloat64.
  destruct (math.IsNaN v); [reflexivity|].
  destruct (math.IsInf v 1); [reflexivity|].
  destruct (math.IsInf v (-1)); [reflexivity|].
  destruct (f64.eqb v f64.zero); [reflexivity|].
  cbv zeta.
  destruct (f64.ltb v f64.zero);
    match goal with
    | |- context [if ?c then _ else _] => destruct c
    end;
    rewrite appendInt64_dst; symmetry; rewrite appendInt64_dst;
    rewrite <- ?app_assoc; reflexivity.
Qed.

Lemma appendKey_dst dst key : appendKey dst key = dst ++ appendKey [] key.
Proof.
  unfold appendKey. rewrite appendEscapedString_dst.
  symmetry. rewrite appendEscapedString_dst.
  now rewrite <- !app_assoc.
Qed.

Lemma appendJSONString_dst dst s : appendJSONString dst s = dst ++ appendJSONString [] s.
Proof. rewrite !appendJSONString_eq. reflexivity. Qed.

Lemma appendBool_dst dst v : appendBool dst v = dst ++ appendBool [] v.
Proof. destruct v; reflexivity. Qed.

Lemma time_appendInt_dst b x w : time.appendInt b x w = b ++ time.appendInt [] x w.
Proof.
  unfold time.appendInt. destruct (x <? 0); rewrite <- ?app_assoc; reflexivity.
Qed.

Lemma time_appendNano_dst b n : time.appendNano b n = b ++ time.appendNano [] n.
Proof.
  unfold time.appendNano. destruct (n =? 0); [now rewrite app_nil_r|reflexivity].
Qed.

Lemma AppendFormat_dst t b :
  time.AppendFormat_RFC3339Nano t b = b ++ time.AppendFormat_RFC3339Nano t [].
Proof.
  unfold time.AppendFormat_RFC3339Nano. cbv zeta.
  destruct (time.civil _) as [[year month] day].
  destruct (_ =? 0); [|destruct (_ <? 0)];
    rewrite (time_appendInt_dst b year 4);
    repeat (rewrite (time_appendInt_dst (_ ++ _)) || rewrite (time_appendNano_dst (_ ++ _)));
    rewrite <- ?app_assoc; reflexivity.
Qed.

Lemma appendTime_dst dst t : appendTime dst t = dst ++ appendTime [] t.
Proof.
  unfold appendTime. rewrite AppendFormat_dst. symmetry. rewrite AppendFormat_dst.
  now rewrite <- !app_assoc.
Qed.

Lemma appendDuration_dst dst d : appendDuration dst d = dst ++ appendDuration [] d.
Proof. apply appendFloat64_dst. Qed.

Lemma appendField_dst Local dst f :
  appendField Local dst f = dst ++ appendField Local [] f.
Proof.
  unfold appendField. cbv zeta. rewrite appendKey_dst.
  destruct (Type_ f);
    first [rewrite appendJSONString_dst; symmetry; rewrite appendJSONString_dst
          |rewrite appendInt64_dst; symmetry; rewrite appendInt64_dst
          |rewrite appendFloat64_dst; symmetry; rewrite appendFloat64_dst
          |rewrite appendBool_dst; symmetry; rewrite appendBool_dst
          |rewrite appendDuration_dst; symmetry; rewrite appendDuration_dst
          |rewrite appendTime_dst; symmetry; rewrite appendTime_dst];
    now rewrite <- !app_assoc.
Qed.

Lemma encodeFields_app Local fs1 fs2 :
  encodeFields Local (fs1 ++ fs2) = encodeFields Local fs1 ++ encodeFields Local fs2.
Proof. unfold encodeFields. now rewrite fmap_app, concat_app. Qed.

(** The loop over the fields, as [With] and [log] run it. *)
Lemma foldl_appendField Local fields : forall b,
  foldl (λ b f, appendField Local (b ++ [x2c]) f) b fields
  = b ++ encodeFields Local fields.
Proof.
  induction fields as [|f fields IH]; intros b; cbn [foldl].
  - now rewrite app_nil_r.
  - rewrite IH, appendField_dst. unfold encodeFields. cbn [fmap list_fmap concat].
    rewrite <- !app_assoc. reflexivity.
Qed.

(** ** The logger *)

(** Brings a concatenation of byte strings with literals to a normal form. *)
Ltac norm_bytes :=
  repeat match goal with
  | |- context [json ?s] =>
      let v := eval vm_compute in (json s) in change (json s) with v
  end;
  repeat (progress (cbn [app]; rewrite <- ?app_assoc)).

Lemma Pool_Get_clean st p pl :
  pools st !! p = Some pl -> hd [] (idle pl) = [] ->
  Pool_Get st p =
  Some ([], mkState (loggers st) (levels st)
              (<[p := mkPool (poolConfig pl) (tail (idle pl))]> (pools st))
              (trace st ++ [EvGet p])).
Proof.
  intros Hp Hhd. unfold Pool_Get. rewrite Hp. cbn.
  destruct (idle pl) as [|b rest]; cbn in *; subst; reflexivity.
Qed.

Lemma record_eq Local lvl clock msg ctx fields :
  foldl (λ b f, appendField Local (b ++ [x2c]) f)
    ((if (0 <? length ctx)%nat
      then appendJSONString
             (appendTime ((([] ++ json "{'level':'") ++ Level_String lvl) ++ json "','ts':")
                (time.Now Local clock) ++ json ",'msg':") msg ++ ctx
      else appendJSONString
             (appendTime ((([] ++ json "{'level':'") ++ Level_String lvl) ++ json "','ts':")
                (time.Now Local clock) ++ json ",'msg':") msg)) fields
  ++ [x7d; x0a]
  = record Local lvl (time.Now Local clock) msg ctx fields.
Proof.
  rewrite foldl_appendField.
  assert (Hctx : forall X : list byte,
    (if (0 <? length ctx)%nat then X ++ ctx else X) = X ++ ctx).
  { intros X. destruct ctx; [now rewrite app_nil_r|reflexivity]. }
  rewrite Hctx. rewrite appendJSONString_eq.
  unfold appendTime. rewrite AppendFormat_dst.
  unfold record. norm_bytes. reflexivity.
Qed.

(** What [log] does for a logger whose pool hands out a cleared buffer. *)
Lemma Logger_log_spec Local clock st l lg pl lvl msg fields :
  loggers st !! l = Some lg ->
  pools st !! pool lg = Some pl -> hd [] (idle pl) = [] ->
  Logger_log Local clock st l lvl msg fields =
  Some (mkState (loggers st) (levels st)
          (<[pool lg := mkPool (poolConfig pl) ([] :: tail (idle pl))]> (pools st))
          (trace st ++ [EvGet (pool lg);
                        EvWrite (output lg)
                          (record Local lvl (time.Now Local clock) msg (context lg) fields);
                        EvPut (pool lg)])).
Proof.
  intros Hl Hp Hhd. unfold Logger_log. rewrite Hl. cbn [mbind option_bind].
  rewrite (Pool_Get_clean st (pool lg) pl Hp Hhd). cbn [mbind option_bind].
  rewrite record_eq.
  unfold Pool_Put, emit, Buffer_Reset. cbn [pools loggers levels trace].
  rewrite lookup_insert_eq. cbn [mbind option_bind poolConfig idle].
  rewrite insert_insert_eq. rewrite <- !app_assoc. reflexivity.
Qed.

Lemma Enabled_spec st al lvl :
  AtomicLevel_Enabled st al lvl = (λ thr, thr <=? lvl) <$> levels st !! al.
Proof. unfold AtomicLevel_Enabled. destruct (levels st !! al); reflexivity. Qed.

Lemma call_unfold Local m clock st l msg fields :
  call Local m clock st l msg fields =
  lg ← loggers st !! l;
  en ← AtomicLevel_Enabled st (level lg) (levelOf m);
  if negb en then Some st else Logger_log Local clock st l (levelOf m) msg fields.
Proof. destruct m; reflexivity. Qed.

Lemma call_enabled Local m clock st l lg thr pl msg fields :
  loggers st !! l = Some lg ->
  levels st !! level lg = Some thr -> thr <= levelOf m ->
  pools st !! pool lg = Some pl -> hd [] (idle pl) = [] ->
  call Local m clock st l msg fields =
  Some (mkState (loggers st) (levels st)
          (<[pool lg := mkPool (poolConfig pl) ([] :: tail (idle pl))]> (pools st))
          (trace st ++ [EvGet (pool lg);
                        EvWrite (output lg)
                          (record Local (levelOf m) (time.Now Local clock) msg
                             (context lg) fields);
                        EvPut (pool lg)])).
Proof.
  intros Hl Hlv Hthr Hp Hhd. rewrite call_unfold, Hl. cbn [mbind option_bind].
  rewrite Enabled_spec, Hlv. cbn [fmap option_fmap option_map mbind option_bind].
  destruct (Z.leb_spec thr (levelOf m)); [|lia]. cbn [negb].
  eapply Logger_log_spec; eassumption.
Qed.

Lemma call_disabled Local m clock st l lg thr msg fields :
  loggers st !! l = Some lg ->
  levels st !! level lg = Some thr -> levelOf m < thr ->
  call Local m clock st l msg fields = Some st.
Proof.
  intros Hl Hlv Hthr. rewrite call_unfold, Hl. cbn [mbind option_bind].
  rewrite Enabled_spec, Hlv. cbn [fmap option_fmap option_map mbind option_bind].
  destruct (Z.leb_spec thr (levelOf m)); [lia|]. reflexivity.
Qed.

Lemma Enabled_iff st al lvl :
  AtomicLevel_Enabled st al lvl = Some true
  <-> exists thr, AtomicLevel_Level st al = Some thr /\ thr <= lvl.
Proof.
  rewrite Enabled_spec. unfold AtomicLevel_Level.
  destruct (levels st !! al) as [thr|]; cbn.
  - split.
    + intros [= H]. exists thr. split; [reflexivity|]. now apply Z.leb_le.
    + intros (thr' & [= <-] & H). f_equal. now apply Z.leb_le.
  - split; [discriminate|]. intros (thr' & H & _). discriminate.
Qed.

Lemma Logger_Fatal_spec Local clock st l lg pl msg fields :
  loggers st !! l = Some lg ->
  pools st !! pool lg = Some pl -> hd [] (idle pl) = [] ->
  Logger_Fatal Local clock st l msg fields =
  Some (mkState (loggers st) (levels st)
          (<[pool lg := mkPool (poolConfig pl) ([] :: tail (idle pl))]> (pools st))
          (trace st ++ [EvGet (pool lg);
                        EvWrite (output lg)
                          (record Local FatalLevel (time.Now Local clock) msg
                             (context lg) fields);
                        EvPut (pool lg);
                        EvExit 1])).
Proof.
  intros Hl Hp Hhd. unfold Logger_Fatal.
  rewrite (Logger_log_spec Local clock st l lg pl FatalLevel msg fields Hl Hp Hhd).
  cbn [mbind option_bind]. unfold os_Exit, emit. cbn [loggers levels pools trace].
  rewrite <- !app_assoc. reflexivity.
Qed.

Lemma Logger_With_nil Local st l : Logger_With Local st l [] = Some (st, l).
Proof. reflexivity. Qed.

Lemma Logger_With_spec Local st l lg pl fields :
  fields <> [] ->
  loggers st !! l = Some lg ->
  pools st !! pool lg = Some pl -> hd [] (idle pl) = [] ->
  let c := fresh (dom (loggers st)) in
  Logger_With Local st l fields =
  Some (mkState
          (<[c := mkLogger (output lg) (level lg) (pool lg)
                    (context lg ++ encodeFields Local fields)]> (loggers st))
          (levels st)
          (<[pool lg := mkPool (poolConfig pl) ([] :: tail (idle pl))]> (pools st))
          (trace st ++ [EvGet (pool lg); EvPut (pool lg)]),
        c).
Proof.
  intros Hf Hl Hp Hhd c. unfold Logger_With.
  destruct fields as [|f fields]; [congruence|].
  cbn [length Nat.eqb]. rewrite Hl. cbn [mbind option_bind].
  rewrite (Pool_Get_clean st (pool lg) pl Hp Hhd). cbn [mbind option_bind].
  unfold Pool_Put, emit, Buffer_Reset. cbn [pools loggers levels trace].
  rewrite lookup_insert_eq. cbn [mbind option_bind poolConfig idle].
  rewrite insert_insert_eq. rewrite foldl_appendField. cbn [app].
  assert (Hctx : forall X : list byte,
    (if (0 <? length (context lg))%nat then context lg ++ X else X) = context lg ++ X).
  { intros X. destruct (context lg); reflexivity. }
  rewrite Hctx. rewrite <- !app_assoc. reflexivity.
Qed.

(** ** The states a program reaches are sound *)

Lemma sound_empty : sound (mkState ∅ ∅ ∅ []).
Proof.
  split.
  - intros p pl H. cbn in H. rewrite lookup_empty in H. discriminate.
  - intros l lg H. cbn in H. rewrite lookup_empty in H. discriminate.
Qed.

Lemma sound_pool_update st p pl rest lgs tr :
  sound st -> pools st !! p = Some pl ->
  (forall l lg, lgs !! l = Some lg ->
     loggers st !! l = Some lg \/ (pool lg = p /\ is_Some (levels st !! level lg))) ->
  sound (mkState lgs (levels st)
           (<[p := mkPool (poolConfig pl) ([] :: rest)]> (pools st)) tr).
Proof.
  intros [Hr Hk] Hp Hlgs. split.
  - intros q ql. cbn [pools]. rewrite lookup_insert.
    destruct (decide (p = q)) as [->|Hne].
    + intros [= <-]. reflexivity.
    + apply Hr.
  - intros l lg Hl. cbn [loggers] in Hl. cbn [pools levels].
    destruct (Hlgs l lg Hl) as [Hold|[Hpool Hlevel]].
    + destruct (Hk l lg Hold) as [Hpl Hlv]. split; [|exact Hlv].
      rewrite lookup_insert. destruct (decide (p = pool lg)); [eauto|exact Hpl].
    + split; [|exact Hlevel]. rewrite Hpool, lookup_insert_eq. eauto.
Qed.

Lemma New_eq st cfg :
  New st cfg =
  (mkState
     (<[fresh (dom (loggers st)) :=
          mkLogger (default (SyncWriter Stderr) (Output cfg))
            (fresh (dom (levels st))) (fresh (dom (pools st))) []]> (loggers st))
     (<[fresh (dom (levels st)) := Level cfg]> (levels st))
     (<[fresh (dom (pools st)) :=
          mkPool (default defaultPoolConfig (PoolConfig_ cfg)) []]> (pools st))
     (trace st),
   fresh (dom (loggers st))).
Proof.
  unfold New, NewPool, NewAtomicLevel.
  destruct (PoolConfig_ cfg), (Output cfg); reflexivity.
Qed.

Lemma New_sound st cfg :
  sound st ->
  sound (New st cfg).1
  /\ exists lg, loggers (New st cfg).1 !! (New st cfg).2 = Some lg
                /\ context lg = [] /\ levels (New st cfg).1 !! level lg = Some (Level cfg).
Proof.
  intros [Hr Hk]. rewrite New_eq. cbn [fst snd]. split; [split|].
  - intros p pl. cbn [pools]. rewrite lookup_insert.
    destruct (decide _); [intros [= <-]; reflexivity|apply Hr].
  - intros l lg. cbn [loggers pools levels]. rewrite lookup_insert.
    destruct (decide _) as [<-|Hne].
    + intros [= <-]. cbn [pool level]. rewrite !lookup_insert_eq. eauto.
    + intros Hl. destruct (Hk l lg Hl) as [[pl Hpl] [v Hv]].
      split; rewrite lookup_insert; destruct (decide _); eauto.
  - eexists. cbn [loggers levels]. rewrite lookup_insert_eq.
    split; [reflexivity|]. split; [reflexivity|]. cbn [level]. apply lookup_insert_eq.
Qed.

Lemma Logger_log_sound Local clock st l lvl msg fields st' :
  sound st -> Logger_log Local clock st l lvl msg fields = Some st' -> sound st'.
Proof.
  intros Hs H. destruct (loggers st !! l) as [lg|] eqn:Hl.
  - destruct Hs as [Hr Hk]. destruct (Hk l lg Hl) as [[pl Hp] _].
    rewrite (Logger_log_spec Local clock st l lg pl lvl msg fields Hl Hp (Hr _ _ Hp)) in H.
    injection H as <-.
    apply sound_pool_update; [split; assumption|assumption|auto].
  - unfold Logger_log in H. rewrite Hl in H. discriminate.
Qed.

Lemma call_sound Local m clock st l msg fields st' :
  sound st -> call Local m clock st l msg fields = Some st' -> sound st'.
Proof.
  intros Hs H. rewrite call_unfold in H.
  destruct (loggers st !! l) as [lg|]; [|discriminate]. cbn [mbind option_bind] in H.
  destruct (AtomicLevel_Enabled st (level lg) (levelOf m)) as [en|]; [|discriminate].
  cbn [mbind option_bind] in H. destruct en; cbn [negb] in H.
  - eapply Logger_log_sound; eassumption.
  - injection H as <-. exact Hs.
Qed.

Lemma Logger_With_sound Local st l fields st' c :
  sound st -> Logger_With Local st l fields = Some (st', c) -> sound st'.
Proof.
  intros Hs H. destruct fields as [|f fields].
  - injection H as <- <-. exact Hs.
  - destruct (loggers st !! l) as [lg|] eqn:Hl.
    + destruct Hs as [Hr Hk]. destruct (Hk l lg Hl) as [[pl Hp] Hlv].
      rewrite (Logger_With_spec Local st l lg pl (f :: fields)
                 ltac:(discriminate) Hl Hp (Hr _ _ Hp)) in H.
      injection H as <- <-.
      apply sound_pool_update; [split; assumption|assumption|].
      intros l' lg' Hl'. rewrite lookup_insert in Hl'.
      destruct (decide _); [|left; exact Hl'].
      injection Hl' as <-. right. cbn [pool level]. auto.
    + unfold Logger_With in H. cbn [length Nat.eqb] in H. rewrite Hl in H. discriminate.
Qed.

Lemma Logger_SetLevel_sound st l lvl st' :
  sound st -> Logger_SetLevel st l lvl = Some st' -> sound st'.
Proof.
  intros [Hr Hk] H. unfold Logger_SetLevel, AtomicLevel_SetLevel in H.
  destruct (loggers st !! l) as [lg|]; [|discriminate]. cbn [mbind option_bind] in H.
  destruct (levels st !! level lg); [|discriminate]. cbn [mbind option_bind] in H.
  injection H as <-. split; [exact Hr|].
  intros l' lg' Hl'. cbn [loggers] in Hl'. cbn [pools levels].
  destruct (Hk l' lg' Hl') as [Hp Hv]. split; [exact Hp|].
  rewrite lookup_insert. destruct (decide _); eauto.
Qed.

(** In a sound state a call on a logger does not fail. *)
Lemma call_total Local m clock st l lg msg fields :
  sound st -> loggers st !! l = Some lg ->
  is_Some (call Local m clock st l msg fields).
Proof.
  intros [Hr Hk] Hl. destruct (Hk l lg Hl) as [[pl Hp] [thr Hlv]].
  destruct (Z.le_gt_cases thr (levelOf m)).
  - erewrite call_enabled; eauto.
  - erewrite call_disabled; eauto.
Qed.

(** The context of a logger lists the fields of the [With] calls that led
    to it, in the order of the calls: a root logger carries none, and
    [With] adds its fields after those the receiver carries. *)
Lemma Logger_With_context Local st l lg pl fields ctx st' c :
  loggers st !! l = Some lg ->
  pools st !! pool lg = Some pl -> hd [] (idle pl) = [] ->
  context lg = encodeFields Local ctx ->
  Logger_With Local st l fields = Some (st', c) ->
  exists lgc,
    loggers st' !! c = Some lgc
    /\ context lgc = encodeFields Local (ctx ++ fields)
    /\ output lgc = output lg /\ level lgc = level lg /\ pool lgc = pool lg.
Proof.
  intros Hl Hp Hhd Hctx H. destruct fields as [|f fields].
  - injection H as <- <-. exists lg. rewrite app_nil_r. auto.
  - rewrite (Logger_With_spec Local st l lg pl (f :: fields)
               ltac:(discriminate) Hl Hp Hhd) in H.
    injection H as <- <-. eexists. cbn [loggers]. rewrite lookup_insert_eq.
    split; [reflexivity|]. cbn [context output level pool].
    rewrite encodeFields_app, Hctx. auto.
Qed.

(** ** appendFloat64 *)

Lemma appendFloat64_NaN dst : appendFloat64 dst S754_nan = dst ++ json "'NaN'".
Proof. reflexivity. Qed.

Lemma appendFloat64_Inf dst s :
  appendFloat64 dst (S754_infinity s) = dst ++ json (if s then "'-Inf'" else "'+Inf'").
Proof. destruct s; reflexivity. Qed.

Lemma appendFloat64_zero dst s : appendFloat64 dst (S754_zero s) = dst ++ [x30].
Proof. destruct s; reflexivity. Qed.

Lemma digits2_pos_bound m : Z.pos m < 2 ^ Z.pos (digits2_pos m).
Proof.
  induction m as [m IH|m IH|]; cbn [digits2_pos]; [| |reflexivity];
    rewrite Pos2Z.inj_succ, Z.pow_succ_r by lia; lia.
Qed.

(** The mantissa of a float64 has at most 53 bits. *)
Lemma valid_mantissa s m e :
  f64.valid (S754_finite s m e) = true -> Z.pos m < 2 ^ 53.
Proof.
  unfold f64.valid, valid_binary, bounded, canonical_mantissa, fexp, f64.prec.
  intros H. apply andb_prop in H as [H _]. apply Z.eqb_eq in H.
  pose proof (digits2_pos_bound m) as Hm.
  assert (Hd : Z.pos (digits2_pos m) <= 53) by lia.
  eapply Z.lt_le_trans; [exact Hm|].
  apply Z.pow_le_mono_r; lia.
Qed.

Lemma ltb_1e15 m e :
  f64.valid (S754_finite false m e) = true ->
  f64.ltb (S754_finite false m e) f1e15 = true ->
  0 <= f64.truncZ (S754_finite false m e) < 1000000000000000.
Proof.
  intros Hv Hlt. apply valid_mantissa in Hv.
  unfold f64.ltb, SFltb in Hlt.
  change f1e15 with (S754_finite false 8000000000000000 (-3)) in Hlt.
  cbn [SFcompare] in Hlt.
  unfold f64.truncZ. cbn [cond_Zopp].
  destruct (Z.compare_spec e (-3)) as [->|He|He]; try discriminate.
  - rewrite Pos.compare_cont_spec in Hlt.
    destruct (Pos.compare_spec m 8000000000000000) as [?|Hc|?]; try discriminate.
    apply Pos2Z.pos_lt_pos in Hc.
    change (0 <=? -3) with false. cbv iota. change (- -3) with 3.
    rewrite Z.shiftr_div_pow2 by (clear; lia). change (2 ^ 3) with 8.
    split; [apply Z.div_pos; lia|apply Z.div_lt_upper_bound; lia].
  - destruct (Z.leb_spec 0 e); [lia|].
    rewrite Z.shiftr_div_pow2 by lia.
    split; [apply Z.div_pos; lia|].
    apply Z.div_lt_upper_bound; [lia|].
    assert (2 ^ 4 <= 2 ^ (- e)) by (apply Z.pow_le_mono_r; lia).
    change (2 ^ 4) with 16 in *. change (2 ^ 53) with 9007199254740992 in Hv. nia.
Qed.

(** A whole number below 1e15 is written as an integer. *)
Lemma appendFloat64_whole dst s m e :
  f64.valid (S754_finite s m e) = true ->
  f64.eqb (S754_finite false m e) (math.Trunc (S754_finite false m e)) = true ->
  f64.ltb (S754_finite false m e) f1e15 = true ->
  appendFloat64 dst (S754_finite s m e)
  = dst ++ (if s then [x2d] else []) ++ decimal (f64.truncZ (S754_finite false m e)).
Proof.
  intros Hv Hw Hlt.
  assert (Hv' : f64.valid (S754_finite false m e) = true) by exact Hv.
  pose proof (ltb_1e15 m e Hv' Hlt) as Hr.
  unfold appendFloat64.
  cbn [math.IsNaN math.IsInf].
  assert (Hz : f64.eqb (S754_finite s m e) f64.zero = false) by (destruct s; reflexivity).
  rewrite Hz.
  assert (Hneg : f64.ltb (S754_finite s m e) f64.zero = s) by (destruct s; reflexivity).
  rewrite Hneg. cbv zeta.
  assert (Habs : (if s then f64.neg (S754_finite s m e) else S754_finite s m e)
                 = S754_finite false m e) by (destruct s; reflexivity).
  rewrite Habs, Hw, Hlt. cbn [andb].
  assert (Hi : f64.to_int64 (S754_finite false m e) = f64.truncZ (S754_finite false m e)).
  { unfold f64.to_int64, int64_min, int64_max.
    destruct (Z.leb_spec (-9223372036854775808) (f64.truncZ (S754_finite false m e)));
      destruct (Z.leb_spec (f64.truncZ (S754_finite false m e)) 9223372036854775807);
      cbn [andb]; lia. }
  rewrite Hi, appendInt64_decimal by (unfold int64_range, int64_min, int64_max; lia).
  destruct s; rewrite <- ?app_assoc; reflexivity.
Qed.

Lemma appendFloat64_examples :
  appendFloat64 [] (f64.of_decimal 15 1) = bytes "1.5"
  /\ appendFloat64 [] (f64.of_decimal 2 0) = bytes "2"
  /\ appendFloat64 [] (f64.of_decimal 1 6) = bytes "0.000001"
  /\ appendDuration [] 1500000 = bytes "0.0015".
Proof. repeat split; vm_compute; reflexivity. Qed.

Lemma quot_step n k :
  0 <= n -> 0 < k -> Z.quot (n / k) 10 = n / (k * 10).
Proof.
  intros Hn Hk. rewrite Z.quot_div_nonneg by (try apply Z.div_pos; lia).
  now rewrite Z.div_div by lia.
Qed.

Lemma fracLoop_6 n :
  0 <= n ->
  fracLoop 6 n (replicate 6 x00)
  = [dg n 100000; dg n 10000; dg n 1000; dg n 100; dg n 10; dg n 1].
Proof.
  intros Hn. unfold dg. cbn [fracLoop replicate].
  rewrite (Z.quot_div_nonneg n 10) by lia.
  rewrite (quot_step n 10), (quot_step n (10 * 10)), (quot_step n (10 * 10 * 10)),
    (quot_step n (10 * 10 * 10 * 10)) by lia.
  rewrite !Z.rem_mod_nonneg by (try apply Z.div_pos; lia).
  rewrite Z.div_1_r. reflexivity.
Qed.

Lemma trimZeros_zero r : time.trimZeros (x30 :: r) = time.trimZeros r.
Proof. reflexivity. Qed.

Lemma trimZeros_keep d r : d <> x30 -> time.trimZeros (d :: r) = d :: r.
Proof. intros H. destruct d; try reflexivity. congruence. Qed.

Lemma byte_eqb_eq a b : Byte.eqb a b = true -> a = b.
Proof. apply Byte.byte_dec_bl. Qed.

Lemma byte_eqb_neq a b : Byte.eqb a b = false -> a <> b.
Proof.
  intros H E. subst. rewrite (Byte.byte_dec_lb eq_refl) in H. discriminate.
Qed.

(** One turn of the trimming loop, at the digit [d]. *)
Ltac trim_turn d :=
  let E := fresh "E" in
  destruct (Byte.eqb d x30) eqn:E;
  [apply byte_eqb_eq in E; subst d; rewrite trimZeros_zero
  |apply byte_eqb_neq in E; rewrite trimZeros_keep by assumption; reflexivity].

(** The trimming loop keeps the digits without their trailing zeros. *)
Lemma trimLoop_6 d0 d1 d2 d3 d4 d5 :
  take (trimLoop 6 [d0; d1; d2; d3; d4; d5]) [d0; d1; d2; d3; d4; d5]
  = trimFrac [d0; d1; d2; d3; d4; d5].
Proof.
  unfold trimFrac. cbn [trimLoop nth Nat.ltb Nat.leb andb rev app].
  trim_turn d5. trim_turn d4. trim_turn d3. trim_turn d2. trim_turn d1.
  trim_turn d0. reflexivity.
Qed.

Lemma digits_or_nil_step n :
  0 < n -> digits_or_nil n = digits_or_nil (n / 10) ++ [byte_of_Z (n mod 10 + 48)].
Proof.
  intros Hn. unfold digits_or_nil.
  destruct (Z.ltb_spec 0 n); [|lia].
  rewrite (decimal_step n) by assumption.
  destruct (Z.ltb_spec n 10); destruct (Z.ltb_spec 0 (n / 10)); try reflexivity.
  - rewrite Z.div_small in * by lia. lia.
  - assert (0 < n / 10) by (apply Z.div_str_pos; lia). lia.
Qed.

Lemma digs_spec k : forall n,
  0 <= n < 10 ^ Z.of_nat k ->
  digs k n = replicate (k - length (digits_or_nil n)) x30 ++ digits_or_nil n.
Proof.
  induction k as [|k IH]; intros n Hn.
  - assert (n = 0) by (simpl in Hn; lia). subst n. reflexivity.
  - cbn [digs]. rewrite IH.
    + destruct (Z.eq_dec n 0) as [->|Hnz].
      * change (digits_or_nil (0 / 10)) with (@nil byte).
        change (digits_or_nil 0) with (@nil byte).
        cbn [length]. rewrite !Nat.sub_0_r, !app_nil_r.
        change (byte_of_Z (0 mod 10 + 48)) with x30.
        symmetry. apply replicate_S_end.
      * rewrite (digits_or_nil_step n) by lia.
        rewrite length_app. cbn [length].
        replace (S k - (length (digits_or_nil (n / 10)) + 1))%nat
          with (k - length (digits_or_nil (n / 10)))%nat by lia.
        now rewrite <- app_assoc.
    + split; [apply Z.div_pos; lia|].
      apply Z.div_lt_upper_bound; [lia|].
      rewrite Nat2Z.inj_succ, Z.pow_succ_r in Hn by lia. lia.
Qed.

Lemma pad6_digits n :
  0 <= n < 1000000 ->
  pad6 n = [dg n 100000; dg n 10000; dg n 1000; dg n 100; dg n 10; dg n 1].
Proof.
  intros Hn.
  transitivity (digs 6 n).
  - destruct (Z.eq_dec n 0) as [->|Hnz]; [reflexivity|].
    rewrite digs_spec by (change (10 ^ Z.of_nat 6) with 1000000; lia).
    unfold pad6, digits_or_nil. destruct (Z.ltb_spec 0 n); [reflexivity|lia].
  - unfold dg. cbn [digs app].
    rewrite !Z.div_div by lia. rewrite Z.div_1_r. reflexivity.
Qed.

(** A finite value that does not take the integer path, whose integer part
    fits an [int64] and whose fraction rounds to less than a million, is
    written as the integer part, a point, and the six digits of the
    rounded fraction without their trailing zeros. *)
Lemma appendFloat64_fraction dst s m e :
  let a := S754_finite false m e in
  let n := f64.to_int64
             (math.Round (f64.mul (f64.sub a (f64.of_int (f64.truncZ a))) f1e6)) in
  f64.eqb a (math.Trunc a) && f64.ltb a f1e15 = false ->
  f64.truncZ a <= int64_max ->
  0 <= n < 1000000 ->
  appendFloat64 dst (S754_finite s m e)
  = dst ++ (if s then [x2d] else []) ++ decimal (f64.truncZ a) ++ [x2e]
        ++ trimFrac (pad6 n).
Proof.
  intros a n Hpath Hmax Hn.
  assert (H0 : 0 <= f64.truncZ a).
  { unfold a, f64.truncZ. cbn [cond_Zopp].
    destruct (0 <=? e); [lia|]. apply Z.shiftr_nonneg. lia. }
  assert (Hi : f64.to_int64 a = f64.truncZ a).
  { unfold f64.to_int64, a. fold a. unfold int64_min, int64_max in *.
    destruct (Z.leb_spec (-9223372036854775808) (f64.truncZ a));
      destruct (Z.leb_spec (f64.truncZ a) 9223372036854775807); cbn [andb]; lia. }
  unfold appendFloat64. cbn [math.IsNaN math.IsInf].
  assert (Hz : f64.eqb (S754_finite s m e) f64.zero = false) by (destruct s; reflexivity).
  assert (Hneg : f64.ltb (S754_finite s m e) f64.zero = s) by (destruct s; reflexivity).
  assert (Habs : (if s then f64.neg (S754_finite s m e) else S754_finite s m e) = a)
    by (destruct s; reflexivity).
  rewrite Hz, Hneg. cbv zeta. rewrite Habs, Hpath, Hi. fold n.
  destruct (Z.ltb_spec n 0); [lia|].
  rewrite fracLoop_6 by lia. rewrite trimLoop_6. rewrite <- pad6_digits by assumption.
  rewrite appendInt64_decimal by (unfold int64_range, int64_min, int64_max in *; lia).
  destruct s; rewrite <- ?app_assoc; reflexivity.
Qed.

(** * The properties of the specification *)

(** C1, as amended.  A call of a gated method ([Debug], [Info], [Warn],
    [Error]) whose level is enabled, on a logger whose pool hands out a
    cleared buffer, takes one buffer, calls [Write] on the output once and
    returns the buffer; so does [Fatal], at any threshold, before it ends
    the process.  The bytes written are an opening brace, the members
    that follow, a closing brace and a newline: the key [level] with the
    name of the level, the key [ts] with the reading of the clock in the
    layout RFC3339Nano and in the local location of the process, the key
    [msg] with the escaped message, the context fields [ctx] the logger
    carries (those of the [With] calls that led to it, in the order of the
    calls: [Logger_With_context]), the fields of the call in their order,
    each field after a comma, and the closing brace right after the last
    field. *)
Theorem log_writes_record Local clock st l lg thr pl msg ctx fields :
  loggers st !! l = Some lg ->
  levels st !! level lg = Some thr ->
  pools st !! pool lg = Some pl -> hd [] (idle pl) = [] ->
  context lg = encodeFields Local ctx ->
  let written (name : list byte) : list byte :=
    json "{'level':'" ++ name
    ++ json "','ts':'" ++ time.AppendFormat_RFC3339Nano (time.Now Local clock) []
    ++ json "','msg':'" ++ appendEscapedString [] msg ++ json "'"
    ++ encodeFields Local ctx ++ encodeFields Local fields
    ++ json "}" ++ [x0a] in
  (forall m, thr <= levelOf m ->
     exists st',
       call Local m clock st l msg fields = Some st'
       /\ trace st' =
          trace st ++ [EvGet (pool lg);
                       EvWrite (output lg)
                         (written match m with
                                  | MDebug => bytes "DEBUG" | MInfo => bytes "INFO"
                                  | MWarn => bytes "WARN" | MError => bytes "ERROR"
                                  end);
                       EvPut (pool lg)]
       /\ loggers st' = loggers st /\ levels st' = levels st)
  /\ (exists st',
        Logger_Fatal Local clock st l msg fields = Some st'
        /\ trace st' =
           trace st ++ [EvGet (pool lg);
                        EvWrite (output lg) (written (bytes "FATAL"));
                        EvPut (pool lg);
                        EvExit 1]).
Proof.
  intros Hl Hlv Hp Hhd Hctx written. split.
  - intros m Hthr. eexists. split; [eapply call_enabled; eassumption|].
    cbn [trace loggers levels]. rewrite Hctx.
    split; [destruct m; reflexivity|]. split; reflexivity.
  - eexists. split; [eapply Logger_Fatal_spec; eassumption|].
    cbn [trace]. rewrite Hctx. reflexivity.
Qed.

(** C1, witness: the first scenario of the specification, in a process
    whose local location is UTC, then a call on a logger derived by
    [With]. *)
Lemma log_writes_record_witness :
  (exists st',
     call time.UTC MInfo clock0 st1 root (bytes "server started") started = Some st'
     /\ trace st' =
        trace st1
        ++ [EvGet 0%nat;
            EvWrite (Sink 0)
              (json "{'level':'INFO','ts':'2026-02-17T22:30:00.123456789Z','msg':'server started','addr':':8080','workers':4}"
               ++ [x0a]);
            EvPut 0%nat])
  /\ (exists st',
     call time.UTC MError clock0 (st2 time.UTC) (child time.UTC) (bytes "query failed") failed
       = Some st'
     /\ trace st' =
        trace (st2 time.UTC)
        ++ [EvGet 0%nat;
            EvWrite (Sink 0)
              (json "{'level':'ERROR','ts':'2026-02-17T22:30:00.123456789Z','msg':'query failed','service':'api','error':'file does not exist','table':'users'}"
               ++ [x0a]);
            EvPut 0%nat]).
Proof.
  split.
  - destruct (log_writes_record time.UTC clock0 st1 root
                (mkLogger (Sink 0) 0 0 []) InfoLevel (mkPool defaultPoolConfig [])
                (bytes "server started") [] started
                eq_refl eq_refl eq_refl eq_refl eq_refl) as [H _].
    destruct (H MInfo) as (st' & Hc & Ht & _); [vm_compute; discriminate|].
    exists st'. split; [exact Hc|]. rewrite Ht. vm_compute. reflexivity.
  - destruct (log_writes_record time.UTC clock0 (st2 time.UTC) (child time.UTC)
                (mkLogger (Sink 0) 0 0 (encodeFields time.UTC service)) InfoLevel
                (mkPool defaultPoolConfig [[]])
                (bytes "query failed") service failed
                eq_refl eq_refl eq_refl eq_refl eq_refl) as [H _].
    destruct (H MError) as (st' & Hc & Ht & _); [vm_compute; discriminate|].
    exists st'. split; [exact Hc|]. rewrite Ht. vm_compute. reflexivity.
Defined.

(** C1, counterexample to the claim as stated: in a process one hour east
    of UTC the timestamp written is the local time with its offset, not
    the time in UTC. *)
Lemma log_timestamp_not_UTC :
  trace <$> call CET MInfo clock0 st1 root (bytes "server started") started
  = Some [EvGet 0%nat;
          EvWrite (Sink 0)
            (json "{'level':'INFO','ts':'2026-02-17T23:30:00.123456789+01:00','msg':'server started','addr':':8080','workers':4}"
             ++ [x0a]);
          EvPut 0%nat]
  /\ record_utc CET InfoLevel (time.Now CET clock0) (bytes "server started") [] started
     = json "{'level':'INFO','ts':'2026-02-17T22:30:00.123456789Z','msg':'server started','addr':':8080','workers':4}"
       ++ [x0a]
  /\ json "{'level':'INFO','ts':'2026-02-17T23:30:00.123456789+01:00','msg':'server started','addr':':8080','workers':4}"
     ++ [x0a]
     <> record_utc CET InfoLevel (time.Now CET clock0) (bytes "server started") [] started.
Proof.
  split; [vm_compute; reflexivity|]. split; [vm_compute; reflexivity|].
  intros H. vm_compute in H. discriminate H.
Qed.

(** C2.  For a string [s] of well-formed UTF-8, what
    [appendJSONString dst s] appends to [dst] is read back by a parser of
    JSON strings as [s] itself. *)
Theorem escape_roundtrip dst s :
  utf8_valid s = true ->
  exists out,
    appendJSONString dst s = dst ++ out /\ json_parse_string out = Some s.
Proof.
  intros Hv. exists (appendJSONString [] s). split.
  - apply appendJSONString_dst.
  - now apply roundtrip.
Qed.

(** C2, witness: a string with a quote, a backslash, a line feed, a
    control character, DEL, and text of two, three and four bytes. *)
Lemma escape_roundtrip_witness :
  utf8_valid (bytes "a b" ++ [x22; x5c; x0a; x01; x7f; xc3; xa9; xe2; x82; xac;
                              xf0; x9f; x98; x80]) = true
  /\ exists out,
       appendJSONString (bytes "k:")
         (bytes "a b" ++ [x22; x5c; x0a; x01; x7f; xc3; xa9; xe2; x82; xac;
                          xf0; x9f; x98; x80])
       = bytes "k:" ++ out
       /\ json_parse_string out
          = Some (bytes "a b" ++ [x22; x5c; x0a; x01; x7f; xc3; xa9; xe2; x82; xac;
                                  xf0; x9f; x98; x80]).
Proof.
  split; [reflexivity|].
  apply (escape_roundtrip (bytes "k:")). reflexivity.
Defined.

(** C3.  [appendEscapedString] reads its input in two alternating phases.
    The safe bytes are those of 0x20..0x7E but the quote and the
    backslash; a run of them that ends the input or stands before another
    byte is copied as it is, in one append.  The slow path then takes the
    next byte: it writes the two-character escape of a quote, a backslash,
    a line feed, a carriage return or a tab; [\u00XX] in lowercase
    hexadecimal for another byte below 0x20; a well-formed sequence of
    several bytes unchanged; and the six characters of the escape of U+FFFD where the decoder yields the
    replacement character with length 1, which is the case of every byte
    from 0x80 on that does not start a well-formed sequence.  Nothing is
    written for the empty input, so the phases alternate until the input
    is read. *)
Theorem appendEscapedString_phases :
  (forall b, safeSet b = true <-> 32 <= Z_of_byte b <= 126 /\ b <> x22 /\ b <> x5c)
  /\ (forall dst, appendEscapedString dst [] = dst)
  /\ (forall dst run rest,
        Forall (λ b, safeSet b = true) run ->
        match rest with [] => True | b :: _ => safeSet b = false end ->
        appendEscapedString dst (run ++ rest) = appendEscapedString (dst ++ run) rest)
  /\ (forall dst t,
        appendEscapedString dst (x22 :: t) = appendEscapedString (dst ++ [x5c; x22]) t
        /\ appendEscapedString dst (x5c :: t) = appendEscapedString (dst ++ [x5c; x5c]) t
        /\ appendEscapedString dst (x0a :: t) = appendEscapedString (dst ++ bytes "\n") t
        /\ appendEscapedString dst (x0d :: t) = appendEscapedString (dst ++ bytes "\r") t
        /\ appendEscapedString dst (x09 :: t) = appendEscapedString (dst ++ bytes "\t") t)
  /\ (forall dst b t,
        Z_of_byte b < 32 -> b <> x0a -> b <> x0d -> b <> x09 ->
        appendEscapedString dst (b :: t)
        = appendEscapedString
            (dst ++ bytes "\u00"
                 ++ [lowerHex (Z_of_byte b / 16); lowerHex (Z_of_byte b mod 16)]) t)
  /\ (forall dst u t,
        multibyte u = true ->
        appendEscapedString dst (u ++ t) = appendEscapedString (dst ++ u) t)
  /\ (forall dst b t,
        128 <= Z_of_byte b ->
        utf8.DecodeRuneInString (b :: t) = (utf8.RuneError, 1%nat) ->
        appendEscapedString dst (b :: t) = appendEscapedString (dst ++ [x5c; x75; x66; x66; x66; x64]) t)
  /\ (forall b t,
        128 <= Z_of_byte b ->
        utf8.DecodeRuneInString (b :: t) = (utf8.RuneError, 1%nat)
        \/ exists u t', b :: t = u ++ t' /\ multibyte u = true).
Proof.
  split; [exact safeSet_spec|].
  split; [exact appendEscapedString_nil|].
  split; [exact appendEscapedString_run|].
  split.
  { intros dst t.
    repeat split; apply appendEscapedString_low; reflexivity. }
  split.
  { intros dst b t Hb Hn Hr Ht.
    pose proof (Z_of_byte_range b) as Hrange.
    rewrite appendEscapedString_low.
    - rewrite escapeByte_control by assumption. reflexivity.
    - lia.
    - unfold safeSet. destruct (Z.leb_spec 32 (Z_of_byte b)); [lia|reflexivity]. }
  split; [exact appendEscapedString_multibyte|].
  split; [exact appendEscapedString_invalid|].
  intros b t Hb. destruct (decode_dichotomy b t Hb) as [H|H]; [left; exact H|].
  right. exists (take (utf8.DecodeRuneInString (b :: t)).2 (b :: t)),
                (drop (utf8.DecodeRuneInString (b :: t)).2 (b :: t)).
  split; [symmetry; apply take_drop|exact H].
Qed.

(** C4.  A call of a gated method whose level is below the threshold
    returns at once and leaves the whole state as it was: no buffer is
    taken from the pool, nothing is written, no logger, level or pool
    changes.  The gate is [Enabled], true exactly for the levels from the
    threshold on. *)
Theorem disabled_call_has_no_effect Local m clock st l lg thr msg fields :
  loggers st !! l = Some lg ->
  levels st !! level lg = Some thr -> levelOf m < thr ->
  call Local m clock st l msg fields = Some st
  /\ AtomicLevel_Enabled st (level lg) (levelOf m) = Some false
  /\ (forall lvl, AtomicLevel_Enabled st (level lg) lvl = Some true <-> thr <= lvl).
Proof.
  intros Hl Hlv Hthr. split; [eapply call_disabled; eassumption|].
  split.
  - rewrite Enabled_spec, Hlv. cbn. f_equal. apply Z.leb_gt. lia.
  - intros lvl. rewrite Enabled_iff. unfold AtomicLevel_Level. rewrite Hlv. split.
    + intros (thr' & [= <-] & H). exact H.
    + intros H. exists thr. split; [reflexivity|exact H].
Qed.

(** C4, witness: [Debug], [Info] and [Warn] at the threshold [Error]. *)
Lemma disabled_call_has_no_effect_witness :
  call CET MDebug clock0 st1e root (bytes "skipped") started = Some st1e
  /\ call CET MInfo clock0 st1e root (bytes "skipped") started = Some st1e
  /\ call CET MWarn clock0 st1e root (bytes "skipped") started = Some st1e.
Proof.
  pose proof (λ m H, proj1 (disabled_call_has_no_effect CET m clock0 st1e root
                (mkLogger (Sink 0) 0 0 []) ErrorLevel (bytes "skipped") started
                eq_refl eq_refl H)) as W.
  exact (conj (W MDebug eq_refl) (conj (W MInfo eq_refl) (W MWarn eq_refl))).
Defined.

(** C5.  [With] without fields returns the receiver and changes nothing.
    With fields, on a logger whose pool hands out a cleared buffer, it
    returns a new logger with the output, the level gate and the pool of
    the receiver, and as context that of the receiver followed by the
    encoding of each field after a comma, in order; every logger there
    was, the receiver among them, is as before. *)
Theorem With_child Local st l :
  Logger_With Local st l [] = Some (st, l)
  /\ forall lg pl fields,
       loggers st !! l = Some lg ->
       pools st !! pool lg = Some pl -> hd [] (idle pl) = [] ->
       fields <> [] ->
       exists st' c,
         Logger_With Local st l fields = Some (st', c)
         /\ loggers st !! c = None /\ c <> l
         /\ loggers st' !! c
            = Some (mkLogger (output lg) (level lg) (pool lg)
                      (context lg ++ encodeFields Local fields))
         /\ (forall l' lg', loggers st !! l' = Some lg' -> loggers st' !! l' = Some lg')
         /\ levels st' = levels st
         /\ trace st' = trace st ++ [EvGet (pool lg); EvPut (pool lg)].
Proof.
  split; [reflexivity|]. intros lg pl fields Hl Hp Hhd Hf.
  pose proof (Logger_With_spec Local st l lg pl fields Hf Hl Hp Hhd) as H.
  cbv zeta in H.
  assert (Hfresh : loggers st !! fresh (dom (loggers st)) = None).
  { apply not_elem_of_dom. apply is_fresh. }
  eexists _, _. split; [exact H|]. cbn [loggers levels trace].
  split; [exact Hfresh|].
  split; [intros E; rewrite E in Hfresh; congruence|].
  split; [apply lookup_insert_eq|].
  split; [|split; reflexivity].
  intros l' lg' Hl'. rewrite lookup_insert_ne; [exact Hl'|].
  intros E. rewrite <- E in Hl'. congruence.
Qed.

(** C5, witness: a child of the root logger of the examples. *)
Lemma With_child_witness :
  Logger_With CET st1 root [] = Some (st1, root)
  /\ exists st' c,
       Logger_With CET st1 root service = Some (st', c)
       /\ loggers st1 !! c = None /\ c <> root
       /\ loggers st' !! c
          = Some (mkLogger (Sink 0) 0 0 ([] ++ encodeFields CET service))
       /\ (forall l' lg', loggers st1 !! l' = Some lg' -> loggers st' !! l' = Some lg')
       /\ levels st' = levels st1
       /\ trace st' = trace st1 ++ [EvGet 0%nat; EvPut 0%nat].
Proof.
  destruct (With_child CET st1 root) as [H0 H1].
  split; [exact H0|].
  apply (H1 (mkLogger (Sink 0) 0 0 []) (mkPool defaultPoolConfig []) service);
    [reflexivity|reflexivity|reflexivity|discriminate].
Defined.

(** C6.  [Fatal] does not consult the level gate: whatever the threshold,
    it takes a buffer, writes the record of level FATAL in one call of
    [Write], returns the buffer, and then ends the process with exit
    code 1. *)
Theorem Fatal_writes_then_exits Local clock st l lg thr pl msg fields :
  loggers st !! l = Some lg ->
  levels st !! level lg = Some thr ->
  pools st !! pool lg = Some pl -> hd [] (idle pl) = [] ->
  exists st',
    Logger_Fatal Local clock st l msg fields = Some st'
    /\ trace st' = trace st ++ [EvGet (pool lg);
                                EvWrite (output lg)
                                  (record Local FatalLevel (time.Now Local clock) msg
                                     (context lg) fields);
                                EvPut (pool lg);
                                EvExit 1]
    /\ Level_String FatalLevel = bytes "FATAL"
    /\ levels st' = levels st.
Proof.
  intros Hl _ Hp Hhd. eexists. split; [eapply Logger_Fatal_spec; eassumption|].
  cbn [trace levels]. repeat split; reflexivity.
Qed.

(** C6, witness: [Fatal] on a logger whose threshold was set above
    [FatalLevel]. *)
Lemma Fatal_writes_then_exits_witness :
  exists st1f st',
    Logger_SetLevel st1 root 4 = Some st1f
    /\ Logger_Fatal CET clock0 st1f root (bytes "giving up") [] = Some st'
    /\ trace st' = trace st1f ++ [EvGet 0%nat;
                                  EvWrite (Sink 0)
                                    (record CET FatalLevel (time.Now CET clock0)
                                       (bytes "giving up") [] []);
                                  EvPut 0%nat;
                                  EvExit 1]
    /\ Level_String FatalLevel = bytes "FATAL"
    /\ levels st' = levels st1f.
Proof.
  eexists. 
  destruct (Fatal_writes_then_exits CET clock0
              (mkState (loggers st1) (<[0%nat := 4]> (levels st1)) (pools st1) (trace st1))
              root (mkLogger (Sink 0) 0 0 []) 4 (mkPool defaultPoolConfig [])
              (bytes "giving up") []) as (st' & H);
    [reflexivity|reflexivity|reflexivity|reflexivity|].
  exists st'. split; [reflexivity|exact H].
Defined.

(** C7.  [Err] of the nil error is the field of type String with key
    ["error"] and the empty string as value; [Err] of an error [e] is the
    field of type Error with key ["error"] and [e.Error()] as value.  Every
    other constructor gives its field the key it is called with. *)
Theorem Err_field :
  Err None = mkField (bytes "error") StringType 0 [] []
  /\ (forall e, Err (Some e) = mkField (bytes "error") ErrorType 0 (error_Error e) [])
  /\ (forall key,
        (forall v, Key (String key v) = key)
        /\ (forall v, Key (Int key v) = key)
        /\ (forall v, Key (Int64 key v) = key)
        /\ (forall v, Key (Float64 key v) = key)
        /\ (forall v, Key (Bool key v) = key)
        /\ (forall v, Key (Duration key v) = key)
        /\ (forall v, Key (Time key v) = key)
        /\ (forall v, Key (Bytes key v) = key)).
Proof. repeat split. Qed.

(** C8.  For an [int64] [v], [appendInt64] appends the decimal
    representation of [v]: ["0"] for zero, a ['-'] and the digits of the
    magnitude for a negative number, and so for the minimum [int64],
    which it does not negate. *)
Theorem appendInt64_correct dst v :
  int64_range v ->
  appendInt64 dst v = dst ++ decimal v
  /\ (v = 0 -> appendInt64 dst v = dst ++ bytes "0")
  /\ (v < 0 -> appendInt64 dst v = dst ++ bytes "-" ++ decimal (- v))
  /\ appendInt64 dst int64_min = dst ++ bytes "-9223372036854775808".
Proof.
  intros Hv. split; [now apply appendInt64_decimal|].
  split; [intros ->; reflexivity|].
  split.
  - intros Hneg. rewrite appendInt64_decimal by assumption.
    rewrite decimal_neg by assumption. reflexivity.
  - unfold appendInt64. cbn. rewrite <- app_assoc. reflexivity.
Qed.

(** C8, witness: a negative number next to the minimum. *)
Lemma appendInt64_correct_witness :
  int64_range (-9223372036854775807)
  /\ appendInt64 (bytes "n=") (-9223372036854775807)
     = bytes "n=" ++ bytes "-9223372036854775807".
Proof.
  split; [unfold int64_range, int64_min, int64_max; lia|].
  destruct (appendInt64_correct (bytes "n=") (-9223372036854775807)) as [H _].
  - unfold int64_range, int64_min, int64_max. lia.
  - rewrite H. reflexivity.
Defined.

(** C9, at the input on which the code fails.  For the float nearest to
    1.9999996 the fraction 0.9999996 times 1e6 rounds to 1000000, which
    has seven digits; the six that are written are its low ones, all
    zero, and the carry into the integer part is lost: the output is
    ["1.0"]. *)
Theorem appendFloat64_carry_lost :
  f64.valid f1_9999996 = true
  /\ f64.to_int64 f1_9999996 = 1
  /\ f64.to_int64
       (math.Round (f64.mul (f64.sub f1_9999996 (f64.of_int 1)) f1e6)) = 1000000
  /\ appendFloat64 [] f1_9999996 = bytes "1.0".
Proof. repeat split; vm_compute; reflexivity. Qed.

(** C10.  A byte 0x7F is not safe and is below [utf8.RuneSelf], though
    not below 0x20; wherever it stands in the input, what is written for
    it is the escape [\u007f], between the escaping of what precedes and
    the escaping of what follows. *)
Theorem DEL_is_escaped :
  safeSet x7f = false
  /\ Z_of_byte x7f < utf8.RuneSelf
  /\ 32 <= Z_of_byte x7f
  /\ forall dst s1 s2,
       appendEscapedString dst (s1 ++ x7f :: s2)
       = appendEscapedString dst s1 ++ bytes "\u007f" ++ appendEscapedString [] s2.
Proof.
  split; [reflexivity|]. split; [reflexivity|]. split; [vm_compute; discriminate|].
  intros dst s1 s2.
  rewrite appendEscapedString_ascii_boundary by reflexivity.
  rewrite appendEscapedString_low by reflexivity.
  rewrite appendEscapedString_dst, <- app_assoc. reflexivity.
Qed.

(** * Further properties of the code *)

(** ** The escaper on arbitrary input *)

Lemma sanitize_ascii b s :
  Z_of_byte b <= 127 -> sanitize (b :: s) = b :: sanitize s.
Proof.
  intros Hb. cbn [sanitize].
  destruct (Z.leb_spec (Z_of_byte b) 127); [reflexivity|lia].
Qed.

Lemma sanitize_multibyte u t :
  multibyte u = true -> sanitize (u ++ t) = u ++ sanitize t.
Proof.
  intros Hu.
  destruct u as [|b0 [|b1 [|b2 [|b3 [|b4 u]]]]]; try discriminate;
    cbn [app sanitize].
  - pose proof (multibyte_high _ Hu) as Hh. inversion_clear Hh.
    destruct (Z.leb_spec (Z_of_byte b0) 127); [lia|]. now rewrite Hu.
  - pose proof (multibyte_high _ Hu) as Hh. inversion_clear Hh.
    destruct (Z.leb_spec (Z_of_byte b0) 127); [lia|].
    replace (multibyte [b0; b1]) with false; [now rewrite Hu|].
    symmetry. cbn [multibyte] in *. unfold between, tail_byte in *.
    apply andb_false_intro1. zhyps; zcases; simpl; try reflexivity; lia.
  - pose proof (multibyte_high _ Hu) as Hh. inversion_clear Hh.
    destruct (Z.leb_spec (Z_of_byte b0) 127); [lia|].
    replace (multibyte [b0; b1]) with false.
    2:{ symmetry. cbn [multibyte] in *. unfold between, tail_byte in *.
        apply andb_false_intro1. zhyps; zcases; simpl; try reflexivity; lia. }
    replace (multibyte [b0; b1; b2]) with false; [now rewrite Hu|].
    symmetry. cbn [multibyte] in *. unfold between, tail_byte in *.
    assert (240 <= Z_of_byte b0) by (zhyps; lia).
    clear Hu. zcases; simpl; try reflexivity; lia.
Qed.

Lemma sanitize_invalid b t :
  128 <= Z_of_byte b ->
  (forall u t', b :: t = u ++ t' -> multibyte u = false) ->
  sanitize (b :: t) = replacement ++ sanitize t.
Proof.
  intros Hb Hno. cbn [sanitize].
  destruct (Z.leb_spec (Z_of_byte b) 127); [lia|].
  destruct t as [|b1 t]; [reflexivity|].
  rewrite (Hno [b; b1] t eq_refl).
  destruct t as [|b2 t]; [reflexivity|].
  rewrite (Hno [b; b1; b2] t eq_refl).
  destruct t as [|b3 t]; [reflexivity|].
  rewrite (Hno [b; b1; b2; b3] t eq_refl). reflexivity.
Qed.

(** Every turn of the escaper reads one piece. *)
Lemma escape_head b s :
  exists u e p t,
    b :: s = u ++ t /\ piece u e p
    /\ (forall dst, appendEscapedString dst (b :: s) = appendEscapedString (dst ++ e) t)
    /\ sanitize (b :: s) = p ++ sanitize t.
Proof.
  destruct (Z.leb_spec (Z_of_byte b) 127) as [Hlow|Hhigh].
  - destruct (safeSet b) eqn:Hs.
    + exists [b], [b], [b], s. split; [reflexivity|]. split; [now constructor|].
      split; [intros; now apply appendEscapedString_safe|].
      now apply sanitize_ascii.
    + exists [b], (escapeByte b), [b], s. split; [reflexivity|].
      split; [constructor; [lia|assumption]|].
      split; [intros; apply appendEscapedString_low; [lia|assumption]|].
      now apply sanitize_ascii.
  - destruct (decode_dichotomy b s) as [Hd|Hd]; [lia| |].
    + exists [b], [x5c; x75; x66; x66; x66; x64], replacement, s.
      split; [reflexivity|]. split; [constructor; lia|].
      split; [intros; apply appendEscapedString_invalid; [lia|assumption]|].
      apply sanitize_invalid; [lia|].
      intros u t' E. destruct (multibyte u) eqn:Hu; [|reflexivity].
      pose proof (decode_multibyte u t' Hu) as Hlen.
      rewrite <- E, Hd in Hlen. cbn [snd] in Hlen.
      destruct u as [|? [|? u]]; discriminate.
    + set (n := (utf8.DecodeRuneInString (b :: s)).2) in *.
      exists (take n (b :: s)), (take n (b :: s)), (take n (b :: s)), (drop n (b :: s)).
      split; [symmetry; apply take_drop|]. split; [now constructor|].
      split.
      * intros dst. rewrite <- (take_drop n (b :: s)) at 1.
        now apply appendEscapedString_multibyte.
      * rewrite <- (take_drop n (b :: s)) at 1. now apply sanitize_multibyte.
Qed.

Lemma piece_nonempty u e p : piece u e p -> (0 < length u)%nat.
Proof.
  destruct 1; cbn [length]; try lia.
  destruct u; [discriminate|]. cbn [length]. lia.
Qed.

(** Induction on the pieces of a string. *)
Lemma piece_ind_string (P : list byte -> Prop) :
  P [] ->
  (forall u e p t,
     piece u e p ->
     (forall dst, appendEscapedString dst (u ++ t) = appendEscapedString (dst ++ e) t) ->
     sanitize (u ++ t) = p ++ sanitize t ->
     P t -> P (u ++ t)) ->
  forall s, P s.
Proof.
  intros H0 Hstep s.
  induction s as [s IH] using (induction_ltof1 _ (@length byte)).
  unfold ltof in IH. destruct s as [|b s]; [exact H0|].
  destruct (escape_head b s) as (u & e & p & t & E & Hp & Happ & Hsan).
  rewrite E in *. apply (Hstep u e p t Hp Happ Hsan).
  apply IH. rewrite length_app. pose proof (piece_nonempty _ _ _ Hp). lia.
Qed.

Lemma json_chars_fffd X :
  json_chars ([x5c; x75; x66; x66; x66; x64] ++ X) = (replacement ++.) <$> json_chars X.
Proof. reflexivity. Qed.

Lemma json_chars_piece u e p X :
  piece u e p -> json_chars (e ++ X) = (p ++.) <$> json_chars X.
Proof.
  destruct 1.
  - cbn [app]. rewrite json_chars_safe by assumption. reflexivity.
  - rewrite json_chars_escapeByte by assumption. reflexivity.
  - apply json_chars_high_run. now apply multibyte_high.
  - apply json_chars_fffd.
Qed.

Lemma json_chars_sanitize s :
  json_chars (appendEscapedString [] s ++ [x22]) = Some (sanitize s).
Proof.
  induction s as [|u e p t Hp Happ Hsan IH] using piece_ind_string; [reflexivity|].
  rewrite Happ, appendEscapedString_dst, Hsan. cbn [app]. rewrite <- app_assoc.
  rewrite (json_chars_piece _ _ _ _ Hp), IH. reflexivity.
Qed.

Lemma utf8_valid_ascii b s :
  Z_of_byte b <= 127 -> utf8_valid (b :: s) = utf8_valid s.
Proof.
  intros Hb. cbn [utf8_valid].
  destruct (Z.leb_spec (Z_of_byte b) 127); [reflexivity|lia].
Qed.

Lemma utf8_valid_ascii_run e s :
  Forall (λ b, Z_of_byte b <= 127) e -> utf8_valid (e ++ s) = utf8_valid s.
Proof.
  induction 1 as [|b e Hb _ IH]; [reflexivity|].
  cbn [app]. now rewrite utf8_valid_ascii.
Qed.

Lemma utf8_valid_multibyte_app u t :
  multibyte u = true -> utf8_valid (u ++ t) = utf8_valid t.
Proof.
  intros Hu.
  pose proof (multibyte_high _ Hu) as Hh.
  destruct u as [|b0 [|b1 [|b2 [|b3 [|b4 u]]]]]; try discriminate;
    inversion_clear Hh; cbn [app utf8_valid];
    (destruct (Z.leb_spec (Z_of_byte b0) 127); [lia|]);
    cbn [multibyte] in Hu.
  - apply andb_prop in Hu as [-> ->]. reflexivity.
  - replace (between 194 223 b0) with false
      by (symmetry; unfold between, tail_byte in *; zhyps; zcases; simpl; try reflexivity; lia).
    destruct (between 224 224 b0) eqn:Ea.
    { cbn [andb orb] in Hu. apply orb_prop in Hu as [Hu|Hu].
      - apply orb_prop in Hu as [Hu|Hu].
        + apply orb_prop in Hu as [Hu|Hu].
          * apply andb_prop in Hu as [-> ->]. reflexivity.
          * exfalso. unfold between, tail_byte in *. zhyps; lia.
        + exfalso. unfold between, tail_byte in *. zhyps; lia.
      - exfalso. unfold between, tail_byte in *. zhyps; lia. }
    cbn [andb orb] in Hu.
    destruct (between 225 236 b0) eqn:Eb.
    { apply orb_prop in Hu as [Hu|Hu].
      - apply orb_prop in Hu as [Hu|Hu].
        + cbn [andb] in Hu. apply andb_prop in Hu as [-> ->]. reflexivity.
        + exfalso. unfold between, tail_byte in *. zhyps; lia.
      - exfalso. unfold between, tail_byte in *. zhyps; lia. }
    cbn [andb orb] in Hu.
    destruct (between 237 237 b0) eqn:Ec.
    { apply orb_prop in Hu as [Hu|Hu].
      - cbn [andb] in Hu. apply andb_prop in Hu as [-> ->]. reflexivity.
      - exfalso. unfold between, tail_byte in *. zhyps; lia. }
    cbn [andb orb] in Hu.
    apply andb_prop in Hu as [Hu ->]. apply andb_prop in Hu as [-> ->]. reflexivity.
  - replace (between 194 223 b0) with false
      by (symmetry; unfold between, tail_byte in *; zhyps; zcases; simpl; try reflexivity; lia).
    replace (between 224 224 b0) with false
      by (symmetry; unfold between, tail_byte in *; zhyps; zcases; simpl; try reflexivity; lia).
    replace (between 225 236 b0) with false
      by (symmetry; unfold between, tail_byte in *; zhyps; zcases; simpl; try reflexivity; lia).
    replace (between 237 237 b0) with false
      by (symmetry; unfold between, tail_byte in *; zhyps; zcases; simpl; try reflexivity; lia).
    replace (between 238 239 b0) with false
      by (symmetry; unfold between, tail_byte in *; zhyps; zcases; simpl; try reflexivity; lia).
    destruct (between 240 240 b0) eqn:Ea.
    { cbn [andb orb] in Hu. apply orb_prop in Hu as [Hu|Hu].
      - apply orb_prop in Hu as [Hu|Hu].
        + apply andb_prop in Hu as [Hu ->]. apply andb_prop in Hu as [-> ->]. reflexivity.
        + exfalso. unfold between, tail_byte in *. zhyps; lia.
      - exfalso. unfold between, tail_byte in *. zhyps; lia. }
    cbn [andb orb] in Hu.
    destruct (between 241 243 b0) eqn:Eb.
    { apply orb_prop in Hu as [Hu|Hu].
      - cbn [andb] in Hu. apply andb_prop in Hu as [Hu ->].
        apply andb_prop in Hu as [-> ->]. reflexivity.
      - exfalso. unfold between, tail_byte in *. zhyps; lia. }
    cbn [andb orb] in Hu.
    apply andb_prop in Hu as [Hu ->]. apply andb_prop in Hu as [Hu ->].
    apply andb_prop in Hu as [-> ->]. reflexivity.
Qed.

Lemma escapeByte_ascii b :
  Z_of_byte b < 128 -> safeSet b = false ->
  Forall (λ c, printable c = true /\ Z_of_byte c <= 127) (escapeByte b)
  /\ (2 <= length (escapeByte b) <= 6)%nat.
Proof.
  intros Hb Hs.
  destruct b; try (exfalso; vm_compute in Hb; discriminate Hb);
    try discriminate Hs;
    (split; [repeat constructor; vm_compute; congruence|vm_compute; split; lia]).
Qed.

Lemma piece_written u e p :
  piece u e p ->
  Forall (λ c, printable c = true) e
  /\ (forall X, utf8_valid (e ++ X) = utf8_valid X)
  /\ (forall X, utf8_valid (p ++ X) = utf8_valid X)
  /\ (length u <= length e <= 6 * length u)%nat.
Proof.
  destruct 1 as [b Hs|b Hb Hs|u Hu|b Hb].
  - apply safeSet_spec in Hs as (Hr & _ & _).
    split; [|split; [|split]].
    + repeat constructor. unfold printable. zcases; simpl; try reflexivity; lia.
    + intros X. apply utf8_valid_ascii. lia.
    + intros X. apply utf8_valid_ascii. lia.
    + cbn [length]. lia.
  - destruct (escapeByte_ascii b Hb Hs) as [Hall Hlen].
    split; [|split; [|split]].
    + eapply Forall_impl; [exact Hall|]. now intros c [? _].
    + intros X. apply utf8_valid_ascii_run.
      eapply Forall_impl; [exact Hall|]. now intros c [_ ?].
    + intros X. apply utf8_valid_ascii. lia.
    + cbn [length]. lia.
  - split; [|split; [|split]].
    + eapply Forall_impl; [apply multibyte_high; exact Hu|].
      intros c Hc. cbv beta in Hc. unfold printable.
      zcases; simpl; try reflexivity; lia.
    + intros X. now apply utf8_valid_multibyte_app.
    + intros X. now apply utf8_valid_multibyte_app.
    + lia.
  - split; [|split; [|split]].
    + repeat constructor.
    + intros X. reflexivity.
    + intros X. now apply (utf8_valid_multibyte_app replacement).
    + cbn [length]. lia.
Qed.

Lemma sanitize_valid s : utf8_valid (sanitize s) = true.
Proof.
  induction s as [|u e p t Hp Happ Hsan IH] using piece_ind_string; [reflexivity|].
  rewrite Hsan. destruct (piece_written _ _ _ Hp) as (_ & _ & Hv & _).
  now rewrite Hv.
Qed.

Lemma sanitize_of_valid s : utf8_valid s = true -> sanitize s = s.
Proof.
  induction s as [s IH] using (induction_ltof1 _ (@length byte)).
  unfold ltof in IH. intros Hv.
  destruct s as [|b0 s]; [reflexivity|].
  destruct (Z.leb_spec (Z_of_byte b0) 127) as [Hlow|Hhigh].
  - rewrite sanitize_ascii by assumption.
    rewrite utf8_valid_ascii in Hv by assumption.
    rewrite IH; [reflexivity|simpl; lia|assumption].
  - destruct (utf8_valid_multibyte b0 s) as (u & t & E & Hu & Ht); [lia|assumption|].
    rewrite E, sanitize_multibyte by assumption.
    rewrite IH; [reflexivity| |assumption].
    rewrite E, length_app. destruct u; [discriminate|]. simpl. lia.
Qed.

(** X1.  Whatever the bytes of [s], what [appendJSONString dst s] appends
    to [dst] is a JSON string: a parser reads it back as [s] with every
    byte that is not part of a well-formed UTF-8 sequence replaced by
    U+FFFD, which is well-formed UTF-8, and is [s] itself exactly when [s]
    is well-formed. *)
Theorem escape_parses_any dst s :
  exists out,
    appendJSONString dst s = dst ++ out
    /\ json_parse_string out = Some (sanitize s)
    /\ utf8_valid (sanitize s) = true
    /\ (sanitize s = s <-> utf8_valid s = true).
Proof.
  exists (x22 :: appendEscapedString [] s ++ [x22]).
  split; [apply appendJSONString_eq|].
  split.
  - cbn [json_parse_string]. apply json_chars_sanitize.
  - split; [apply sanitize_valid|]. split.
    + intros E. rewrite <- E. apply sanitize_valid.
    + apply sanitize_of_valid.
Qed.

(** X2.  Whatever the bytes of [s], the escaping of [s] is well-formed
    UTF-8 and holds no control character and no DEL: every byte of it is
    at least 0x20 and is not 0x7F. *)
Theorem escape_output_printable s :
  utf8_valid (appendEscapedString [] s) = true
  /\ Forall (λ b, printable b = true) (appendEscapedString [] s).
Proof.
  induction s as [|u e p t Hp Happ Hsan [IHv IHp]] using piece_ind_string;
    [split; [reflexivity|constructor]|].
  destruct (piece_written _ _ _ Hp) as (Hpr & Hv & _ & _).
  rewrite Happ, appendEscapedString_dst. cbn [app]. split.
  - now rewrite Hv.
  - apply Forall_app. now split.
Qed.

(** X3.  The escaping of [s] is never shorter than [s] and at most six
    times as long. *)
Theorem escape_length s :
  (length s <= length (appendEscapedString [] s) <= 6 * length s)%nat.
Proof.
  induction s as [|u e p t Hp Happ Hsan IH] using piece_ind_string;
    [cbn; lia|].
  destruct (piece_written _ _ _ Hp) as (_ & _ & _ & Hlen).
  rewrite Happ, appendEscapedString_dst. cbn [app]. rewrite !length_app. lia.
Qed.

(** X4.  Escaping distributes over concatenation after a well-formed
    string: escaping [s1 ++ s2] is escaping [s1], then [s2]. *)
Theorem escape_app dst s1 s2 :
  utf8_valid s1 = true ->
  appendEscapedString dst (s1 ++ s2)
  = appendEscapedString (appendEscapedString dst s1) s2.
Proof.
  revert dst.
  induction s1 as [s1 IH] using (induction_ltof1 _ (@length byte)).
  unfold ltof in IH. intros dst Hv.
  destruct s1 as [|b0 s1]; [reflexivity|].
  destruct (Z.leb_spec (Z_of_byte b0) 127) as [Hlow|Hhigh].
  - rewrite utf8_valid_ascii in Hv by assumption.
    cbn [app]. destruct (safeSet b0) eqn:Hs.
    + rewrite !(appendEscapedString_safe _ b0) by assumption.
      apply IH; [simpl; lia|assumption].
    + rewrite !(appendEscapedString_low _ b0) by (assumption || lia).
      apply IH; [simpl; lia|assumption].
  - destruct (utf8_valid_multibyte b0 s1) as (u & t & E & Hu & Ht); [lia|assumption|].
    rewrite E, <- app_assoc.
    rewrite !(appendEscapedString_multibyte _ u) by assumption.
    apply IH; [|assumption].
    rewrite E, length_app. destruct u; [discriminate|]. simpl. lia.
Qed.

(** X4, witness: a string that ends in a sequence of two bytes, before a
    byte that could continue a sequence. *)
Lemma escape_app_witness :
  utf8_valid [x63; xc3; xa9] = true
  /\ appendEscapedString [] ([x63; xc3; xa9] ++ [xa9; x22])
     = appendEscapedString (appendEscapedString [] [x63; xc3; xa9]) [xa9; x22].
Proof.
  split; [reflexivity|].
  apply (escape_app [] [x63; xc3; xa9] [xa9; x22]). reflexivity.
Defined.

(** ** Numbers *)

Lemma digit_value_digit d :
  0 <= d < 10 -> digit_value (byte_of_Z (d + 48)) = Some d.
Proof.
  intros Hd. unfold digit_value. cbv zeta.
  rewrite Z_of_byte_of_Z by lia.
  destruct (Z.leb_spec 48 (d + 48)); [|lia].
  destruct (Z.leb_spec (d + 48) 57); [|lia].
  cbn [andb]. f_equal. lia.
Qed.

Lemma parse_digits_snoc s : forall acc b,
  parse_digits acc (s ++ [b])
  = a ← parse_digits acc s; d ← digit_value b; Some (a * 10 + d).
Proof.
  induction s as [|c s IH]; intros acc b; cbn [app parse_digits].
  - cbn. now destruct (digit_value b).
  - destruct (digit_value c) as [d|]; [|reflexivity]. cbn [mbind option_bind].
    apply IH.
Qed.

(** The digits of a positive number: no leading zero, read back as the
    number, at most [k] of them below [10 ^ k]. *)
Lemma decimal_digits v :
  0 < v ->
  exists b t,
    decimal v = b :: t /\ b <> x30 /\ parse_digits 0 (b :: t) = Some v
    /\ forall k : nat, v < 10 ^ Z.of_nat k -> (length (b :: t) <= k)%nat.
Proof.
  intros Hv. assert (Hv0 : 0 <= v) by lia. revert Hv.
  pattern v. apply Z_lt_induction; [|exact Hv0]. clear v Hv0.
  intros v IH Hv. rewrite decimal_step by assumption.
  destruct (Z.ltb_spec v 10) as [Hlt|Hge].
  - eexists _, _. split; [reflexivity|]. split; [|split].
    + intros E. apply (f_equal Z_of_byte) in E.
      rewrite Z_of_byte_of_Z in E by (rewrite Z.mod_small; lia).
      rewrite Z.mod_small in E by lia. vm_compute Z_of_byte in E. lia.
    + cbn [parse_digits]. rewrite digit_value_digit by (apply Z.mod_pos_bound; lia).
      cbn. rewrite Z.mod_small by lia. reflexivity.
    + intros k Hk. destruct k; [simpl in Hk; lia|]. cbn [length]. lia.
  - destruct (IH (v / 10)) as (b & t & E & Hb & Hp & Hlen).
    + split; [apply Z.div_pos; lia|apply Z.div_lt; lia].
    + apply Z.div_str_pos. lia.
    + rewrite E. exists b, (t ++ [byte_of_Z (v mod 10 + 48)]).
      split; [reflexivity|]. split; [exact Hb|]. split.
      * change (b :: t ++ [byte_of_Z (v mod 10 + 48)])
          with ((b :: t) ++ [byte_of_Z (v mod 10 + 48)]).
        rewrite parse_digits_snoc, Hp. cbn [mbind option_bind].
        rewrite digit_value_digit by (apply Z.mod_pos_bound; lia).
        cbn [mbind option_bind]. f_equal.
        pose proof (Z.div_mod v 10 ltac:(lia)). lia.
      * intros k Hk. destruct k as [|k]; [simpl in Hk; lia|].
        change (b :: t ++ [byte_of_Z (v mod 10 + 48)])
          with ((b :: t) ++ [byte_of_Z (v mod 10 + 48)]).
        rewrite length_app. cbn [length].
        assert ((length (b :: t) <= k)%nat); [|cbn [length] in *; lia].
        apply Hlen. rewrite Nat2Z.inj_succ, Z.pow_succ_r in Hk by lia.
        apply Z.div_lt_upper_bound; lia.
Qed.

Lemma byte_neq_eqb a b : a <> b -> Byte.eqb a b = false.
Proof.
  intros H. destruct (Byte.eqb a b) eqn:E; [|reflexivity].
  apply byte_eqb_eq in E. contradiction.
Qed.

Lemma parse_nat_decimal v :
  0 <= v -> parse_nat (decimal v) = Some v.
Proof.
  intros Hv. destruct (Z.eq_dec v 0) as [->|Hnz]; [reflexivity|].
  destruct (decimal_digits v) as (b & t & E & Hb & Hp & _); [lia|].
  rewrite E. unfold parse_nat.
  rewrite byte_neq_eqb by assumption. exact Hp.
Qed.

(** X5.  For an [int64] [v], what [appendInt64] writes is a JSON integer
    that a parser reads back as [v] (so different numbers are written
    differently), of at least one byte and at most 20, the size of the
    array [buf] of the code. *)
Theorem appendInt64_parses v :
  int64_range v ->
  json_parse_int (appendInt64 [] v) = Some v
  /\ (1 <= length (appendInt64 [] v) <= 20)%nat.
Proof.
  intros Hv. rewrite appendInt64_decimal by assumption. cbn [app].
  unfold int64_range, int64_min, int64_max in Hv.
  destruct (Z.ltb_spec v 0) as [Hneg|Hpos].
  - rewrite decimal_neg by assumption.
    destruct (decimal_digits (- v)) as (b & t & E & Hb & Hp & Hlen); [lia|].
    split.
    + cbn [json_parse_int]. change (Byte.eqb x2d x2d) with true. cbv iota.
      rewrite parse_nat_decimal by lia. cbn. f_equal. lia.
    + rewrite E. cbn [length]. specialize (Hlen 19%nat).
      cbn [length] in Hlen.
      assert (- v < 10 ^ Z.of_nat 19)
        by (change (10 ^ Z.of_nat 19) with 10000000000000000000; lia).
      lia.
  - destruct (Z.eq_dec v 0) as [->|Hnz]; [split; [reflexivity|cbn; lia]|].
    destruct (decimal_digits v) as (b & t & E & Hb & Hp & Hlen); [lia|].
    split.
    + rewrite <- (parse_nat_decimal v) by lia. rewrite E.
      unfold json_parse_int.
      destruct (Byte.eqb b x2d) eqn:Eb; [|reflexivity].
      exfalso. apply byte_eqb_eq in Eb. subst b.
      cbn in Hp. discriminate Hp.
    + rewrite E. specialize (Hlen 19%nat). cbn [length] in *.
      assert (v < 10 ^ Z.of_nat 19)
        by (change (10 ^ Z.of_nat 19) with 10000000000000000000; lia).
      lia.
Qed.

(** X5, witness: the minimum [int64], which has 20 bytes. *)
Lemma appendInt64_parses_witness :
  int64_range int64_min
  /\ json_parse_int (appendInt64 [] int64_min) = Some int64_min
  /\ (1 <= length (appendInt64 [] int64_min) <= 20)%nat.
Proof.
  assert (H : int64_range int64_min)
    by (unfold int64_range, int64_min, int64_max; lia).
  exact (conj H (appendInt64_parses int64_min H)).
Defined.

(** X6.  A negative finite number is written as a minus sign and what is
    written for its magnitude. *)
Theorem appendFloat64_neg dst v :
  math.IsInf v 0 = false -> f64.ltb f64.zero v = true ->
  appendFloat64 dst (f64.neg v) = dst ++ x2d :: appendFloat64 [] v.
Proof.
  intros Hinf Hpos.
  destruct v as [s|s| |s m e]; try discriminate;
    [destruct s; discriminate|].
  destruct s; [discriminate|]. clear Hinf Hpos.
  change (f64.neg (S754_finite false m e)) with (S754_finite true m e).
  unfold appendFloat64. cbn [math.IsNaN math.IsInf].
  change (f64.eqb (S754_finite true m e) f64.zero) with false.
  change (f64.ltb (S754_finite true m e) f64.zero) with true.
  change (f64.eqb (S754_finite false m e) f64.zero) with false.
  change (f64.ltb (S754_finite false m e) f64.zero) with false.
  cbv zeta. cbv iota.
  change (f64.neg (S754_finite true m e)) with (S754_finite false m e).
  destruct (f64.eqb _ _ && f64.ltb _ _).
  - rewrite appendInt64_dst, <- app_assoc. reflexivity.
  - rewrite (appendInt64_dst (dst ++ [x2d])), (appendInt64_dst []).
    rewrite <- !app_assoc. reflexivity.
Qed.

(** X6, witness: 1.5 and its opposite. *)
Lemma appendFloat64_neg_witness :
  math.IsInf (f64.of_decimal 15 1) 0 = false
  /\ f64.ltb f64.zero (f64.of_decimal 15 1) = true
  /\ appendFloat64 [] (f64.neg (f64.of_decimal 15 1))
     = [] ++ x2d :: appendFloat64 [] (f64.of_decimal 15 1).
Proof.
  assert (H1 : math.IsInf (f64.of_decimal 15 1) 0 = false) by (vm_compute; reflexivity).
  assert (H2 : f64.ltb f64.zero (f64.of_decimal 15 1) = true) by (vm_compute; reflexivity).
  exact (conj H1 (conj H2 (appendFloat64_neg [] (f64.of_decimal 15 1) H1 H2))).
Defined.

(** ** The bits of a float64 *)

(** Evaluates the powers of two of the goal and of the context. *)
Ltac pow2 :=
  repeat match goal with
  | |- context [2 ^ Z.pos ?n] =>
      let v := eval vm_compute in (2 ^ Z.pos n) in change (2 ^ Z.pos n) with v
  | H : context [2 ^ Z.pos ?n] |- _ =>
      let v := eval vm_compute in (2 ^ Z.pos n) in change (2 ^ Z.pos n) with v in H
  end.

Lemma wrap64_mod x : wrap64 x mod 2 ^ 64 = x mod 2 ^ 64.
Proof. unfold wrap64. pow2. Z.div_mod_to_equations. lia. Qed.

(** The three fields of a bit pattern. *)
Lemma bit_fields (s : bool) E M :
  0 <= E < 2048 -> 0 <= M < 2 ^ 52 ->
  let B := math.sign_bit s + E * 2 ^ 52 + M in
  Z.testbit B 63 = s
  /\ Z.land (Z.shiftr B 52) 2047 = E
  /\ Z.land B (2 ^ 52 - 1) = M
  /\ 0 <= B < 2 ^ 64.
Proof.
  intros HE HM B. split; [|split; [|split]].
  - rewrite Z.testbit_odd, Z.shiftr_div_pow2 by lia.
    replace (B / 2 ^ 63) with (if s then 1 else 0); [now destruct s|].
    unfold B, math.sign_bit. pow2. destruct s; Z.div_mod_to_equations; lia.
  - change 2047 with (Z.ones 11). rewrite Z.land_ones, Z.shiftr_div_pow2 by lia.
    unfold B, math.sign_bit. pow2. destruct s; Z.div_mod_to_equations; lia.
  - change (2 ^ 52 - 1) with (Z.ones 52). rewrite Z.land_ones by lia.
    unfold B, math.sign_bit. pow2. destruct s; Z.div_mod_to_equations; lia.
  - unfold B, math.sign_bit. pow2. destruct s; lia.
Qed.

Lemma digits2_pos_low m : 2 ^ (Z.pos (digits2_pos m) - 1) <= Z.pos m.
Proof.
  induction m as [m IH|m IH|]; cbn [digits2_pos]; [| |reflexivity];
    rewrite Pos2Z.inj_succ;
    replace (Z.succ (Z.pos (digits2_pos m)) - 1)
      with (Z.succ (Z.pos (digits2_pos m) - 1)) by lia;
    rewrite Z.pow_succ_r by lia; lia.
Qed.

(** The exponent of a float64: that of the subnormal numbers below 53
    bits, and at most 971. *)
Lemma valid_exponent s m e :
  f64.valid (S754_finite s m e) = true ->
  Z.pos m < 2 ^ 53
  /\ (Z.pos m < 2 ^ 52 -> e = -1074)
  /\ -1074 <= e <= 971.
Proof.
  intros Hv. pose proof (valid_mantissa s m e Hv) as Hm.
  unfold f64.valid, valid_binary, bounded, canonical_mantissa, fexp, emin,
    f64.prec, f64.emax in Hv.
  apply andb_prop in Hv as [Hc He]. apply Z.eqb_eq in Hc. apply Z.leb_le in He.
  pose proof (digits2_pos_low m) as Hlow.
  pose proof (digits2_pos_bound m) as Hup.
  split; [exact Hm|]. split; [|lia].
  intros Hsub.
  destruct (Z.le_gt_cases 53 (Z.pos (digits2_pos m))) as [Hd|Hd]; [|lia].
  exfalso.
  assert (2 ^ 52 <= 2 ^ (Z.pos (digits2_pos m) - 1))
    by (apply Z.pow_le_mono_r; lia).
  lia.
Qed.

Lemma Float64bits_range v :
  f64.valid v = true -> 0 <= math.Float64bits v < 2 ^ 64.
Proof.
  intros Hv. destruct v as [s|s| |s m e].
  - unfold math.Float64bits, math.sign_bit. pow2. destruct s; lia.
  - unfold math.Float64bits, math.sign_bit. pow2. destruct s; lia.
  - unfold math.Float64bits. pow2. lia.
  - destruct (valid_exponent s m e Hv) as (Hm & Hsub & He).
    unfold math.Float64bits.
    destruct (Z.ltb_spec (Z.pos m) (2 ^ 52)).
    + pose proof (bit_fields s 0 (Z.pos m) ltac:(lia) ltac:(lia)) as (_ & _ & _ & H').
      cbv zeta in H'. rewrite Z.mul_0_l, Z.add_0_r in H'. exact H'.
    + apply (bit_fields s (e + 1075) (Z.pos m - 2 ^ 52)); [lia|]. pow2. lia.
Qed.

(** The bits of a float64 denote it. *)
Lemma Float64frombits_bits v :
  f64.valid v = true -> math.Float64frombits (math.Float64bits v) = v.
Proof.
  intros Hv. destruct v as [s|s| |s m e].
  - destruct s; reflexivity.
  - destruct s; reflexivity.
  - reflexivity.
  - destruct (valid_exponent s m e Hv) as (Hm & Hsub & He).
    unfold math.Float64bits.
    destruct (Z.ltb_spec (Z.pos m) (2 ^ 52)) as [Hlt|Hge].
    + pose proof (bit_fields s 0 (Z.pos m) ltac:(lia) ltac:(lia)) as (H1 & H2 & H3 & _).
      cbv zeta in H1, H2, H3. rewrite Z.mul_0_l, Z.add_0_r in H1, H2, H3.
      unfold math.Float64frombits. cbv zeta. rewrite H1, H2, H3.
      cbn [Z.eqb Pos2Z.id Z.to_pos]. now rewrite (Hsub Hlt).
    + assert (HM : 0 <= Z.pos m - 2 ^ 52 < 2 ^ 52) by (pow2; lia).
      pose proof (bit_fields s (e + 1075) (Z.pos m - 2 ^ 52) ltac:(lia) HM)
        as (H1 & H2 & H3 & _).
      cbv zeta in H1, H2, H3.
      unfold math.Float64frombits. cbv zeta. rewrite H1, H2, H3.
      destruct (Z.eqb_spec (e + 1075) 0); [lia|].
      destruct (Z.eqb_spec (e + 1075) 2047); [lia|].
      replace (Z.pos m - 2 ^ 52 + 2 ^ 52) with (Z.pos m) by lia.
      replace (e + 1075 - 1075) with e by lia. reflexivity.
Qed.

(** X7.  A field made by [Float64] keeps its value in the bits of [Ival]:
    it is written as the key and what [appendFloat64] writes for the value
    itself, for every float64 (zeros of either sign, subnormal numbers,
    infinities and NaN included). *)
Theorem Float64_field Local dst key v :
  f64.valid v = true ->
  appendField Local dst (Float64 key v) = appendFloat64 (appendKey dst key) v.
Proof.
  intros Hv. unfold appendField, Float64. cbn [Key Type_ Ival].
  rewrite wrap64_mod, Z.mod_small by (now apply Float64bits_range).
  now rewrite Float64frombits_bits.
Qed.

(** X7, witness: the field of -1.5. *)
Lemma Float64_field_witness :
  f64.valid (f64.neg (f64.of_decimal 15 1)) = true
  /\ appendField time.UTC [] (Float64 (bytes "x") (f64.neg (f64.of_decimal 15 1)))
     = appendFloat64 (appendKey [] (bytes "x")) (f64.neg (f64.of_decimal 15 1)).
Proof.
  assert (H : f64.valid (f64.neg (f64.of_decimal 15 1)) = true)
    by (vm_compute; reflexivity).
  exact (conj H (Float64_field time.UTC [] (bytes "x") _ H)).
Defined.

(** ** Fields *)

Lemma wrap64_small x : int64_range x -> wrap64 x = x.
Proof.
  unfold int64_range, int64_min, int64_max, wrap64. intros H. pow2.
  rewrite Z.mod_small; lia.
Qed.

Lemma Unix_UnixNano Local t :
  0 <= time.nsec t < 1000000000 ->
  int64_range (time.sec t * 1000000000 + time.nsec t) ->
  time.Unix Local 0 (time.UnixNano t) = time.In t Local.
Proof.
  intros Hn Hr. unfold time.UnixNano. rewrite wrap64_small by assumption.
  destruct t as [s n l]. cbn [time.sec time.nsec] in *.
  unfold time.Unix, time.In. cbn [time.sec time.nsec].
  set (x := s * 1000000000 + n).
  destruct (Z.ltb_spec x 0) as [Hneg|Hpos]; cbn [orb].
  - cbv zeta.
    assert (Hq : Z.quot x 1000000000 = s + 1 /\ n <> 0 \/ Z.quot x 1000000000 = s /\ n = 0).
    { unfold x in *. Z.to_euclidean_division_equations. nia. }
    destruct Hq as [[Hq Hn0]|[Hq Hn0]]; rewrite Hq.
    + destruct (Z.ltb_spec (x - (s + 1) * 1000000000) 0); [|unfold x in *; lia].
      f_equal; unfold x; lia.
    + destruct (Z.ltb_spec (x - s * 1000000000) 0); [unfold x in *; lia|].
      f_equal; unfold x; lia.
  - destruct (Z.leb_spec 1000000000 x) as [Hbig|Hsmall].
    + cbv zeta.
      assert (Hq : Z.quot x 1000000000 = s).
      { unfold x in *. Z.to_euclidean_division_equations. nia. }
      rewrite Hq.
      destruct (Z.ltb_spec (x - s * 1000000000) 0); [unfold x in *; lia|].
      f_equal; unfold x; lia.
    + f_equal; unfold x in *; lia.
Qed.

(** X8.  A field made by [Time] keeps the instant, in nanoseconds since
    the Unix epoch, and not the location of the value: for an instant that
    fits an [int64], the field is written as the key and that instant
    presented in the local zone of the process, whatever zone the value
    was in. *)
Theorem Time_field Local dst key t :
  0 <= time.nsec t < 1000000000 ->
  int64_range (time.sec t * 1000000000 + time.nsec t) ->
  appendField Local dst (Time key t)
  = appendTime (appendKey dst key) (time.In t Local).
Proof.
  intros Hn Hr. unfold appendField, Time. cbn [Key Type_ Ival].
  now rewrite Unix_UnixNano.
Qed.

(** X8, witness: an instant given in UTC, logged where the local zone is
    an hour ahead. *)
Lemma Time_field_witness :
  appendField CET [] (Time (bytes "at") (time.mkTime 1771367400 123456789 time.UTC))
  = appendTime (appendKey [] (bytes "at"))
      (time.In (time.mkTime 1771367400 123456789 time.UTC) CET)
  /\ appendField CET [] (Time (bytes "at") (time.mkTime 1771367400 123456789 time.UTC))
     = json "'at':'2026-02-17T23:30:00.123456789+01:00'".
Proof.
  split; [|vm_compute; reflexivity].
  apply (Time_field CET [] (bytes "at") (time.mkTime 1771367400 123456789 time.UTC)).
  - cbn [time.nsec]. lia.
  - unfold int64_range, int64_min, int64_max. cbn [time.sec time.nsec]. lia.
Defined.

(** ** Levels *)

(** X9.  [Level.String] names the five levels and is ["UNKNOWN"] for every
    other [int32], the greatest one included, for which [l + 1] wraps
    around to a negative index. *)
Theorem Level_String_cases l :
  - 2 ^ 31 <= l < 2 ^ 31 ->
  Level_String l =
    if l =? DebugLevel then bytes "DEBUG"
    else if l =? InfoLevel then bytes "INFO"
    else if l =? WarnLevel then bytes "WARN"
    else if l =? ErrorLevel then bytes "ERROR"
    else if l =? FatalLevel then bytes "FATAL"
    else bytes "UNKNOWN".
Proof.
  intros Hl. unfold DebugLevel, InfoLevel, WarnLevel, ErrorLevel, FatalLevel.
  destruct (Z.eqb_spec l (-1)) as [->|H1]; [reflexivity|].
  destruct (Z.eqb_spec l 0) as [->|H2]; [reflexivity|].
  destruct (Z.eqb_spec l 1) as [->|H3]; [reflexivity|].
  destruct (Z.eqb_spec l 2) as [->|H4]; [reflexivity|].
  destruct (Z.eqb_spec l 3) as [->|H5]; [reflexivity|].
  unfold Level_String. cbv zeta.
  change (Z.of_nat (length levelNames)) with 5.
  assert (Hidx : wrap32 (l + 1) < 0 \/ 5 <= wrap32 (l + 1)).
  { unfold wrap32. pow2. Z.div_mod_to_equations. lia. }
  destruct (Z.leb_spec 0 (wrap32 (l + 1))); [|reflexivity].
  destruct (Z.ltb_spec (wrap32 (l + 1)) 5); [lia|reflexivity].
Qed.

(** X9, witness: the greatest [int32]. *)
Lemma Level_String_cases_witness :
  - 2 ^ 31 <= 2147483647 < 2 ^ 31
  /\ Level_String 2147483647 = bytes "UNKNOWN".
Proof.
  assert (H : - 2 ^ 31 <= 2147483647 < 2 ^ 31) by (pow2; lia).
  exact (conj H (Level_String_cases 2147483647 H)).
Defined.

(** X10.  An [AtomicLevel] is a cell of its own: [NewAtomicLevel l] makes
    a new one that holds [l] and leaves the others as they are; after
    [SetLevel l] the cell holds [l], [Enabled] is true exactly from [l]
    on, and nothing else has changed. *)
Theorem AtomicLevel_cell st l :
  (let r := NewAtomicLevel st l in
   AtomicLevel_Level st r.2 = None
   /\ AtomicLevel_Level r.1 r.2 = Some l
   /\ forall al, al <> r.2 -> AtomicLevel_Level r.1 al = AtomicLevel_Level st al)
  /\ (forall al st',
        AtomicLevel_SetLevel st al l = Some st' ->
        AtomicLevel_Level st' al = Some l
        /\ (forall l', AtomicLevel_Enabled st' al l' = Some (l <=? l'))
        /\ (forall al', al' <> al -> AtomicLevel_Level st' al' = AtomicLevel_Level st al')
        /\ loggers st' = loggers st /\ pools st' = pools st /\ trace st' = trace st)
  /\ (forall al, AtomicLevel_Level st al = None -> AtomicLevel_SetLevel st al l = None).
Proof.
  split; [|split].
  - cbv zeta. unfold NewAtomicLevel, AtomicLevel_Level. cbn [fst snd levels].
    split; [apply not_elem_of_dom, is_fresh|].
    split; [apply lookup_insert_eq|].
    intros al Hne. now apply lookup_insert_ne.
  - intros al st' H. unfold AtomicLevel_SetLevel in H.
    destruct (levels st !! al); [|discriminate]. cbn in H. injection H as <-.
    unfold AtomicLevel_Level, AtomicLevel_Enabled. cbn [levels loggers pools trace].
    rewrite lookup_insert_eq. repeat split.
    intros al' Hne. now apply lookup_insert_ne.
  - intros al H. unfold AtomicLevel_Level in H. unfold AtomicLevel_SetLevel.
    now rewrite H.
Qed.

(** ** Loggers *)

Lemma fresh_insert_ne {A} (m : gmap nat A) k v : fresh (dom (<[k := v]> m)) <> k.
Proof.
  intros E. apply (is_fresh (dom (<[k := v]> m))). rewrite E.
  apply elem_of_dom. rewrite lookup_insert_eq. eauto.
Qed.

Lemma fresh_lookup {A} (m : gmap nat A) : m !! fresh (dom m) = None.
Proof. apply not_elem_of_dom, is_fresh. Qed.

(** [With], whether it has fields or not. *)
Lemma Logger_With_any Local st l lg pl fields :
  loggers st !! l = Some lg ->
  pools st !! pool lg = Some pl -> hd [] (idle pl) = [] ->
  exists st' c pl',
    Logger_With Local st l fields = Some (st', c)
    /\ loggers st' !! c
       = Some (mkLogger (output lg) (level lg) (pool lg)
                 (context lg ++ encodeFields Local fields))
    /\ (forall l' lg', loggers st !! l' = Some lg' -> loggers st' !! l' = Some lg')
    /\ pools st' !! pool lg = Some pl' /\ hd [] (idle pl') = []
    /\ levels st' = levels st.
Proof.
  intros Hl Hp Hhd. destruct fields as [|f fields].
  - exists st, l, pl. split; [reflexivity|].
    split; [|auto]. rewrite Hl. destruct lg. cbn. now rewrite app_nil_r.
  - pose proof (Logger_With_spec Local st l lg pl (f :: fields)
                  ltac:(discriminate) Hl Hp Hhd) as H.
    cbv zeta in H. eexists _, _, _. split; [exact H|].
    cbn [loggers pools levels]. split; [apply lookup_insert_eq|].
    split.
    + intros l' lg' Hl'. rewrite lookup_insert_ne; [exact Hl'|].
      intros E. rewrite <- E, fresh_lookup in Hl'. discriminate.
    + split; [apply lookup_insert_eq|]. split; reflexivity.
Qed.

(** X11.  A logger made by [With] shares the level gate of its receiver:
    after [SetLevel] on the child, the gate of the receiver, which is that
    of the child, is at the new threshold. *)
Theorem SetLevel_shared_by_With Local st l lg fields st1 c lvl :
  sound st -> loggers st !! l = Some lg ->
  Logger_With Local st l fields = Some (st1, c) ->
  exists st2 lgc,
    Logger_SetLevel st1 c lvl = Some st2
    /\ loggers st2 !! l = Some lg
    /\ loggers st2 !! c = Some lgc /\ level lgc = level lg
    /\ forall x, AtomicLevel_Enabled st2 (level lg) x = Some (lvl <=? x).
Proof.
  intros [Hr Hk] Hl HW.
  destruct (Hk l lg Hl) as [[pl Hp] [thr Hthr]].
  destruct (Logger_With_any Local st l lg pl fields Hl Hp (Hr _ _ Hp))
    as (st' & c' & pl' & HW' & Hc & Hold & _ & _ & Hlv).
  rewrite HW in HW'. injection HW' as <- <-.
  unfold Logger_SetLevel, AtomicLevel_SetLevel. rewrite Hc.
  cbn [mbind option_bind level]. rewrite Hlv, Hthr. cbn [mbind option_bind].
  eexists _, _. split; [reflexivity|]. cbn [loggers].
  split; [now apply Hold|]. split; [exact Hc|]. split; [reflexivity|].
  intros x. unfold AtomicLevel_Enabled. cbn [levels].
  rewrite lookup_insert_eq. reflexivity.
Qed.

(** X11, witness: the threshold of the root logger of the examples, set
    through its child. *)
Lemma SetLevel_shared_by_With_witness :
  exists sb lgc,
    Logger_SetLevel (st2 CET) (child CET) ErrorLevel = Some sb
    /\ loggers sb !! root = Some (mkLogger (Sink 0) 0 0 [])
    /\ loggers sb !! child CET = Some lgc /\ level lgc = 0%nat
    /\ forall x, AtomicLevel_Enabled sb 0 x = Some (ErrorLevel <=? x).
Proof.
  apply (SetLevel_shared_by_With CET st1 root (mkLogger (Sink 0) 0 0 []) service
           (st2 CET) (child CET) ErrorLevel).
  - apply (New_sound st0 (mkConfig (Some (Sink 0)) InfoLevel None)), sound_empty.
  - reflexivity.
  - reflexivity.
Defined.

(** X12.  Loggers made by separate calls of [New] have separate level
    gates: [SetLevel] on the second leaves the threshold of the first at
    what its configuration gave. *)
Theorem SetLevel_roots_independent st cfg1 cfg2 lvl :
  let r1 := New st cfg1 in
  let r2 := New r1.1 cfg2 in
  exists st3 lg1 lg2,
    Logger_SetLevel r2.1 r2.2 lvl = Some st3
    /\ r1.2 <> r2.2
    /\ loggers st3 !! r1.2 = Some lg1
    /\ AtomicLevel_Level st3 (level lg1) = Some (Level cfg1)
    /\ loggers st3 !! r2.2 = Some lg2
    /\ AtomicLevel_Level st3 (level lg2) = Some lvl.
Proof.
  cbv zeta. rewrite (New_eq st cfg1). cbn [fst snd].
  rewrite New_eq. cbn [fst snd loggers levels pools trace].
  set (l1 := fresh (dom (loggers st))).
  set (a1 := fresh (dom (levels st))).
  set (p1 := fresh (dom (pools st))).
  set (lg1 := mkLogger _ a1 p1 []).
  set (L1 := <[l1 := lg1]> (loggers st)).
  set (A1 := <[a1 := Level cfg1]> (levels st)).
  set (l2 := fresh (dom L1)). set (a2 := fresh (dom A1)).
  assert (Hl : l2 <> l1) by apply fresh_insert_ne.
  assert (Ha : a2 <> a1) by apply fresh_insert_ne.
  unfold Logger_SetLevel, AtomicLevel_SetLevel. cbn [loggers levels].
  rewrite lookup_insert_eq. cbn [mbind option_bind level].
  rewrite lookup_insert_eq. cbn [mbind option_bind].
  eexists _, lg1, _. split; [reflexivity|].
  split; [intros E; apply Hl; symmetry; exact E|].
  unfold AtomicLevel_Level. cbn [loggers levels level].
  split; [rewrite lookup_insert_ne by exact Hl; apply lookup_insert_eq|].
  split.
  { rewrite !lookup_insert_ne by exact Ha. apply lookup_insert_eq. }
  split; [apply lookup_insert_eq|].
  cbn [level]. apply lookup_insert_eq.
Qed.

(** X13.  [With] composes: a logger made by [With] of [fs1] and then
    [With] of [fs2] is the same as one made by a single [With] of
    [fs1 ++ fs2]: same output, level gate, pool and context. *)
Theorem With_With Local st l lg pl fs1 fs2 :
  loggers st !! l = Some lg ->
  pools st !! pool lg = Some pl -> hd [] (idle pl) = [] ->
  exists st1 c1 st2 c2 st3 c3 lgc,
    Logger_With Local st l fs1 = Some (st1, c1)
    /\ Logger_With Local st1 c1 fs2 = Some (st2, c2)
    /\ Logger_With Local st l (fs1 ++ fs2) = Some (st3, c3)
    /\ loggers st2 !! c2 = Some lgc
    /\ loggers st3 !! c3 = Some lgc
    /\ lgc = mkLogger (output lg) (level lg) (pool lg)
               (context lg ++ encodeFields Local (fs1 ++ fs2)).
Proof.
  intros Hl Hp Hhd.
  destruct (Logger_With_any Local st l lg pl fs1 Hl Hp Hhd)
    as (st1 & c1 & pl1 & H1 & Hc1 & _ & Hp1 & Hhd1 & _).
  destruct (Logger_With_any Local st1 c1 _ pl1 fs2 Hc1 Hp1 Hhd1)
    as (st2 & c2 & pl2 & H2 & Hc2 & _).
  destruct (Logger_With_any Local st l lg pl (fs1 ++ fs2) Hl Hp Hhd)
    as (st3 & c3 & pl3 & H3 & Hc3 & _).
  cbn [output level pool context] in Hc2.
  rewrite <- app_assoc, <- encodeFields_app in Hc2.
  exists st1, c1, st2, c2, st3, c3. eexists.
  split; [exact H1|]. split; [exact H2|]. split; [exact H3|].
  split; [exact Hc2|]. split; [exact Hc3|]. reflexivity.
Qed.

(** X13, witness: two fields added to the root logger of the examples, one
    after the other and at once. *)
Lemma With_With_witness :
  exists sa c1 sb c2 sc c3 lgc,
    Logger_With CET st1 root service = Some (sa, c1)
    /\ Logger_With CET sa c1 started = Some (sb, c2)
    /\ Logger_With CET st1 root (service ++ started) = Some (sc, c3)
    /\ loggers sb !! c2 = Some lgc
    /\ loggers sc !! c3 = Some lgc
    /\ lgc = mkLogger (Sink 0) 0 0 ([] ++ encodeFields CET (service ++ started)).
Proof.
  apply (With_With CET st1 root (mkLogger (Sink 0) 0 0 [])
           (mkPool defaultPoolConfig []) service started); reflexivity.
Defined.

Lemma New_call Local st cfg m clock msg fields :
  let r := New st cfg in
  let p := fresh (dom (pools st)) in
  exists st',
    call Local m clock r.1 r.2 msg fields = Some st'
    /\ trace st'
       = trace st
         ++ (if Level cfg <=? levelOf m then
               [EvGet p;
                EvWrite (default (SyncWriter Stderr) (Output cfg))
                  (record Local (levelOf m) (time.Now Local clock) msg [] fields);
                EvPut p]
             else []).
Proof.
  cbv zeta. rewrite New_eq. cbn [fst snd].
  set (lg := mkLogger _ _ _ []).
  set (st1 := mkState _ _ _ _).
  assert (Hl : loggers st1 !! fresh (dom (loggers st)) = Some lg)
    by apply lookup_insert_eq.
  assert (Hlv : levels st1 !! level lg = Some (Level cfg)) by apply lookup_insert_eq.
  assert (Hp : pools st1 !! pool lg
               = Some (mkPool (default defaultPoolConfig (PoolConfig_ cfg)) []))
    by apply lookup_insert_eq.
  destruct (Z.leb_spec (Level cfg) (levelOf m)) as [Hen|Hdis].
  - erewrite call_enabled; [|exact Hl|exact Hlv|exact Hen|exact Hp|reflexivity].
    eexists. split; reflexivity.
  - erewrite call_disabled; [|exact Hl|exact Hlv|exact Hdis].
    eexists. split; [reflexivity|]. cbn [trace]. now rewrite app_nil_r.
Qed.

(** X14.  A logger made by [New] is ready for use: a call of a gated
    method on it writes nothing if the level of the method is below the
    level of the configuration, and else takes a buffer from the new pool
    of the logger, writes one record without context fields to the output
    of the configuration, or to standard error if that is nil, and gives
    the buffer back. *)
Theorem New_then_call Local st cfg m clock msg fields :
  let r := New st cfg in
  exists st' p,
    call Local m clock r.1 r.2 msg fields = Some st'
    /\ pools st !! p = None
    /\ trace st'
       = trace st
         ++ (if Level cfg <=? levelOf m then
               [EvGet p;
                EvWrite (match Output cfg with Some w => w | None => Stderr end)
                  (record Local (levelOf m) (time.Now Local clock) msg [] fields);
                EvPut p]
             else []).
Proof.
  cbv zeta. destruct (New_call Local st cfg m clock msg fields) as (st' & H & Ht).
  exists st', (fresh (dom (pools st))). split; [exact H|].
  split; [apply fresh_lookup|]. rewrite Ht. now destruct (Output cfg).
Qed.

(** X15.  The logger of [Nop] discards its records, but makes them: every
    call of a gated method on it, whatever the level, takes a buffer,
    encodes the record, passes it to [io.Discard] and gives the buffer
    back. *)
Theorem Nop_call Local st m clock msg fields :
  let r := Nop st in
  exists st' p,
    call Local m clock r.1 r.2 msg fields = Some st'
    /\ trace st'
       = trace st
         ++ [EvGet p;
             EvWrite Discard
               (record Local (levelOf m) (time.Now Local clock) msg [] fields);
             EvPut p].
Proof.
  cbv zeta. unfold Nop.
  destruct (New_call Local st (mkConfig (Some Discard) DebugLevel None)
              m clock msg fields) as (st' & H & Ht).
  exists st', (fresh (dom (pools st))). split; [exact H|].
  rewrite Ht. cbn [Level Output default].
  destruct (Z.leb_spec DebugLevel (levelOf m)) as [_|Hlt]; [reflexivity|].
  exfalso. destruct m; cbv in Hlt; discriminate Hlt.
Qed.

(** ** Records are lines of text *)

Lemma plain_text_bool l : forallb plain l = true -> plain_text l.
Proof.
  induction l as [|b l IH]; intros H; [constructor|].
  cbn [forallb] in H. apply andb_prop in H as [Hb Hl].
  constructor; [exact Hb|now apply IH].
Qed.

Lemma plain_snoc b c : plain_text b -> plain c = true -> plain_text (b ++ [c]).
Proof. intros Hb Hc. apply Forall_app. split; [exact Hb|]. now constructor. Qed.

Lemma plain_digit d : -10 < d < 10 -> plain (byte_of_Z (d + 48)) = true.
Proof.
  intros Hd. unfold plain. rewrite Z_of_byte_of_Z by lia.
  apply andb_true_intro. split; apply Z.leb_le; lia.
Qed.

Lemma decimal_plain v : plain_text (decimal v).
Proof.
  assert (Hpos : forall v, 0 < v -> plain_text (decimal v)).
  { clear v. intros v Hv. assert (Hv0 : 0 <= v) by lia. revert Hv.
    pattern v. apply Z_lt_induction; [|exact Hv0]. clear v Hv0.
    intros v IH Hv. rewrite decimal_step by assumption.
    apply Forall_app. split.
    - destruct (Z.ltb_spec v 10); [constructor|].
      apply IH; [|apply Z.div_str_pos; lia].
      split; [apply Z.div_pos; lia|apply Z.div_lt; lia].
    - constructor; [|constructor]. apply plain_digit.
      pose proof (Z.mod_pos_bound v 10 ltac:(lia)). lia. }
  destruct (Z.lt_trichotomy v 0) as [Hneg|[->|Hp]].
  - rewrite decimal_neg by assumption. constructor; [reflexivity|].
    apply Hpos. lia.
  - apply plain_text_bool. reflexivity.
  - now apply Hpos.
Qed.

Lemma appendInt64_plain dst v :
  int64_range v -> plain_text dst -> plain_text (appendInt64 dst v).
Proof.
  intros Hv Hd. rewrite appendInt64_decimal by assumption.
  apply Forall_app. split; [exact Hd|apply decimal_plain].
Qed.

Lemma to_int64_range v : int64_range (f64.to_int64 v).
Proof.
  unfold f64.to_int64, int64_range.
  destruct v as [s|s| |s m e]; try (unfold int64_min, int64_max; lia).
  destruct (Z.leb_spec int64_min (f64.truncZ (S754_finite s m e)));
    destruct (Z.leb_spec (f64.truncZ (S754_finite s m e)) int64_max);
    cbn [andb]; unfold int64_min, int64_max in *; lia.
Qed.

Lemma fracLoop_length n : forall x buf, length (fracLoop n x buf) = length buf.
Proof.
  induction n as [|n IH]; intros x buf; cbn [fracLoop]; [reflexivity|].
  now rewrite IH, length_insert.
Qed.

Lemma fracLoop_plain n : forall x buf,
  (n <= length buf)%nat -> plain_text (drop n buf) ->
  plain_text (fracLoop n x buf).
Proof.
  induction n as [|n IH]; intros x buf Hn Hd; cbn [fracLoop].
  - now rewrite drop_0 in Hd.
  - apply IH; [rewrite length_insert; lia|].
    rewrite insert_take_drop by lia.
    rewrite drop_app_length' by (rewrite length_take; lia).
    constructor; [|exact Hd].
    apply plain_digit. Z.to_euclidean_division_equations. lia.
Qed.

Lemma appendFloat64_plain dst v :
  plain_text dst -> plain_text (appendFloat64 dst v).
Proof.
  intros Hd. unfold appendFloat64.
  destruct (math.IsNaN v);
    [apply Forall_app; split; [exact Hd|apply plain_text_bool; reflexivity]|].
  destruct (math.IsInf v 1);
    [apply Forall_app; split; [exact Hd|apply plain_text_bool; reflexivity]|].
  destruct (math.IsInf v (-1));
    [apply Forall_app; split; [exact Hd|apply plain_text_bool; reflexivity]|].
  destruct (f64.eqb v f64.zero); [now apply plain_snoc|].
  cbv zeta.
  assert (Hd' : plain_text (if f64.ltb v f64.zero then dst ++ [x2d] else dst)).
  { destruct (f64.ltb v f64.zero); [now apply plain_snoc|exact Hd]. }
  destruct (f64.eqb _ _ && f64.ltb _ _).
  - apply appendInt64_plain; [apply to_int64_range|exact Hd'].
  - apply Forall_app. split.
    + apply plain_snoc; [|reflexivity].
      apply appendInt64_plain; [apply to_int64_range|exact Hd'].
    + apply Forall_take. apply fracLoop_plain; [cbn; lia|]. constructor.
Qed.

Lemma time_appendInt_plain b x w :
  plain_text b -> plain_text (time.appendInt b x w).
Proof.
  intros Hb. unfold time.appendInt. cbv zeta.
  apply Forall_app. split.
  - destruct (x <? 0); [now apply plain_snoc|exact Hb].
  - apply Forall_app. split; [|apply decimal_plain].
    apply Forall_replicate. reflexivity.
Qed.

Lemma trimZeros_plain l : plain_text l -> plain_text (time.trimZeros l).
Proof.
  induction 1 as [|b l Hb Hl IH]; [constructor|].
  cbn [time.trimZeros].
  destruct (Byte.eqb b x30) eqn:E.
  - apply byte_eqb_eq in E. subst b. exact IH.
  - apply byte_eqb_neq in E.
    destruct b; try (now constructor). contradiction.
Qed.

Lemma time_appendNano_plain b n :
  plain_text b -> plain_text (time.appendNano b n).
Proof.
  intros Hb. unfold time.appendNano. destruct (n =? 0); [exact Hb|].
  apply Forall_app. split; [exact Hb|]. constructor; [reflexivity|].
  apply Forall_rev, trimZeros_plain, Forall_rev.
  apply time_appendInt_plain. constructor.
Qed.

Lemma AppendFormat_plain t b :
  plain_text b -> plain_text (time.AppendFormat_RFC3339Nano t b).
Proof.
  intros Hb. unfold time.AppendFormat_RFC3339Nano. cbv zeta.
  destruct (time.civil _) as [[year month] day].
  destruct (_ =? 0); [|destruct (_ <? 0)];
    repeat first [exact Hb
                 |apply time_appendInt_plain
                 |apply time_appendNano_plain
                 |apply plain_snoc; [|reflexivity]].
Qed.

Lemma Level_String_plain l : plain_text (Level_String l).
Proof.
  unfold Level_String. cbv zeta.
  destruct (_ && _) eqn:E; [|apply plain_text_bool; reflexivity].
  apply andb_prop in E as [H0 H5]. apply Z.leb_le in H0. apply Z.ltb_lt in H5.
  change (Z.of_nat (length levelNames)) with 5 in H5.
  assert (Hk : (Z.to_nat (wrap32 (l + 1)) < 5)%nat) by lia.
  revert Hk. generalize (Z.to_nat (wrap32 (l + 1))). intros k Hk.
  do 5 (destruct k as [|k]; [apply plain_text_bool; reflexivity|]). lia.
Qed.

(** Text of ASCII is tidy, and tidy text can be concatenated. *)
Lemma plain_printable b : plain b = true -> printable b = true /\ Z_of_byte b <= 127.
Proof.
  unfold plain, printable. intros H. apply andb_prop in H as [H1 H2].
  apply Z.leb_le in H1, H2. split; [|lia].
  apply andb_true_intro. split; [now apply Z.leb_le|].
  apply negb_true_iff, Z.eqb_neq. lia.
Qed.

Lemma tidy_plain l : plain_text l -> tidy l.
Proof.
  intros H. split.
  - rewrite <- (app_nil_r l). rewrite utf8_valid_ascii_run; [reflexivity|].
    eapply Forall_impl; [exact H|]. intros b Hb. now apply plain_printable.
  - eapply Forall_impl; [exact H|]. intros b Hb. now apply plain_printable.
Qed.

Lemma utf8_valid_app a : forall b,
  utf8_valid a = true -> utf8_valid (a ++ b) = utf8_valid b.
Proof.
  induction a as [a IH] using (induction_ltof1 _ (@length byte)).
  unfold ltof in IH. intros b Hv.
  destruct a as [|b0 a]; [reflexivity|].
  destruct (Z.leb_spec (Z_of_byte b0) 127) as [Hlow|Hhigh].
  - rewrite utf8_valid_ascii in Hv by assumption. cbn [app].
    rewrite utf8_valid_ascii by assumption.
    apply IH; [simpl; lia|assumption].
  - destruct (utf8_valid_multibyte b0 a) as (u & t & E & Hu & Ht); [lia|assumption|].
    rewrite E, <- app_assoc, utf8_valid_multibyte_app by assumption.
    apply IH; [|assumption].
    rewrite E, length_app. destruct u; [discriminate|]. simpl. lia.
Qed.

Lemma tidy_app a b : tidy a -> tidy b -> tidy (a ++ b).
Proof.
  intros [Hva Hpa] [Hvb Hpb]. split.
  - now rewrite utf8_valid_app.
  - apply Forall_app. now split.
Qed.

Lemma tidy_nil : tidy [].
Proof. split; [reflexivity|constructor]. Qed.

Lemma tidy_escaped s : tidy (appendEscapedString [] s).
Proof.
  induction s as [|u e p t Hp Happ Hsan IH] using piece_ind_string;
    [apply tidy_nil|].
  destruct (piece_written _ _ _ Hp) as (Hpr & Hv & _ & _).
  rewrite Happ, appendEscapedString_dst. cbn [app].
  destruct IH as [IHv IHp]. split.
  - now rewrite Hv.
  - apply Forall_app. now split.
Qed.

Lemma tidy_bytes l : forallb plain l = true -> tidy l.
Proof. intros H. now apply tidy_plain, plain_text_bool. Qed.

Lemma appendJSONString_tidy s : tidy (appendJSONString [] s).
Proof.
  rewrite appendJSONString_eq. cbn [app].
  apply (tidy_app [x22]); [now apply tidy_bytes|].
  apply tidy_app; [apply tidy_escaped|now apply tidy_bytes].
Qed.

Lemma appendKey_tidy key : tidy (appendKey [] key).
Proof.
  unfold appendKey. rewrite appendEscapedString_dst. cbn [app].
  apply (tidy_app [x22]); [now apply tidy_bytes|].
  apply tidy_app; [apply tidy_escaped|now apply tidy_bytes].
Qed.

Lemma appendTime_plain t : plain_text (appendTime [] t).
Proof.
  unfold appendTime. apply plain_snoc; [|reflexivity].
  apply AppendFormat_plain. now apply plain_text_bool.
Qed.

Lemma appendField_tidy Local f : typed f -> tidy (appendField Local [] f).
Proof.
  intros Hf. unfold appendField. cbv zeta.
  rewrite appendKey_dst. cbn [app].
  destruct (Type_ f).
  - rewrite appendJSONString_dst.
    apply tidy_app; [apply appendKey_tidy|apply appendJSONString_tidy].
  - rewrite appendInt64_dst.
    apply tidy_app; [apply appendKey_tidy|].
    apply tidy_plain, appendInt64_plain; [exact Hf|constructor].
  - rewrite appendInt64_dst.
    apply tidy_app; [apply appendKey_tidy|].
    apply tidy_plain, appendInt64_plain; [exact Hf|constructor].
  - rewrite appendFloat64_dst.
    apply tidy_app; [apply appendKey_tidy|].
    apply tidy_plain, appendFloat64_plain. constructor.
  - rewrite appendBool_dst.
    apply tidy_app; [apply appendKey_tidy|].
    destruct (Ival f =? 1); now apply tidy_bytes.
  - rewrite appendDuration_dst.
    apply tidy_app; [apply appendKey_tidy|].
    apply tidy_plain, appendFloat64_plain. constructor.
  - rewrite appendJSONString_dst.
    apply tidy_app; [apply appendKey_tidy|apply appendJSONString_tidy].
  - rewrite appendTime_dst.
    apply tidy_app; [apply appendKey_tidy|].
    apply tidy_plain, appendTime_plain.
  - rewrite appendJSONString_dst.
    apply tidy_app; [apply appendKey_tidy|apply appendJSONString_tidy].
Qed.

Lemma encodeFields_tidy Local fields :
  Forall typed fields -> tidy (encodeFields Local fields).
Proof.
  induction 1 as [|f fields Hf _ IH]; [apply tidy_nil|].
  unfold encodeFields. cbn [fmap list_fmap concat].
  apply (tidy_app (x2c :: appendField Local [] f)); [|exact IH].
  apply (tidy_app [x2c]); [now apply tidy_bytes|now apply appendField_tidy].
Qed.

(** A record is a line: tidy text and then the line feed. *)
Lemma record_line Local lvl t msg ctx fields :
  tidy ctx -> Forall typed fields ->
  exists line,
    record Local lvl t msg ctx fields = line ++ [x0a] /\ tidy line.
Proof.
  intros Hctx Hf. unfold record.
  eexists. split.
  - rewrite !app_assoc. reflexivity.
  - repeat apply tidy_app;
      first [now apply tidy_bytes
            |apply tidy_plain, Level_String_plain
            |apply tidy_plain, AppendFormat_plain; constructor
            |apply tidy_escaped
            |exact Hctx
            |now apply encodeFields_tidy].
Qed.

(** ** Programs *)

Lemma line_event_record Local w lvl t msg ctx fields :
  tidy ctx -> Forall typed fields ->
  line_event (EvWrite w (record Local lvl t msg ctx fields)).
Proof. intros Hc Hf. cbn [line_event]. now apply record_line. Qed.

(** A state that differs by events that are lines. *)
Lemma program_state_same st hs st' evs :
  program_state st hs ->
  sound st' -> loggers st' = loggers st ->
  trace st' = trace st ++ evs -> Forall line_event evs ->
  program_state st' hs.
Proof.
  intros (Hs & Hc & Hh & Ht) Hs' Hl Htr Hev.
  split; [exact Hs'|]. rewrite Hl, Htr.
  split; [exact Hc|]. split; [exact Hh|].
  apply Forall_app. now split.
Qed.

(** A state with one more logger. *)
Lemma program_state_extend st hs st' c lgc evs :
  program_state st hs ->
  sound st' -> loggers st' = <[c := lgc]> (loggers st) -> tidy (context lgc) ->
  trace st' = trace st ++ evs -> Forall line_event evs ->
  program_state st' (hs ++ [c]).
Proof.
  intros (Hs & Hc & Hh & Ht) Hs' Hl Hlgc Htr Hev.
  split; [exact Hs'|]. rewrite Hl, Htr. split; [|split].
  - intros l lg. rewrite lookup_insert.
    destruct (decide _); [intros [= <-]; exact Hlgc|apply Hc].
  - apply Forall_app. split.
    + eapply Forall_impl; [exact Hh|]. intros l Hl'. cbv beta in *.
      rewrite lookup_insert. destruct (decide _); eauto.
    + constructor; [|constructor]. rewrite lookup_insert_eq. eauto.
  - apply Forall_app. now split.
Qed.

Lemma step_program_state Local st hs op :
  program_state st hs ->
  match handle op with Some h => (h < length hs)%nat | None => True end ->
  Forall typed (fields_of op) ->
  exists st' hs',
    step Local st hs op = Some (st', hs')
    /\ program_state st' hs'
    /\ length hs' = if creates op then S (length hs) else length hs.
Proof.
  intros HP Hh Hty.
  assert (Hnew : forall cfg,
    program_state (New st cfg).1 (hs ++ [(New st cfg).2])).
  { intros cfg. pose proof HP as (Hs & Hc & Hhs & Ht).
    destruct (New_sound st cfg Hs) as [Hs' _]. revert Hs'.
    rewrite New_eq. cbn [fst snd]. intros Hs'.
    eapply (program_state_extend st hs _ _ _ []);
      [exact HP|exact Hs'|reflexivity|apply tidy_nil
      |cbn [trace]; now rewrite app_nil_r|constructor]. }
  destruct op as [cfg| |h fields|h lvl|m h clock msg fields|h clock msg fields];
    cbn [handle fields_of creates step] in *.
  - specialize (Hnew cfg). destruct (New st cfg) as [st' l].
    eexists _, _. split; [reflexivity|]. split; [exact Hnew|].
    rewrite length_app. cbn [length]. lia.
  - unfold Nop. specialize (Hnew (mkConfig (Some Discard) DebugLevel None)).
    destruct (New st _) as [st' l].
    eexists _, _. split; [reflexivity|]. split; [exact Hnew|].
    rewrite length_app. cbn [length]. lia.
  - destruct (lookup_lt_is_Some_2 hs h Hh) as [l Hl]. rewrite Hl.
    cbn [mbind option_bind].
    pose proof HP as (Hs & Hc & Hhs & Ht).
    destruct (proj1 (Forall_lookup _ _) Hhs h l Hl) as [lg Hlg].
    destruct Hs as [Hr Hk]. destruct (Hk l lg Hlg) as [[pl Hp] _].
    destruct fields as [|f fields].
    + cbn. eexists _, _. split; [reflexivity|]. split.
      * split; [split; assumption|]. split; [exact Hc|]. split; [|exact Ht].
        apply Forall_app. split; [exact Hhs|]. constructor; [eauto|constructor].
      * rewrite length_app. cbn [length]. lia.
    + pose proof (Logger_With_spec Local st l lg pl (f :: fields)
                    ltac:(discriminate) Hlg Hp (Hr _ _ Hp)) as HW.
      cbv zeta in HW.
      pose proof (Logger_With_sound Local st l (f :: fields) _ _
                    (conj Hr Hk) HW) as Hs'.
      rewrite HW. cbn [mbind option_bind].
      eexists _, _. split; [reflexivity|]. split.
      * eapply program_state_extend;
          [exact HP|exact Hs'|reflexivity| |reflexivity|repeat constructor].
        cbn [context]. apply tidy_app; [now apply (Hc l)|].
        now apply encodeFields_tidy.
      * rewrite length_app. cbn [length]. lia.
  - destruct (lookup_lt_is_Some_2 hs h Hh) as [l Hl]. rewrite Hl.
    cbn [mbind option_bind].
    pose proof HP as (Hs & Hc & Hhs & Ht).
    destruct (proj1 (Forall_lookup _ _) Hhs h l Hl) as [lg Hlg].
    destruct (proj2 Hs l lg Hlg) as [_ [thr Hthr]].
    destruct (Logger_SetLevel st l lvl) as [st'|] eqn:E.
    2:{ unfold Logger_SetLevel, AtomicLevel_SetLevel in E.
        rewrite Hlg in E. cbn in E. rewrite Hthr in E. discriminate E. }
    cbn [mbind option_bind]. eexists _, _. split; [reflexivity|].
    split; [|reflexivity].
    pose proof (Logger_SetLevel_sound st l lvl st' Hs E) as Hs'.
    unfold Logger_SetLevel, AtomicLevel_SetLevel in E.
    rewrite Hlg in E. cbn in E. rewrite Hthr in E. cbn in E. injection E as <-.
    eapply (program_state_same st hs _ []);
      [exact HP|exact Hs'|reflexivity|cbn [trace]; now rewrite app_nil_r|constructor].
  - destruct (lookup_lt_is_Some_2 hs h Hh) as [l Hl]. rewrite Hl.
    cbn [mbind option_bind].
    pose proof HP as (Hs & Hc & Hhs & Ht).
    destruct (proj1 (Forall_lookup _ _) Hhs h l Hl) as [lg Hlg].
    destruct (proj2 Hs l lg Hlg) as [[pl Hp] [thr Hthr]].
    destruct (call Local m clock st l msg fields) as [st'|] eqn:E.
    2:{ destruct (call_total Local m clock st l lg msg fields Hs Hlg) as [? E'].
        rewrite E in E'. discriminate E'. }
    cbn [mbind option_bind]. eexists _, _. split; [reflexivity|].
    split; [|reflexivity].
    pose proof (call_sound Local m clock st l msg fields st' Hs E) as Hs'.
    destruct (Z.le_gt_cases thr (levelOf m)) as [Hen|Hdis].
    + rewrite (call_enabled Local m clock st l lg thr pl msg fields
                 Hlg Hthr Hen Hp (proj1 Hs _ _ Hp)) in E.
      injection E as <-.
      eapply program_state_same;
        [exact HP|exact Hs'|reflexivity|reflexivity|].
      constructor; [exact I|]. constructor; [|repeat constructor].
      apply line_event_record; [now apply (Hc l)|exact Hty].
    + rewrite (call_disabled Local m clock st l lg thr msg fields
                 Hlg Hthr ltac:(lia)) in E.
      injection E as <-. exact HP.
  - destruct (lookup_lt_is_Some_2 hs h Hh) as [l Hl]. rewrite Hl.
    cbn [mbind option_bind].
    pose proof HP as (Hs & Hc & Hhs & Ht).
    destruct (proj1 (Forall_lookup _ _) Hhs h l Hl) as [lg Hlg].
    destruct (proj2 Hs l lg Hlg) as [[pl Hp] _].
    rewrite (Logger_Fatal_spec Local clock st l lg pl msg fields
               Hlg Hp (proj1 Hs _ _ Hp)).
    cbn [mbind option_bind]. eexists _, _. split; [reflexivity|].
    split; [|reflexivity].
    eapply program_state_same; [exact HP| |reflexivity|reflexivity|].
    + apply sound_pool_update; [exact Hs|exact Hp|auto].
    + constructor; [exact I|]. constructor; [|repeat constructor].
      apply line_event_record; [now apply (Hc l)|exact Hty].
Qed.

Lemma run_program_state Local ops : forall st hs,
  program_state st hs ->
  scoped (length hs) ops = true -> well_typed ops ->
  exists st' hs', run Local st hs ops = Some (st', hs') /\ program_state st' hs'.
Proof.
  induction ops as [|op ops IH]; intros st hs HP Hsc Hty.
  - eexists _, _. split; [reflexivity|exact HP].
  - cbn [scoped] in Hsc. apply andb_prop in Hsc as [Hh Hsc].
    inversion_clear Hty as [|? ? Hop Hops].
    destruct (step_program_state Local st hs op HP) as (st1 & hs1 & E & HP1 & Hlen).
    + destruct (handle op); [|exact I]. now apply Nat.ltb_lt.
    + exact Hop.
    + cbn [run]. rewrite E. cbn [mbind option_bind].
      destruct (exits op); [eexists _, _; split; [reflexivity|exact HP1]|].
      apply IH; [exact HP1| |exact Hops]. now rewrite Hlen.
Qed.

(** X16.  A call that writes passes one line to the writer: for a logger
    whose context is tidy (well-formed UTF-8 without control characters
    or DEL) and fields whose [Ival] is an [int64], the record is tidy
    text and then a line feed, whatever bytes the message, the keys and
    the values hold. *)
Theorem log_writes_one_line Local clock st l lg pl lvl msg fields :
  loggers st !! l = Some lg ->
  pools st !! pool lg = Some pl -> hd [] (idle pl) = [] ->
  tidy (context lg) -> Forall typed fields ->
  exists st' line,
    Logger_log Local clock st l lvl msg fields = Some st'
    /\ trace st' = trace st ++ [EvGet (pool lg);
                                EvWrite (output lg) (line ++ [x0a]);
                                EvPut (pool lg)]
    /\ tidy line.
Proof.
  intros Hl Hp Hhd Hc Hf.
  destruct (record_line Local lvl (time.Now Local clock) msg (context lg) fields
              Hc Hf) as (line & E & Hline).
  rewrite (Logger_log_spec Local clock st l lg pl lvl msg fields Hl Hp Hhd).
  eexists _, line. split; [reflexivity|]. cbn [trace]. rewrite E. now split.
Qed.

(** X16, witness: a message and a value that hold a line feed, a tab and
    a byte that is not UTF-8. *)
Lemma log_writes_one_line_witness :
  exists st' line,
    Logger_log CET clock0 st1 root WarnLevel [x61; x0a; xff]
      [String (bytes "k") [x09; x7f]] = Some st'
    /\ trace st' = trace st1 ++ [EvGet 0%nat; EvWrite (Sink 0) (line ++ [x0a]);
                                 EvPut 0%nat]
    /\ tidy line.
Proof.
  apply (log_writes_one_line CET clock0 st1 root (mkLogger (Sink 0) 0 0 [])
           (mkPool defaultPoolConfig []) WarnLevel [x61; x0a; xff]
           [String (bytes "k") [x09; x7f]]);
    try reflexivity.
  - apply tidy_nil.
  - constructor; [|constructor].
    unfold typed, int64_range, int64_min, int64_max. cbn [Ival String]. lia.
Defined.

(** X17.  No program fails: whatever loggers a program makes with [New],
    [Nop] and [With], and whatever calls of [SetLevel], of the gated
    methods and of [Fatal] it makes on them, every call returns, the
    state stays sound (no pool ever hands out a buffer with content), and
    everything the program has passed to a writer is one line of tidy
    text each. *)
Theorem program_never_fails Local ops :
  scoped 0 ops = true -> well_typed ops ->
  exists st hs,
    run Local (mkState ∅ ∅ ∅ []) [] ops = Some (st, hs)
    /\ sound st
    /\ Forall line_event (trace st).
Proof.
  intros Hsc Hty.
  destruct (run_program_state Local ops (mkState ∅ ∅ ∅ []) []) as (st & hs & E & HP).
  - split; [apply sound_empty|]. split; [|split; constructor].
    intros l lg H. cbn in H. rewrite lookup_empty in H. discriminate H.
  - exact Hsc.
  - exact Hty.
  - exists st, hs. split; [exact E|].
    destruct HP as (Hs & _ & _ & Ht). now split.
Qed.

(** X17, witness: the program of the examples. *)
Lemma program_never_fails_witness :
  scoped 0 example_program = true
  /\ well_typed example_program
  /\ exists st hs,
       run CET (mkState ∅ ∅ ∅ []) [] example_program = Some (st, hs)
       /\ sound st
       /\ Forall line_event (trace st).
Proof.
  assert (H1 : scoped 0 example_program = true) by reflexivity.
  assert (H2 : well_typed example_program).
  { repeat (constructor;
            try (unfold typed, int64_range, int64_min, int64_max; cbn; lia)). }
  exact (conj H1 (conj H2 (program_never_fails CET example_program H1 H2))).
Defined.

(** ** The encoder *)

Lemma written_spec Local c B :
  match c with
  | CByte c => B ++ [c]
  | CString s => B ++ s
  | CJSONString s => appendJSONString B s
  | CKey key => appendKey B key
  | CInt64 v => appendInt64 B v
  | CFloat64 v => appendFloat64 B v
  | CBool v => appendBool B v
  | CTime t => appendTime B t
  | CDuration d => appendDuration B d
  | CField f => appendField Local B f
  end = B ++ written Local c.
Proof.
  destruct c; cbn [written];
    [reflexivity|reflexivity|apply appendJSONString_dst|apply appendKey_dst
    |apply appendInt64_dst|apply appendFloat64_dst|apply appendBool_dst
    |apply appendTime_dst|apply appendDuration_dst|apply appendField_dst].
Qed.

Lemma Encoder_call_spec Local bs e c :
  Encoder_call Local bs e c
  = B ← bs !! buf e; Some (<[buf e := B ++ written Local c]> bs).
Proof.
  destruct (bs !! buf e) as [B|] eqn:E.
  - cbn [mbind option_bind]. rewrite <- written_spec.
    destruct c; cbn [Encoder_call];
      unfold Encoder_AppendByte, Encoder_AppendString, Encoder_AppendJSONString,
        Encoder_AppendKey, Encoder_AppendInt64, Encoder_AppendFloat64,
        Encoder_AppendBool, Encoder_AppendTime, Encoder_AppendDuration,
        Encoder_AppendField, Encoder_set; rewrite E; reflexivity.
  - destruct c; cbn [Encoder_call];
      unfold Encoder_AppendByte, Encoder_AppendString, Encoder_AppendJSONString,
        Encoder_AppendKey, Encoder_AppendInt64, Encoder_AppendFloat64,
        Encoder_AppendBool, Encoder_AppendTime, Encoder_AppendDuration,
        Encoder_AppendField, Encoder_set; rewrite E; reflexivity.
Qed.

(** X18.  The methods of an encoder only append, and only to the buffer
    of the encoder: after a sequence of calls made through encoders of one
    buffer, that buffer holds what it held, followed by what each call
    writes, in the order of the calls, and every other buffer is as it
    was.  Encoders made for the same buffer write to the same bytes. *)
Theorem Encoder_calls_append Local cs : forall bs b B,
  bs !! b = Some B ->
  Forall (λ ec, buf ec.1 = b) cs ->
  Encoder_calls Local bs cs
  = Some (<[b := B ++ concat ((λ ec, written Local ec.2) <$> cs)]> bs).
Proof.
  induction cs as [|[e c] cs IH]; intros bs b B Hb Hcs.
  - cbn. rewrite app_nil_r. now rewrite insert_id.
  - inversion_clear Hcs as [|? ? He Hcs']. cbn [fst] in He.
    cbn [Encoder_calls]. rewrite Encoder_call_spec, He, Hb.
    cbn [mbind option_bind].
    rewrite (IH _ b (B ++ written Local c)); [|apply lookup_insert_eq|exact Hcs'].
    rewrite insert_insert_eq. cbn [fmap list_fmap concat snd].
    now rewrite app_assoc.
Qed.

(** X18, witness: a member written through two encoders of one buffer. *)
Lemma Encoder_calls_append_witness :
  Encoder_calls CET {[ 0%nat := bytes "{" ]}
    [(NewEncoder 0, CKey (bytes "n")); (NewEncoder 0, CInt64 (-7));
     (NewEncoder 0, CByte x7d)]
  = Some {[ 0%nat := bytes "{" ++ json "'n':-7}" ]}.
Proof.
  rewrite (Encoder_calls_append CET _ {[ 0%nat := bytes "{" ]} 0%nat (bytes "{")).
  - now rewrite insert_singleton.
  - reflexivity.
  - repeat constructor.
Defined.


(** ** Fields, by constructor *)

Lemma wrap64_range x : int64_range (wrap64 x).
Proof.
  unfold int64_range, int64_min, int64_max, wrap64. pow2.
  pose proof (Z.mod_pos_bound (x + 9223372036854775808) 18446744073709551616
                ltac:(lia)).
  lia.
Qed.

(** X20.  What is written for the field of each constructor, after the
    key: the value as a JSON string for [String], [Bytes] and [Err] (the
    message of the error; the empty string for the nil error), in decimal
    for [Int] and [Int64], [true] or [false] for [Bool], the seconds as a
    float for [Duration].  Every constructor gives a field whose [Ival] is
    an [int64]. *)
Theorem constructors_written Local dst key :
  (forall v, appendField Local dst (String key v)
             = appendJSONString (appendKey dst key) v)
  /\ (forall v, appendField Local dst (Bytes key v)
                = appendJSONString (appendKey dst key) v)
  /\ (forall e, appendField Local dst (Err (Some e))
                = appendJSONString (appendKey dst (bytes "error")) (error_Error e))
  /\ appendField Local dst (Err None) = dst ++ json "'error':''"
  /\ (forall v, int64_range v ->
        appendField Local dst (Int key v) = appendKey dst key ++ decimal v
        /\ appendField Local dst (Int64 key v) = appendKey dst key ++ decimal v)
  /\ (forall v, appendField Local dst (Bool key v)
                = appendKey dst key ++ bytes (if v then "true" else "false"))
  /\ (forall d, appendField Local dst (Duration key d)
                = appendFloat64 (appendKey dst key) (time.Seconds d))
  /\ (forall v x e b (i : Z),
        typed (String key v) /\ typed (Bytes key v) /\ typed (Err e)
        /\ typed (Bool key b) /\ typed (Float64 key x)
        /\ (int64_range i -> typed (Int key i) /\ typed (Int64 key i)
                             /\ typed (Duration key i)))
  /\ (forall t, typed (Time key t)).
Proof.
  split; [reflexivity|]. split; [reflexivity|]. split; [reflexivity|].
  split.
  { unfold Err, appendField. cbn [Key Type_ Str].
    rewrite appendJSONString_dst, appendKey_dst, <- app_assoc. reflexivity. }
  split.
  { intros v Hv. unfold appendField, Int, Int64. cbn [Key Type_ Ival].
    now rewrite appendInt64_decimal. }
  split; [intros v; now destruct v|].
  split; [reflexivity|].
  split.
  - intros v x e b i. unfold typed.
    split; [cbn; unfold int64_range, int64_min, int64_max; lia|].
    split; [cbn; unfold int64_range, int64_min, int64_max; lia|].
    split; [destruct e; cbn; unfold int64_range, int64_min, int64_max; lia|].
    split; [destruct b; cbn; unfold int64_range, int64_min, int64_max; lia|].
    split; [apply wrap64_range|].
    intros Hv. cbn [Ival Int Int64 Duration]. auto.
  - intros t. apply wrap64_range.
Qed.

(** ** Floats that are written exactly *)

Lemma json_parse_int_nonneg v :
  0 <= v -> json_parse_int (decimal v) = Some v.
Proof.
  intros Hv. destruct (Z.eq_dec v 0) as [->|Hnz]; [reflexivity|].
  destruct (decimal_digits v) as (b & t & E & Hb & Hp & _); [lia|].
  rewrite <- (parse_nat_decimal v) by lia. rewrite E.
  unfold json_parse_int.
  destruct (Byte.eqb b x2d) eqn:Eb; [|reflexivity].
  exfalso. apply byte_eqb_eq in Eb. subst b. cbn in Hp. discriminate Hp.
Qed.

(** X21.  A positive float that is a whole number below 1e15 is written
    as that number in decimal, without a point: a JSON integer that reads
    back as the value. *)
Theorem appendFloat64_integer dst v :
  f64.valid v = true -> f64.ltb f64.zero v = true ->
  f64.eqb v (math.Trunc v) = true -> f64.ltb v f1e15 = true ->
  appendFloat64 dst v = dst ++ decimal (f64.truncZ v)
  /\ json_parse_int (appendFloat64 [] v) = Some (f64.truncZ v).
Proof.
  intros Hv Hpos Hw Hlt.
  destruct v as [s|s| |s m e]; try discriminate;
    [destruct s; discriminate|].
  destruct s; [discriminate|].
  pose proof (ltb_1e15 m e Hv Hlt) as Hr.
  rewrite !(appendFloat64_whole _ false m e Hv Hw Hlt). cbn [app].
  split; [reflexivity|]. apply json_parse_int_nonneg. lia.
Qed.

(** X21, witness: 1234567 as a float. *)
Lemma appendFloat64_integer_witness :
  appendFloat64 [] (f64.of_int 1234567) = [] ++ decimal 1234567
  /\ json_parse_int (appendFloat64 [] (f64.of_int 1234567)) = Some 1234567.
Proof.
  apply (appendFloat64_integer [] (f64.of_int 1234567));
    vm_compute; reflexivity.
Defined.

Lemma trimZeros_length l : (length (time.trimZeros l) <= length l)%nat.
Proof.
  induction l as [|b l IH]; [cbn; lia|].
  cbn [time.trimZeros]. destruct b; cbn [length] in *; lia.
Qed.

Lemma trimFrac_length ds :
  length ds = 6%nat -> (1 <= length (trimFrac ds) <= 6)%nat.
Proof.
  intros Hds. unfold trimFrac.
  pose proof (trimZeros_length (rev ds)) as Hl.
  rewrite length_rev, Hds in Hl.
  destruct (rev (time.trimZeros (rev ds))) as [|b t] eqn:E.
  - rewrite length_take, Hds. lia.
  - rewrite <- E, length_rev. split; [|exact Hl].
    apply (f_equal length) in E. rewrite length_rev in E. cbn [length] in E. lia.
Qed.

Lemma pad6_length n : 0 <= n < 1000000 -> length (pad6 n) = 6%nat.
Proof.
  intros Hn. unfold pad6. rewrite length_app, length_replicate.
  assert ((length (decimal n) <= 6)%nat); [|lia].
  destruct (Z.eq_dec n 0) as [->|Hnz]; [cbn; lia|].
  destruct (decimal_digits n) as (b & t & E & _ & _ & Hlen); [lia|].
  rewrite E. apply Hlen. change (10 ^ Z.of_nat 6) with 1000000. lia.
Qed.

(** X22.  A positive float that does not take the integer path, whose
    integer part fits an [int64] and whose fraction, times a million,
    rounds to [n] below a million, is written as the integer part, a
    point, and the six digits of [n] without their trailing zeros: one to
    six digits. *)
Theorem appendFloat64_fraction_digits dst m e :
  let v := S754_finite false m e in
  let n := f64.to_int64
             (math.Round (f64.mul (f64.sub v (f64.of_int (f64.truncZ v))) f1e6)) in
  f64.eqb v (math.Trunc v) && f64.ltb v f1e15 = false ->
  f64.truncZ v <= int64_max ->
  0 <= n < 1000000 ->
  appendFloat64 dst v
  = dst ++ decimal (f64.truncZ v) ++ [x2e] ++ trimFrac (pad6 n)
  /\ (1 <= length (trimFrac (pad6 n)) <= 6)%nat.
Proof.
  intros v n Hpath Hmax Hn. split.
  - apply (appendFloat64_fraction dst false m e Hpath Hmax Hn).
  - apply trimFrac_length. now apply pad6_length.
Qed.

(** X22, witness: 1.5. *)
Lemma appendFloat64_fraction_digits_witness :
  appendFloat64 [] (S754_finite false 6755399441055744 (-52)) = bytes "1.5"
  /\ (1 <= length (trimFrac (pad6 500000)) <= 6)%nat.
Proof.
  destruct (appendFloat64_fraction_digits [] 6755399441055744 (-52)) as [H1 H2].
  - vm_compute. reflexivity.
  - vm_compute. discriminate.
  - split; vm_compute; [discriminate|reflexivity].
  - split; [rewrite H1; vm_compute; reflexivity|exact H2].
Defined.

(** ** Calls in sequence *)

(** X23.  A change of level takes effect at the next call: after
    [SetLevel lvl] on a logger, a call of a gated method on it writes its
    record exactly if the level of the method is at least [lvl], whatever
    the threshold was before. *)
Theorem SetLevel_then_call Local st l lg lvl m clock msg fields :
  sound st -> loggers st !! l = Some lg ->
  exists st1 st2,
    Logger_SetLevel st l lvl = Some st1
    /\ call Local m clock st1 l msg fields = Some st2
    /\ trace st2
       = trace st
         ++ (if lvl <=? levelOf m then
               [EvGet (pool lg);
                EvWrite (output lg)
                  (record Local (levelOf m) (time.Now Local clock) msg
                     (context lg) fields);
                EvPut (pool lg)]
             else []).
Proof.
  intros [Hr Hk] Hl. destruct (Hk l lg Hl) as [[pl Hp] [thr Hthr]].
  unfold Logger_SetLevel, AtomicLevel_SetLevel. rewrite Hl.
  cbn [mbind option_bind]. rewrite Hthr. cbn [mbind option_bind].
  set (st1 := mkState _ _ _ _).
  assert (Hl1 : loggers st1 !! l = Some lg) by exact Hl.
  assert (Hlv1 : levels st1 !! level lg = Some lvl) by apply lookup_insert_eq.
  assert (Hp1 : pools st1 !! pool lg = Some pl) by exact Hp.
  exists st1. destruct (Z.leb_spec lvl (levelOf m)) as [Hen|Hdis].
  - eexists. split; [reflexivity|]. split.
    + apply (call_enabled Local m clock st1 l lg lvl pl msg fields
               Hl1 Hlv1 Hen Hp1 (Hr _ _ Hp)).
    + reflexivity.
  - exists st1. split; [reflexivity|]. split.
    + apply (call_disabled Local m clock st1 l lg lvl msg fields Hl1 Hlv1 Hdis).
    + cbn [trace st1]. now rewrite app_nil_r.
Qed.

(** X23, witness: the root logger of the examples, opened to [Debug]. *)
Lemma SetLevel_then_call_witness :
  exists sa sb,
    Logger_SetLevel st1 root DebugLevel = Some sa
    /\ call CET MDebug clock0 sa root (bytes "m") [] = Some sb
    /\ trace sb
       = trace st1
         ++ [EvGet 0%nat;
             EvWrite (Sink 0)
               (record CET DebugLevel (time.Now CET clock0) (bytes "m") [] []);
             EvPut 0%nat].
Proof.
  apply (SetLevel_then_call CET st1 root (mkLogger (Sink 0) 0 0 []) DebugLevel
           MDebug clock0 (bytes "m") []).
  - apply (New_sound st0 (mkConfig (Some (Sink 0)) InfoLevel None)), sound_empty.
  - reflexivity.
Defined.

(** X24.  A record holds nothing of the record before it: two calls of
    [log] on a logger, one after the other, take the buffer of the pool in
    turn and write each its own record, the second as if the first had not
    been. *)
Theorem log_twice Local st l lg clock1 lvl1 msg1 fields1 clock2 lvl2 msg2 fields2 :
  sound st -> loggers st !! l = Some lg ->
  exists st1 st2,
    Logger_log Local clock1 st l lvl1 msg1 fields1 = Some st1
    /\ Logger_log Local clock2 st1 l lvl2 msg2 fields2 = Some st2
    /\ trace st2
       = trace st
         ++ [EvGet (pool lg);
             EvWrite (output lg)
               (record Local lvl1 (time.Now Local clock1) msg1 (context lg) fields1);
             EvPut (pool lg);
             EvGet (pool lg);
             EvWrite (output lg)
               (record Local lvl2 (time.Now Local clock2) msg2 (context lg) fields2);
             EvPut (pool lg)].
Proof.
  intros [Hr Hk] Hl. destruct (Hk l lg Hl) as [[pl Hp] _].
  rewrite (Logger_log_spec Local clock1 st l lg pl lvl1 msg1 fields1 Hl Hp (Hr _ _ Hp)).
  set (st1 := mkState _ _ _ _).
  assert (Hl1 : loggers st1 !! l = Some lg) by exact Hl.
  assert (Hp1 : pools st1 !! pool lg
                = Some (mkPool (poolConfig pl) ([] :: tail (idle pl))))
    by apply lookup_insert_eq.
  exists st1. eexists. split; [reflexivity|]. split.
  - apply (Logger_log_spec Local clock2 st1 l lg _ lvl2 msg2 fields2 Hl1 Hp1).
    reflexivity.
  - cbn [trace st1]. now rewrite <- app_assoc.
Qed.

(** X24, witness: two records of the root logger of the examples. *)
Lemma log_twice_witness :
  exists sa sb,
    Logger_log CET clock0 st1 root InfoLevel (bytes "one") started = Some sa
    /\ Logger_log CET clock0 sa root ErrorLevel (bytes "two") [] = Some sb
    /\ trace sb
       = trace st1
         ++ [EvGet 0%nat;
             EvWrite (Sink 0)
               (record CET InfoLevel (time.Now CET clock0) (bytes "one") [] started);
             EvPut 0%nat;
             EvGet 0%nat;
             EvWrite (Sink 0)
               (record CET ErrorLevel (time.Now CET clock0) (bytes "two") [] []);
             EvPut 0%nat].
Proof.
  apply (log_twice CET st1 root (mkLogger (Sink 0) 0 0 []) clock0 InfoLevel
           (bytes "one") started clock0 ErrorLevel (bytes "two") []).
  - apply (New_sound st0 (mkConfig (Some (Sink 0)) InfoLevel None)), sound_empty.
  - reflexivity.
Defined.

(** ** Keys *)

(** X25.  A key is escaped as a value is: what [appendKey] appends is a
    JSON string and a colon, and a parser reads the string back as the key
    (with U+FFFD for the bytes that are not UTF-8), so that no byte of a
    key ends the string early. *)
Theorem appendKey_parses dst key :
  exists out,
    appendKey dst key = dst ++ out ++ [x3a]
    /\ json_parse_string out = Some (sanitize key)
    /\ out = appendJSONString [] key.
Proof.
  exists (appendJSONString [] key). split; [|split; [|reflexivity]].
  - unfold appendKey. rewrite appendEscapedString_dst, appendJSONString_eq.
    cbn [app]. rewrite <- !app_assoc. reflexivity.
  - rewrite appendJSONString_eq. cbn [app json_parse_string].
    apply json_chars_sanitize.
Qed.

(** ** The nil logger *)

(** X26.  On a logger that does not exist (the nil pointer), [With]
    without fields returns the receiver and does nothing, as it returns
    before it reads the logger; [With] with fields, [SetLevel], the gated
    methods and [Fatal] all fail, and [Fatal] does so before the process
    exits. *)
Theorem nil_logger_calls Local st l :
  loggers st !! l = None ->
  Logger_With Local st l [] = Some (st, l)
  /\ (forall fields, fields <> [] -> Logger_With Local st l fields = None)
  /\ (forall lvl, Logger_SetLevel st l lvl = None)
  /\ (forall m clock msg fields, call Local m clock st l msg fields = None)
  /\ (forall clock msg fields, Logger_Fatal Local clock st l msg fields = None).
Proof.
  intros Hl. split; [reflexivity|]. split; [|split; [|split]].
  - intros [|f fields] Hf; [congruence|].
    unfold Logger_With. cbn [length Nat.eqb]. now rewrite Hl.
  - intros lvl. unfold Logger_SetLevel. now rewrite Hl.
  - intros m clock msg fields. rewrite call_unfold. now rewrite Hl.
  - intros clock msg fields. unfold Logger_Fatal, Logger_log. now rewrite Hl.
Qed.

(** X26, witness: address 7 in the state of the examples. *)
Lemma nil_logger_calls_witness :
  Logger_With CET st1 7 [] = Some (st1, 7%nat)
  /\ (forall fields, fields <> [] -> Logger_With CET st1 7 fields = None)
  /\ (forall lvl, Logger_SetLevel st1 7 lvl = None)
  /\ (forall m clock msg fields, call CET m clock st1 7 msg fields = None)
  /\ (forall clock msg fields, Logger_Fatal CET clock st1 7 msg fields = None).
Proof. apply (nil_logger_calls CET st1 7). reflexivity. Defined.

(** ** Integers as floats *)

Lemma iter_xO_pos k p : Z.pos (Pos.iter xO k p) = Z.pos k * 2 ^ Z.pos p.
Proof.
  induction p as [|p IH] using Pos.peano_ind.
  - cbn [Pos.iter]. lia.
  - rewrite Pos.iter_succ, Pos2Z.inj_xO, IH, Pos2Z.inj_succ, Z.pow_succ_r by lia.
    lia.
Qed.

Lemma iter_xO_digits k p :
  Z.pos (digits2_pos (Pos.iter xO k p)) = Z.pos (digits2_pos k) + Z.pos p.
Proof.
  induction p as [|p IH] using Pos.peano_ind.
  - cbn [Pos.iter digits2_pos]. lia.
  - rewrite Pos.iter_succ. cbn [digits2_pos]. rewrite Pos2Z.inj_succ, IH. lia.
Qed.

(** Rounding changes nothing in a float64. *)
Lemma binary_round_aux_exact sx m e :
  bounded 53 1024 m e = true ->
  binary_round_aux 53 1024 sx (Z.pos m) e loc_Exact = S754_finite sx m e.
Proof.
  intros Hb. unfold bounded, canonical_mantissa in Hb.
  apply andb_prop in Hb as [Hc He]. apply Z.eqb_eq in Hc.
  unfold binary_round_aux, shr_fexp. cbn [Zdigits2 shr_record_of_loc].
  rewrite Hc, Z.sub_diag. cbn [shr shr_m loc_of_shr_record round_nearest_even Zdigits2].
  rewrite Hc, Z.sub_diag. cbn [shr shr_m]. now rewrite He.
Qed.

(** An integer below [2 ^ 53] is a float64. *)
Lemma binary_round_integer k :
  Z.pos k < 2 ^ 53 ->
  exists m e,
    (forall sx, binary_round 53 1024 sx k 0 = S754_finite sx m e)
    /\ bounded 53 1024 m e = true
    /\ e <= 0 /\ Z.pos m = Z.pos k * 2 ^ (- e)
    /\ (e < 0 -> Z.pos (digits2_pos m) = 53).
Proof.
  intros Hk.
  pose proof (digits2_pos_low k) as Hlow.
  assert (Hd : Z.pos (digits2_pos k) <= 53).
  { destruct (Z.le_gt_cases (Z.pos (digits2_pos k)) 53) as [H|H]; [exact H|].
    exfalso.
    assert (2 ^ 53 <= 2 ^ (Z.pos (digits2_pos k) - 1))
      by (apply Z.pow_le_mono_r; lia).
    lia. }
  unfold binary_round, shl_align, fexp, emin.
  rewrite Z.add_0_r, Z.sub_0_r.
  replace (Z.max (Z.pos (digits2_pos k) - 53) (3 - 1024 - 53))
    with (Z.pos (digits2_pos k) - 53) by lia.
  destruct (Z.pos (digits2_pos k) - 53) as [|p|p] eqn:E; [|lia|].
  - assert (Hb : bounded 53 1024 k 0 = true).
    { unfold bounded, canonical_mantissa, fexp, emin.
      apply andb_true_intro. split; [apply Z.eqb_eq; lia|reflexivity]. }
    exists k, 0. split; [intros sx; now apply binary_round_aux_exact|].
    split; [exact Hb|]. split; [lia|]. split; [cbn; lia|]. lia.
  - assert (Hdig := iter_xO_digits k p).
    assert (Hb : bounded 53 1024 (Pos.iter xO k p) (Z.neg p) = true).
    { unfold bounded, canonical_mantissa, fexp, emin.
      apply andb_true_intro. split; [apply Z.eqb_eq; lia|apply Z.leb_le; lia]. }
    exists (Pos.iter xO k p), (Z.neg p).
    split; [intros sx; now apply binary_round_aux_exact|].
    split; [exact Hb|]. split; [lia|].
    split; [rewrite iter_xO_pos; reflexivity|]. lia.
Qed.

Lemma SFeqb_refl sx m e : SFeqb (S754_finite sx m e) (S754_finite sx m e) = true.
Proof.
  unfold SFeqb, SFcompare. rewrite Z.compare_refl, Pos.compare_cont_refl.
  now destruct sx.
Qed.

(** The float of an integer below 1e15 in magnitude, other than zero. *)
Lemma of_int_whole k :
  0 < k < 1000000000000000 ->
  exists m e,
    f64.of_int k = S754_finite false m e
    /\ f64.of_int (- k) = S754_finite true m e
    /\ f64.valid (S754_finite false m e) = true
    /\ f64.truncZ (S754_finite false m e) = k
    /\ f64.eqb (S754_finite false m e) (math.Trunc (S754_finite false m e)) = true
    /\ f64.ltb (S754_finite false m e) f1e15 = true.
Proof.
  intros Hk. destruct k as [|k|k]; try lia.
  assert (Hk53 : Z.pos k < 2 ^ 53) by (pow2; lia).
  destruct (binary_round_integer k Hk53) as (m & e & Hr & Hb & He & Hm & Hdig).
  exists m, e.
  assert (Hof : f64.of_int (Z.pos k) = S754_finite false m e) by apply Hr.
  assert (Ht : f64.truncZ (S754_finite false m e) = Z.pos k).
  { unfold f64.truncZ. cbn [cond_Zopp].
    destruct (Z.leb_spec 0 e) as [H0|H0].
    - assert (e = 0) by lia. subst e. cbn in Hm. lia.
    - rewrite Z.shiftr_div_pow2, Hm by lia.
      apply Z.div_mul. apply Z.pow_nonzero; lia. }
  split; [exact Hof|]. split; [apply Hr|]. split; [exact Hb|].
  split; [exact Ht|]. split.
  - unfold math.Trunc. destruct (Z.leb_spec 0 e) as [H0|H0]; [apply SFeqb_refl|].
    cbn [cond_Zopp].
    assert (Hs : Z.shiftr (Z.pos m) (- e) = Z.pos k).
    { rewrite Z.shiftr_div_pow2, Hm by lia.
      apply Z.div_mul. apply Z.pow_nonzero; lia. }
    rewrite Hs.
    change (binary_normalize f64.prec f64.emax (Z.pos k) 0 false)
      with (f64.of_int (Z.pos k)).
    rewrite Hof. apply SFeqb_refl.
  - unfold f64.ltb, SFltb.
    change f1e15 with (S754_finite false 8000000000000000 (-3)).
    cbn [SFcompare].
    destruct (Z.compare_spec e (-3)) as [->|Hlt|Hgt]; [|reflexivity|].
    + rewrite Pos.compare_cont_spec. cbn [Pos.switch_Eq].
      change (2 ^ (- -3)) with 8 in Hm.
      destruct (Pos.compare_spec m 8000000000000000) as [Heq|Hc|Hc];
        [exfalso|reflexivity|exfalso].
      * apply (f_equal Z.pos) in Heq. clear -Hk Hm Heq. lia.
      * apply Pos2Z.pos_lt_pos in Hc. clear -Hk Hm Hc. lia.
    + exfalso.
      assert (He3 : - e <= 2) by lia.
      assert (Hp : 2 ^ (- e) <= 2 ^ 2) by (apply Z.pow_le_mono_r; lia).
      change (2 ^ 2) with 4 in Hp.
      assert (Hm4 : Z.pos m < 4000000000000000).
      { rewrite Hm. clear -Hk Hp. nia. }
      destruct (Z.eq_dec e 0) as [->|Hne].
      * (* the mantissa is [k] itself, of 53 bits *)
        pose proof (digits2_pos_low m) as Hl. pose proof (digits2_pos_bound m) as Hu.
        clear -Hm4 Hl Hu Hb.
        unfold bounded, canonical_mantissa, fexp, emin in Hb.
        apply andb_prop in Hb as [Hc _]. apply Z.eqb_eq in Hc.
        assert (Hd : Z.pos (digits2_pos m) = 53) by lia.
        rewrite Hd in Hl. change (2 ^ (53 - 1)) with 4503599627370496 in Hl. lia.
      * pose proof (digits2_pos_low m) as Hl.
        rewrite (Hdig ltac:(lia)) in Hl.
        change (2 ^ (53 - 1)) with 4503599627370496 in Hl. clear -Hm4 Hl. lia.
Qed.

(** X27.  An integer below 1e15 in magnitude, converted to a float, is
    written as the integer in decimal, without a point. *)
Theorem appendFloat64_of_int dst k :
  - 1000000000000000 < k < 1000000000000000 ->
  appendFloat64 dst (f64.of_int k) = dst ++ decimal k.
Proof.
  intros Hk. destruct (Z.lt_trichotomy k 0) as [Hneg|[->|Hpos]].
  - destruct (of_int_whole (- k)) as (m & e & _ & Hof & Hv & Ht & Hw & Hlt); [lia|].
    rewrite Z.opp_involutive in Hof. rewrite Hof.
    rewrite (appendFloat64_whole dst true m e Hv Hw Hlt), Ht.
    now rewrite (decimal_neg k) by assumption.
  - reflexivity.
  - destruct (of_int_whole k) as (m & e & Hof & _ & Hv & Ht & Hw & Hlt); [lia|].
    rewrite Hof, (appendFloat64_whole dst false m e Hv Hw Hlt), Ht. reflexivity.
Qed.

(** X27, witness: -42. *)
Lemma appendFloat64_of_int_witness :
  appendFloat64 (bytes "x=") (f64.of_int (-42)) = bytes "x=" ++ decimal (-42).
Proof. apply (appendFloat64_of_int (bytes "x=") (-42)). lia. Defined.

(** X28.  A duration of whole seconds is written as the number of
    seconds, as an integer. *)
Theorem appendDuration_seconds dst k :
  - 1000000000000000 < k < 1000000000000000 ->
  appendDuration dst (k * 1000000000) = dst ++ decimal k.
Proof.
  intros Hk. unfold appendDuration, time.Seconds. cbv zeta.
  rewrite Z.quot_mul, Z.rem_mul by lia.
  change (f64.div (f64.of_int 0) (f64.of_int 1000000000)) with (S754_zero false).
  assert (Hadd : f64.add (f64.of_int k) (S754_zero false) = f64.of_int k).
  { destruct (Z.lt_trichotomy k 0) as [Hneg|[->|Hpos]].
    - destruct (of_int_whole (- k)) as (m & e & _ & Hof & _); [lia|].
      rewrite Z.opp_involutive in Hof. now rewrite Hof.
    - reflexivity.
    - destruct (of_int_whole k) as (m & e & Hof & _); [lia|]. now rewrite Hof. }
  rewrite Hadd. now apply appendFloat64_of_int.
Qed.

(** X28, witness: two seconds. *)
Lemma appendDuration_seconds_witness :
  appendDuration [] (2 * 1000000000) = [] ++ decimal 2.
Proof. apply (appendDuration_seconds [] 2). lia. Defined.
